(** * QUDA reduction engine: reduce_quda.cu

    A shallow embedding of [lib/reduce_quda.cu]: the reduction buffer
    manager ([initReduce], [endReduce]), the reduction functors and the
    public entry points that dispatch them.

    Arithmetic.  [double] and [float] are modelled by the canonical
    rationals [Qc]: exact arithmetic, no rounding, no NaN.  The casts
    [(ReduceType)a.x] between precisions are therefore the identity. *)

From Stdlib Require Import ZArith QArith Qcanon Lia String.
From stdpp Require Import base numbers list option.

Local Open Scope Z_scope.

(** ** Scalars *)

Abbreviation double := Qc.

(** [fabs] of <math.h>. *)
Definition fabs (a : double) : double :=
  if bool_decide (a < 0)%Qc then (- a)%Qc else a.

(** The comparison [a > 0.0]. *)
Definition gt0 (a : double) : bool := bool_decide (0 < a)%Qc.

(** Conversion of an integer to [double]. *)
Definition of_int (n : Z) : double := Qc_of_Z n.

(** The product of two [int]s, with the wrap-around of 32-bit
    arithmetic. *)
Definition int_mul (a b : Z) : Z := (a * b + 2 ^ 31) mod 2 ^ 32 - 2 ^ 31.
Arguments int_mul : simpl never.

(** ** CUDA vector types

    [double2], [double3], [double4] with their [make_] constructors.
    In exact arithmetic [float2] and [float4] have the shapes of
    [double2] and [double4]. *)

Module double2.
Record t : Type := make_double2 { x : double; y : double }.
End double2.
Abbreviation double2 := double2.t.
Abbreviation make_double2 := double2.make_double2.

Module double3.
Record t : Type := make_double3 { x : double; y : double; z : double }.
End double3.
Abbreviation double3 := double3.t.
Abbreviation make_double3 := double3.make_double3.

Module double4.
Record t : Type :=
  make_double4 { x : double; y : double; z : double; w : double }.
End double4.
Abbreviation double4 := double4.t.
Abbreviation make_double4 := double4.make_double4.

Abbreviation float2 := double2.t (only parsing).
Abbreviation float4 := double4.t (only parsing).

(** [std::complex<double>], with [REAL], [IMAG] and [conj]. *)
Record Complex : Type := mkComplex { REAL : double; IMAG : double }.

Definition conj (c : Complex) : Complex :=
  mkComplex (REAL c) (- IMAG c)%Qc.

(** ** Reduction result types

    A [ReduceType] is summed: by the functors, and when the partial sums
    of threads, blocks and processes are combined. *)

Class ReduceType (R : Type) : Type := {
  rzero : R;
  rplus : R -> R -> R
}.

#[export] Instance double_reduce : ReduceType double :=
  {| rzero := 0%Qc; rplus := Qcplus |}.

#[export] Instance double2_reduce : ReduceType double2 :=
  {| rzero := make_double2 0 0;
     rplus a b := make_double2 (double2.x a + double2.x b)
                               (double2.y a + double2.y b) |}.

#[export] Instance double3_reduce : ReduceType double3 :=
  {| rzero := make_double3 0 0 0;
     rplus a b := make_double3 (double3.x a + double3.x b)
                               (double3.y a + double3.y b)
                               (double3.z a + double3.z b) |}.

#[export] Instance double4_reduce : ReduceType double4 :=
  {| rzero := make_double4 0 0 0 0;
     rplus a b := make_double4 (double4.x a + double4.x b)
                               (double4.y a + double4.y b)
                               (double4.z a + double4.z b)
                               (double4.w a + double4.w b) |}.

(** ** Field elements

    The functors are templates over the element type [FloatN]; the file
    overloads its helpers for [double2], [float2] and [float4].  A
    [FloatN] instance collects one set of overloads. *)

Class FloatN (T : Type) : Type := {
  norm1_ : T -> double;
  norm2_ : double -> T -> double;
  dot_ : double -> T -> T -> double;
  cdot_ : double2 -> T -> T -> double2;
  Caxpy_ : double2 -> T -> T -> T;
  (** Modelled from the spec: the componentwise operators of
      float_vector.h, which is not among the sources ([a*x], [x+y],
      [x-y] in "z = a·x + b·y"). *)
  vscale : double -> T -> T;
  vplus : T -> T -> T;
  vminus : T -> T -> T
}.

(** The [double2] and [float2] overloads (lines 180-186, 210-218,
    247-255, 324-331, 410-426). *)
#[export] Instance FloatN_double2 : FloatN double2 := {|
  norm1_ a := (fabs (double2.x a) + fabs (double2.y a))%Qc;
  norm2_ sum a :=
    let sum := (sum + double2.x a * double2.x a)%Qc in
    let sum := (sum + double2.y a * double2.y a)%Qc in
    sum;
  dot_ sum a b :=
    let sum := (sum + double2.x a * double2.x b)%Qc in
    let sum := (sum + double2.y a * double2.y b)%Qc in
    sum;
  cdot_ sum a b :=
    let sx := (double2.x sum + double2.x a * double2.x b)%Qc in
    let sx := (sx + double2.y a * double2.y b)%Qc in
    let sy := (double2.y sum + double2.x a * double2.y b)%Qc in
    let sy := (sy - double2.y a * double2.x b)%Qc in
    make_double2 sx sy;
  Caxpy_ a x y :=
    let yx := (double2.x y + double2.x a * double2.x x)%Qc in
    let yx := (yx - double2.y a * double2.y x)%Qc in
    let yy := (double2.y y + double2.y a * double2.x x)%Qc in
    let yy := (yy + double2.x a * double2.y x)%Qc in
    make_double2 yx yy;
  vscale a v := make_double2 (a * double2.x v) (a * double2.y v);
  vplus u v := make_double2 (double2.x u + double2.x v)
                            (double2.y u + double2.y v);
  vminus u v := make_double2 (double2.x u - double2.x v)
                             (double2.y u - double2.y v)
|}.

(** The [float4] overloads (lines 188-190, 220-225, 257-262, 332-337,
    428-439). *)
#[export] Instance FloatN_float4 : FloatN float4 := {|
  norm1_ a := (fabs (double4.x a) + fabs (double4.y a)
               + fabs (double4.z a) + fabs (double4.w a))%Qc;
  norm2_ sum a :=
    let sum := (sum + double4.x a * double4.x a)%Qc in
    let sum := (sum + double4.y a * double4.y a)%Qc in
    let sum := (sum + double4.z a * double4.z a)%Qc in
    let sum := (sum + double4.w a * double4.w a)%Qc in
    sum;
  dot_ sum a b :=
    let sum := (sum + double4.x a * double4.x b)%Qc in
    let sum := (sum + double4.y a * double4.y b)%Qc in
    let sum := (sum + double4.z a * double4.z b)%Qc in
    let sum := (sum + double4.w a * double4.w b)%Qc in
    sum;
  cdot_ sum a b :=
    let sx := (double2.x sum + double4.x a * double4.x b)%Qc in
    let sx := (sx + double4.y a * double4.y b)%Qc in
    let sx := (sx + double4.z a * double4.z b)%Qc in
    let sx := (sx + double4.w a * double4.w b)%Qc in
    let sy := (double2.y sum + double4.x a * double4.y b)%Qc in
    let sy := (sy - double4.y a * double4.x b)%Qc in
    let sy := (sy + double4.z a * double4.w b)%Qc in
    let sy := (sy - double4.w a * double4.z b)%Qc in
    make_double2 sx sy;
  Caxpy_ a x y :=
    let yx := (double4.x y + double2.x a * double4.x x)%Qc in
    let yx := (yx - double2.y a * double4.y x)%Qc in
    let yy := (double4.y y + double2.y a * double4.x x)%Qc in
    let yy := (yy + double2.x a * double4.y x)%Qc in
    let yz := (double4.z y + double2.x a * double4.z x)%Qc in
    let yz := (yz - double2.y a * double4.w x)%Qc in
    let yw := (double4.w y + double2.y a * double4.z x)%Qc in
    let yw := (yw + double2.x a * double4.w x)%Qc in
    make_double4 yx yy yz yw;
  vscale a v := make_double4 (a * double4.x v) (a * double4.y v)
                             (a * double4.z v) (a * double4.w v);
  vplus u v := make_double4 (double4.x u + double4.x v)
                            (double4.y u + double4.y v)
                            (double4.z u + double4.z v)
                            (double4.w u + double4.w v);
  vminus u v := make_double4 (double4.x u - double4.x v)
                             (double4.y u - double4.y v)
                             (double4.z u - double4.z v)
                             (double4.w u - double4.w v)
|}.

(** ** Fatal errors

    [errorQuda] prints its message and aborts the process.  A call that
    may abort returns an [outcome]; the [error] keeps the values the
    message prints. *)

Inductive QudaPrecision : Type :=
  | QUDA_HALF_PRECISION
  | QUDA_SINGLE_PRECISION
  | QUDA_DOUBLE_PRECISION.

#[export] Instance QudaPrecision_eq_dec : EqDecision QudaPrecision.
Proof. solve_decision. Defined.

Inductive error : Type :=
  | precisions_do_not_match (a b : QudaPrecision)
  | lengths_do_not_match (a b : Z)
  | strides_do_not_match (a b : Z)
  | failed_to_allocate (bytes : Z)
  | cuda_error_pending.

Inductive outcome (A : Type) : Type :=
  | Ok (a : A)
  | Fatal (e : error).
Arguments Ok {A} a.
Arguments Fatal {A} e.

#[export] Instance outcome_ret : MRet outcome := fun A a => Ok a.
#[export] Instance outcome_bind : MBind outcome := fun A B f m =>
  match m with
  | Ok a => f a
  | Fatal e => Fatal e
  end.

(** ** Fields and memory *)

(** Modelled from the spec: the class ColorSpinorField is not among the
    sources.  Section 3: a field is "an opaque handle to a numeric array
    with attributes"; it carries here the attributes the engine reads
    ([Precision], [Length], [Stride], [Ncolor], [Volume]) and the
    elements of the calling process.  [Length] counts elements. *)
Record ColorSpinorField (T : Type) : Type := mkField {
  Precision : QudaPrecision;
  Stride : Z;
  Ncolor : Z;
  Volume : Z;
  data : list T
}.
Arguments mkField {T} _ _ _ _ _.
Arguments Precision {T} _.
Arguments Stride {T} _.
Arguments Ncolor {T} _.
Arguments Volume {T} _.
Arguments data {T} _.

Definition Length {T} (a : ColorSpinorField T) : Z :=
  Z.of_nat (length (data a)).

Definition set_data {T} (a : ColorSpinorField T) (d : list T)
  : ColorSpinorField T :=
  mkField (Precision a) (Stride a) (Ncolor a) (Volume a) d.

(** The entry points take C++ references, and the same field is often
    bound to several operand slots.  A reference is a [handle] into the
    [store] of the process, so that aliasing is visible. *)
Definition handle : Type := nat.

Definition store (T : Type) : Type := handle -> ColorSpinorField T.

Definition upd {T} (s : store T) (h : handle) (a : ColorSpinorField T)
  : store T :=
  fun k => if decide (k = h) then a else s k.

(** Modelled from the spec: the processes of the job, of which the
    sources show nothing.  Sections 1 and 4.5: fields are "distributed
    over one or more accelerator devices and processes".  [self] is the
    memory of the calling process, [peers] that of the others; every
    process runs the same call on its own part of each field. *)
Record world (T : Type) : Type := mkWorld {
  self : store T;
  peers : list (store T)
}.
Arguments mkWorld {T} _ _.
Arguments self {T} _.
Arguments peers {T} _.

(** Modelled from the spec: [comm_size()], the "process-count query"
    of section 6. *)
Definition comm_size {T} (W : world T) : Z :=
  Z.of_nat (S (length (peers W))).

(** Lines 39-46. *)
Definition checkSpinor {T} (a b : ColorSpinorField T) : outcome unit :=
  if decide (Precision a <> Precision b)
  then Fatal (precisions_do_not_match (Precision a) (Precision b))
  else if decide (Length a <> Length b)
  then Fatal (lengths_do_not_match (Length a) (Length b))
  else if decide (Stride a <> Stride b)
  then Fatal (strides_do_not_match (Stride a) (Stride b))
  else Ok tt.

(** Lines 48-53. *)
Definition checkLength {T} (a b : ColorSpinorField T) : outcome unit :=
  if decide (Length a <> Length b)
  then Fatal (lengths_do_not_match (Length a) (Length b))
  else if decide (Stride a <> Stride b)
  then Fatal (strides_do_not_match (Stride a) (Stride b))
  else Ok tt.

(** Section 3: "Two fields are compatible only if precision, length,
    and stride all match exactly". *)
Definition compatible {T} (a b : ColorSpinorField T) : Prop :=
  Precision a = Precision b /\ Length a = Length b /\ Stride a = Stride b.

(** The four checks of a dispatch pass on the process with store [s]. *)
Definition operands_compatible {T} (x y z w v : handle) (s : store T)
  : Prop :=
  compatible (s x) (s y) /\ compatible (s x) (s z)
  /\ compatible (s x) (s w) /\ compatible (s x) (s v).

(** [P] holds on every process. *)
Definition everywhere {T} (P : store T -> Prop) (W : world T) : Prop :=
  P (self W) /\ Forall P (peers W).

(** ** Reduction functors *)

(** The five operand slots of one element. *)
Record operands (T : Type) : Type :=
  mkOps { ox : T; oy : T; oz : T; ow : T; ov : T }.
Arguments mkOps {T} _ _ _ _ _.
Arguments ox {T} _.
Arguments oy {T} _.
Arguments oz {T} _.
Arguments ow {T} _.
Arguments ov {T} _.

(** The base class (lines 162-175).  [construct] is the constructor
    [F(a, b)], [call] is [operator()]: it gets the sum and the five
    slots by reference and so returns them, with the functor, whose
    members it may change. *)
Class ReduceFunctor (R T F : Type) : Type := {
  construct : double2 -> double2 -> F;
  pre : F -> F;
  call : F -> R -> operands T -> F * R * operands T;
  post : F -> R -> R;
  streams : Z;
  flops : Z
}.
Arguments construct {R T} F {_} _ _.
Arguments streams {R T} F {_}.
Arguments flops {R T} F {_}.

(** Lines 192-199. *)
Inductive Norm1 : Type := Norm1_.

#[export] Instance Norm1_functor {T} `{FloatN T}
  : ReduceFunctor double T Norm1 := {|
  construct a b := Norm1_;
  pre f := f;
  call f sum o := (f, (sum + norm1_ (ox o))%Qc, o);
  post f sum := sum;
  streams := 1;
  flops := 2
|}.

(** Lines 228-235. *)
Inductive Norm2 : Type := Norm2_.

#[export] Instance Norm2_functor {T} `{FloatN T}
  : ReduceFunctor double T Norm2 := {|
  construct a b := Norm2_;
  pre f := f;
  call f sum o := (f, norm2_ sum (ox o), o);
  post f sum := sum;
  streams := 1;
  flops := 2
|}.

(** Lines 264-271. *)
Inductive Dot : Type := Dot_.

#[export] Instance Dot_functor {T} `{FloatN T}
  : ReduceFunctor double T Dot := {|
  construct a b := Dot_;
  pre f := f;
  call f sum o := (f, dot_ sum (ox o) (oy o), o);
  post f sum := sum;
  streams := 2;
  flops := 2
|}.

(** Lines 283-292. *)
Module axpbyzNorm2.
Record t : Type := functor { a : double2; b : double2 }.
End axpbyzNorm2.

#[export] Instance axpbyzNorm2_functor {T} `{FloatN T}
  : ReduceFunctor double T axpbyzNorm2.t := {|
  construct a b := axpbyzNorm2.functor a b;
  pre f := f;
  call f sum o :=
    let z := vplus (vscale (double2.x (axpbyzNorm2.a f)) (ox o))
                   (vscale (double2.x (axpbyzNorm2.b f)) (oy o)) in
    (f, norm2_ sum z, mkOps (ox o) (oy o) z (ow o) (ov o));
  post f sum := sum;
  streams := 3;
  flops := 4
|}.

(** Lines 441-448. *)
Inductive Cdot : Type := Cdot_.

#[export] Instance Cdot_functor {T} `{FloatN T}
  : ReduceFunctor double2 T Cdot := {|
  construct a b := Cdot_;
  pre f := f;
  call f sum o := (f, cdot_ sum (ox o) (oy o), o);
  post f sum := sum;
  streams := 2;
  flops := 4
|}.

(** Lines 593-615.  [aux] is value-initialised by the constructor. *)
Module HeavyQuarkResidualNorm_.
Record t : Type := functor { a : double2; b : double2; aux : double3 }.

Definition pre (f : t) : t :=
  functor (a f) (b f) (make_double3 0 0 (double3.z (aux f))).

Definition post (f : t) (sum : double3) : double3 :=
  make_double3
    (double3.x sum + double3.x (aux f))
    (double3.y sum + double3.y (aux f))
    (double3.z sum + (if gt0 (double3.x (aux f))
                      then double3.y (aux f) / double3.x (aux f)
                      else 1)).
End HeavyQuarkResidualNorm_.

#[export] Instance HeavyQuarkResidualNorm_functor {T} `{FloatN T}
  : ReduceFunctor double3 T HeavyQuarkResidualNorm_.t := {|
  construct a b := HeavyQuarkResidualNorm_.functor a b (make_double3 0 0 0);
  pre := HeavyQuarkResidualNorm_.pre;
  call f sum o :=
    let aux := HeavyQuarkResidualNorm_.aux f in
    let auxx := norm2_ (double3.x aux) (ox o) in
    let auxy := norm2_ (double3.y aux) (oy o) in
    (HeavyQuarkResidualNorm_.functor
       (HeavyQuarkResidualNorm_.a f) (HeavyQuarkResidualNorm_.b f)
       (make_double3 auxx auxy (double3.z aux)),
     sum, o);
  post := HeavyQuarkResidualNorm_.post;
  streams := 2;
  flops := 4
|}.

(** Lines 634-656. *)
Module xpyHeavyQuarkResidualNorm_.
Record t : Type := functor { a : double2; b : double2; aux : double3 }.

Definition pre (f : t) : t :=
  functor (a f) (b f) (make_double3 0 0 (double3.z (aux f))).

Definition post (f : t) (sum : double3) : double3 :=
  make_double3
    (double3.x sum + double3.x (aux f))
    (double3.y sum + double3.y (aux f))
    (double3.z sum + (if gt0 (double3.x (aux f))
                      then double3.y (aux f) / double3.x (aux f)
                      else 1)).
End xpyHeavyQuarkResidualNorm_.

#[export] Instance xpyHeavyQuarkResidualNorm_functor {T} `{FloatN T}
  : ReduceFunctor double3 T xpyHeavyQuarkResidualNorm_.t := {|
  construct a b :=
    xpyHeavyQuarkResidualNorm_.functor a b (make_double3 0 0 0);
  pre := xpyHeavyQuarkResidualNorm_.pre;
  call f sum o :=
    let aux := xpyHeavyQuarkResidualNorm_.aux f in
    let auxx := norm2_ (double3.x aux) (vplus (ox o) (oy o)) in
    let auxy := norm2_ (double3.y aux) (oz o) in
    (xpyHeavyQuarkResidualNorm_.functor
       (xpyHeavyQuarkResidualNorm_.a f) (xpyHeavyQuarkResidualNorm_.b f)
       (make_double3 auxx auxy (double3.z aux)),
     sum, o);
  post := xpyHeavyQuarkResidualNorm_.post;
  streams := 3;
  flops := 5
|}.

(** Lines 674-683. *)
Inductive tripleCGReduction_ : Type := tripleCGReduction_obj.

#[export] Instance tripleCGReduction_functor {T} `{FloatN T}
  : ReduceFunctor double3 T tripleCGReduction_ := {|
  construct a b := tripleCGReduction_obj;
  pre f := f;
  call f sum o :=
    (f,
     make_double3 (norm2_ (double3.x sum) (ox o))
                  (norm2_ (double3.y sum) (oy o))
                  (dot_ (double3.z sum) (oy o) (oz o)),
     o);
  post f sum := sum;
  streams := 3;
  flops := 6
|}.

(** Lines 697-706. *)
Inductive quadrupleCGReduction_ : Type := quadrupleCGReduction_obj.

#[export] Instance quadrupleCGReduction_functor {T} `{FloatN T}
  : ReduceFunctor double4 T quadrupleCGReduction_ := {|
  construct a b := quadrupleCGReduction_obj;
  pre f := f;
  call f sum o :=
    (f,
     make_double4 (norm2_ (double4.x sum) (ox o))
                  (norm2_ (double4.y sum) (oy o))
                  (dot_ (double4.z sum) (oy o) (oz o))
                  (norm2_ (double4.w sum) (ow o)),
     o);
  post f sum := sum;
  streams := 3;
  flops := 8
|}.

(** ** The generic reduction dispatcher *)

(** The launch geometry the autotuner hands back: the number of thread
    blocks and the number of threads of a block. *)
Record TuneParam : Type := mkTuneParam { grid : nat; block : nat }.

Definition valid_geometry (tp : TuneParam) : bool :=
  bool_decide (1 <= grid tp)%nat && bool_decide (1 <= block tp)%nat.

(** The five "writes this operand" template flags. *)
Record write_flags : Type := writes {
  writeX : bool; writeY : bool; writeZ : bool; writeW : bool; writeV : bool
}.

Definition no_writes : write_flags := writes false false false false false.

Fixpoint zip_operands {T} (xs ys zs ws vs : list T) : list (operands T) :=
  match xs, ys, zs, ws, vs with
  | x :: xs, y :: ys, z :: zs, w :: ws, v :: vs =>
      mkOps x y z w v :: zip_operands xs ys zs ws vs
  | _, _, _, _, _ => []
  end.

(** [n] consecutive groups of [M] elements. *)
Fixpoint sites_of {A} (M n : nat) (l : list A) : list (list A) :=
  match n with
  | O => []
  | S n => take M l :: sites_of M n (drop M l)
  end.

Section Dispatcher.
Context {R T F : Type} `{ReduceType R} `{ReduceFunctor R T F}.

(** The "M-loop" over the elements of one site. *)
Fixpoint m_loop (f : F) (sum : R) (site : list (operands T))
  : F * R * list (operands T) :=
  match site with
  | [] => (f, sum, [])
  | o :: site =>
      let '(f, sum, o') := call f sum o in
      let '(f, sum, out) := m_loop f sum site in
      (f, sum, o' :: out)
  end.

(** [pre()], the M-loop and [post(sum)] of one site: lines 165 and 172
    call [pre] "before the M-loop" and [post] "after the M-loop", and
    the heavy-quark norm of lines 583-585 is a sum over sites. *)
Definition site_body (f : F) (sum : R) (site : list (operands T))
  : F * R * list (operands T) :=
  let f := pre f in
  let '(f, sum, out) := m_loop f sum site in
  (f, post f sum, out).

(** Modelled from the spec: the kernel of reduce_core.h is not among the
    sources.  Section 4.3: "a grid-stride loop over array elements; each
    thread applies the algorithm's elementwise update and accumulates
    into a thread-local partial sum".  Thread [t] of [nthreads] takes
    the sites [t], [t + nthreads], ...; [ts] holds each thread's copy of
    the functor and its partial sum.  The threads touch disjoint sites,
    so they are run here site by site in index order. *)
Fixpoint grid_stride (nthreads i : nat) (sites : list (list (operands T)))
    (ts : list (F * R)) : list (F * R) * list (list (operands T)) :=
  match sites with
  | [] => (ts, [])
  | site :: sites =>
      match ts !! (i mod nthreads)%nat with
      | Some (f, sum) =>
          let '(f, sum, out) := site_body f sum site in
          let '(ts, outs) :=
            grid_stride nthreads (S i) sites
                        (<[(i mod nthreads)%nat := (f, sum)]> ts) in
          (ts, out :: outs)
      | None =>
          let '(ts, outs) := grid_stride nthreads (S i) sites ts in
          (ts, site :: outs)
      end
  end.

Definition sum_partials (l : list R) : R := foldr rplus rzero l.

(** Modelled from the spec: "partial sums are combined within a block
    ... and the block's partial is written to the device reduction
    buffer"; one partial per block. *)
Fixpoint block_partials (nblocks nthreads_per_block : nat) (l : list R)
  : list R :=
  match nblocks with
  | O => []
  | S n =>
      sum_partials (take nthreads_per_block l)
      :: block_partials n nthreads_per_block (drop nthreads_per_block l)
  end.

(** Modelled from the spec: the kernel launch with the tuned geometry,
    and the pass that "folds all block partials into a single buffer
    slot". *)
Definition reduceKernel (tp : TuneParam) (a b : double2)
    (sites : list (list (operands T))) : R * list (list (operands T)) :=
  let nthreads := (grid tp * block tp)%nat in
  let '(ts, outs) :=
    grid_stride nthreads 0 sites (replicate nthreads (construct F a b, rzero))
  in
  (sum_partials (block_partials (grid tp) (block tp) (ts.*2)), outs).

(** Modelled from the spec: the elements of one operand slot are
    written back to its field when its flag is set. *)
Definition store_operand (flag : bool) (h : handle) (slot : operands T -> T)
    (out : list (operands T)) (s : store T) : store T :=
  if flag
  then upd s h (set_data (s h) (map slot out ++ drop (length out) (data (s h))))
  else s.

(** Modelled from the spec: the written operands are stored in the
    order of the slots. *)
Definition store_operands (wr : write_flags) (x y z w v : handle)
    (out : list (operands T)) (s : store T) : store T :=
  let s := store_operand (writeX wr) x ox out s in
  let s := store_operand (writeY wr) y oy out s in
  let s := store_operand (writeZ wr) z oz out s in
  let s := store_operand (writeW wr) w ow out s in
  let s := store_operand (writeV wr) v ov out s in
  s.

(** Modelled from the spec: the number of elements of a site, "the
    number of FloatN fields used to represent the spinor" (lines
    586-588). *)
Definition site_size (a : ColorSpinorField T) : nat :=
  (length (data a) / Z.to_nat (Volume a))%nat.

(** Modelled from the spec: the operands of all elements, as the kernel
    loads them, element [i] of every slot together. *)
Definition load_operands (x y z w v : handle) (s : store T)
  : list (operands T) :=
  zip_operands (data (s x)) (data (s y)) (data (s z)) (data (s w))
               (data (s v)).

(** Modelled from the spec: what the kernel loops over.  Section 4.3:
    the heavy-quark kernels "must reduce over sub-site component groups
    rather than raw array elements"; with [siteUnroll] the loop is over
    the [Volume] sites, else over the elements one by one. *)
Definition kernel_sites (siteUnroll : bool) (x y z w v : handle)
    (s : store T) : list (list (operands T)) :=
  let ops := load_operands x y z w v s in
  let M := if siteUnroll then site_size (s x) else 1%nat in
  let n := if siteUnroll then Z.to_nat (Volume (s x)) else length ops in
  sites_of M n ops.

(** Modelled from the spec: reduceCuda of reduce_core.h, on one process.
    Sections 3 and 4.3: the compatibility check before dispatch, whose
    mismatch is fatal; the kernel over the elements, or over the sites
    when [siteUnroll] is set; only the operands flagged as written are
    stored. *)
Definition local_reduce (wr : write_flags) (siteUnroll : bool)
    (tp : TuneParam) (a b : double2) (x y z w v : handle) (s : store T)
  : outcome (R * store T) :=
  _ ← checkSpinor (s x) (s y);
  _ ← checkSpinor (s x) (s z);
  _ ← checkSpinor (s x) (s w);
  _ ← checkSpinor (s x) (s v);
  let '(sum, outs) :=
    reduceKernel tp a b (kernel_sites siteUnroll x y z w v s) in
  Ok (sum, store_operands wr x y z w v (concat outs) s).

(** Modelled from the spec: the other processes run the same kernel on
    their part of the fields. *)
Fixpoint peers_reduce (wr : write_flags) (siteUnroll : bool)
    (tp : TuneParam) (a b : double2) (x y z w v : handle)
    (ps : list (store T)) : outcome (list R * list (store T)) :=
  match ps with
  | [] => Ok ([], [])
  | p :: ps =>
      '(r, p) ← local_reduce wr siteUnroll tp a b x y z w v p;
      '(rs, ps) ← peers_reduce wr siteUnroll tp a b x y z w v ps;
      Ok (r :: rs, p :: ps)
  end.

(** Modelled from the spec: the sum-all-reduce of section 4.5, over the
    local results of all processes. *)
Definition comm_allreduce (locals : list R) : R := sum_partials locals.

(** Modelled from the spec: the local reductions of all processes, the
    calling one first. *)
Definition local_results (wr : write_flags) (siteUnroll : bool)
    (tp : TuneParam) (a b : double2) (x y z w v : handle) (W : world T)
  : outcome (list R * world T) :=
  '(r, s) ← local_reduce wr siteUnroll tp a b x y z w v (self W);
  '(rs, ps) ← peers_reduce wr siteUnroll tp a b x y z w v (peers W);
  Ok (r :: rs, mkWorld s ps).

(** Modelled from the spec: reduceCuda of reduce_core.h.  Section 4.5:
    the local result is summed across all processes before it is
    returned. *)
Definition reduceCuda (wr : write_flags) (siteUnroll : bool)
    (tp : TuneParam) (a b : double2) (x y z w v : handle) (W : world T)
  : outcome (R * world T) :=
  '(locals, W) ← local_results wr siteUnroll tp a b x y z w v W;
  Ok (comm_allreduce locals, W).

End Dispatcher.
Arguments reduceCuda {R T} F {_ _} wr siteUnroll tp a b x y z w v W.
Arguments local_results {R T} F {_ _} wr siteUnroll tp a b x y z w v W.
Arguments local_reduce {R T} F {_ _} wr siteUnroll tp a b x y z w v s.
Arguments peers_reduce {R T} F {_ _} wr siteUnroll tp a b x y z w v ps.
Arguments reduceKernel {R T} F {_ _} tp a b sites.

Section Collective.
Context {R T F : Type} `{ReduceType R} `{ReduceFunctor R T F}.

(** Modelled from the spec: the all-reduce is an "external
    collaborator" (section 1), a "sum-all-reduce over a fixed-shape
    scalar tuple" (section 6).  This is [reduceCuda] over any
    collective [allreduce]: the local results of all processes are
    handed to it, and what it hands back is returned.  [reduceCuda] is
    [reduceCuda_over comm_allreduce]. *)
Definition reduceCuda_over (allreduce : list R -> R) (wr : write_flags)
    (siteUnroll : bool) (tp : TuneParam) (a b : double2)
    (x y z w v : handle) (W : world T) : outcome (R * world T) :=
  '(locals, W) ← local_results F wr siteUnroll tp a b x y z w v W;
  Ok (allreduce locals, W).

End Collective.
Arguments reduceCuda_over {R T} F {_ _} allreduce wr siteUnroll tp a b
  x y z w v W.

(** ** Entry points *)

Section EntryPoints.
Context {T : Type} `{FloatN T}.

(** Lines 201-205. *)
Definition norm1 (tp : TuneParam) (x : handle) (W : world T)
  : outcome (double * world T) :=
  let y := x in
  reduceCuda Norm1 (writes false false false false false) false tp
    (make_double2 0 0) (make_double2 0 0) y y y y y W.

(** Lines 237-241. *)
Definition norm2 (tp : TuneParam) (x : handle) (W : world T)
  : outcome (double * world T) :=
  let y := x in
  reduceCuda Norm2 (writes false false false false false) false tp
    (make_double2 0 0) (make_double2 0 0) y y y y y W.

(** Lines 273-276. *)
Definition reDotProduct (tp : TuneParam) (x y : handle) (W : world T)
  : outcome (double * world T) :=
  reduceCuda Dot (writes false false false false false) false tp
    (make_double2 0 0) (make_double2 0 0) x y x x x W.

(** Lines 294-298. *)
Definition axpbyzNorm (tp : TuneParam) (a : double) (x : handle) (b : double)
    (y z : handle) (W : world T) : outcome (double * world T) :=
  reduceCuda axpbyzNorm2.t (writes false false true false false) false tp
    (make_double2 a 0) (make_double2 b 0) x y z x x W.

(** Lines 450-454. *)
Definition cDotProduct (tp : TuneParam) (x y : handle) (W : world T)
  : outcome (Complex * world T) :=
  '(cdot, W) ← reduceCuda Cdot (writes false false false false false) false
                 tp (make_double2 0 0) (make_double2 0 0) x y x x x W;
  Ok (mkComplex (double2.x cdot) (double2.y cdot), W).

(** Lines 617-624, over the collective [allreduce] of the dispatcher.
    [x.Volume()] and [comm_size()] are [int]s, and so is their
    product. *)
Definition HeavyQuarkResidualNorm_over
    (allreduce : list double3 -> double3) (tp : TuneParam) (x r : handle)
    (W : world T) : outcome (double3 * world T) :=
  if decide (Ncolor (self W x) <> 3)
  then Ok (make_double3 0 0 0, W)
  else
    '(rtn, W') ← reduceCuda_over HeavyQuarkResidualNorm_.t allreduce
                   (writes false false false false false) true tp
                   (make_double2 0 0) (make_double2 0 0) x r r r r W;
    Ok (make_double3 (double3.x rtn) (double3.y rtn)
          (double3.z rtn
           / of_int (int_mul (Volume (self W x)) (comm_size W))),
        W').

(** Lines 617-624, with the sum-all-reduce. *)
Definition HeavyQuarkResidualNorm (tp : TuneParam) (x r : handle)
    (W : world T) : outcome (double3 * world T) :=
  HeavyQuarkResidualNorm_over comm_allreduce tp x r W.

(** Lines 658-666, over the collective [allreduce] of the
    dispatcher. *)
Definition xpyHeavyQuarkResidualNorm_over
    (allreduce : list double3 -> double3) (tp : TuneParam)
    (x y r : handle) (W : world T) : outcome (double3 * world T) :=
  if decide (Ncolor (self W x) <> 3)
  then Ok (make_double3 0 0 0, W)
  else
    '(rtn, W') ← reduceCuda_over xpyHeavyQuarkResidualNorm_.t allreduce
                   (writes false false false false false) true tp
                   (make_double2 0 0) (make_double2 0 0) x y r r r W;
    Ok (make_double3 (double3.x rtn) (double3.y rtn)
          (double3.z rtn
           / of_int (int_mul (Volume (self W x)) (comm_size W))),
        W').

(** Lines 658-666, with the sum-all-reduce. *)
Definition xpyHeavyQuarkResidualNorm (tp : TuneParam) (x y r : handle)
    (W : world T) : outcome (double3 * world T) :=
  xpyHeavyQuarkResidualNorm_over comm_allreduce tp x y r W.

(** Lines 685-688. *)
Definition tripleCGReduction (tp : TuneParam) (x y z : handle) (W : world T)
  : outcome (double3 * world T) :=
  reduceCuda tripleCGReduction_ (writes false false false false false) false
    tp (make_double2 0 0) (make_double2 0 0) x y z x x W.

(** Lines 708-711. *)
Definition quadrupleCGReduction (tp : TuneParam) (x y z : handle)
    (W : world T) : outcome (double4 * world T) :=
  reduceCuda quadrupleCGReduction_ (writes false false false false false)
    false tp (make_double2 0 0) (make_double2 0 0) x y z x x W.

End EntryPoints.

(** ** The reduction buffer manager (lines 61-148) *)

Module ReduceBuffer.

(** What the build and the machine fix: [deviceProp], the 64-bit test of
    line 110, the macro MAX_MULTI_BLAS_N (not among the sources), the
    environment variable read at line 126, and the device address
    [cudaHostGetDevicePointer] gives for a mapped host buffer. *)
Record config : Type := mkConfig {
  multiProcessorCount : Z;
  canMapHostMemory : bool;
  LP64 : bool;
  MAX_MULTI_BLAS_N : Z;
  QUDA_ENABLE_FAST_REDUCE : option string;
  device_pointer : Z -> Z
}.

Inductive mem_kind : Type := device_mem | mapped_mem | pinned_mem.

Record allocation : Type := mkAlloc {
  address : Z;
  size : Z;
  kind : mem_kind;
  zero_filled : bool
}.

(** The CUDA runtime and the allocator, as far as the manager sees
    them. *)
Record runtime : Type := mkRuntime {
  allocations : list allocation;
  next_address : positive;
  device_bytes_free : Z;
  host_bytes_free : Z;
  events : list Z;
  next_event : positive;
  cuda_error : bool;
  warnings : list string
}.

(** The file-scope variables of lines 62-66. *)
Record globals : Type := mkGlobals {
  d_reduce : Z;
  h_reduce : Z;
  hd_reduce : Z;
  reduceEnd : Z;
  fast_reduce_enabled : bool
}.

Definition state : Type := globals * runtime.

(** Lines 62-66: the initial values. *)
Definition initial_globals : globals := mkGlobals 0 0 0 0 false.

(** [int] arithmetic, and the conversion of an [int] to [size_t]. *)
Definition wrap_int (n : Z) : Z := (n + 2 ^ 31) mod 2 ^ 32 - 2 ^ 31.
Definition to_size_t (n : Z) : Z := n mod 2 ^ 64.

Definition sizeof_QudaSumFloat : Z := 8.

(** Lines 94-101. *)
Definition reduce_buffer_bytes (c : config) : Z :=
  let reduce_size := wrap_int (4 * sizeof_QudaSumFloat) in
  let max_reduce_blocks := wrap_int (2 * multiProcessorCount c) in
  let max_reduce :=
    wrap_int (wrap_int (2 * max_reduce_blocks) * reduce_size) in
  let max_multi_reduce :=
    wrap_int (wrap_int (wrap_int (wrap_int (2 * MAX_MULTI_BLAS_N c)
                                  * MAX_MULTI_BLAS_N c)
                        * max_reduce_blocks)
              * reduce_size) in
  to_size_t (if bool_decide (max_reduce > max_multi_reduce)
             then max_reduce else max_multi_reduce).
Arguments reduce_buffer_bytes : simpl never.

Definition with_allocations (rt : runtime) (l : list allocation)
    (next : positive) (dev host : Z) : runtime :=
  mkRuntime l next dev host (events rt) (next_event rt) (cuda_error rt)
            (warnings rt).

Definition with_events (rt : runtime) (l : list Z) (next : positive)
  : runtime :=
  mkRuntime (allocations rt) (next_address rt) (device_bytes_free rt)
            (host_bytes_free rt) l next (cuda_error rt) (warnings rt).

(** Modelled from the spec: device_malloc of malloc.cpp is not among the
    sources.  Section 4.1: "Fails fatally if device allocation fails". *)
Definition device_malloc (bytes : Z) (rt : runtime) : outcome (Z * runtime) :=
  if bool_decide (bytes <= device_bytes_free rt)
  then Ok (Z.pos (next_address rt),
           with_allocations rt
             (mkAlloc (Z.pos (next_address rt)) bytes device_mem false
              :: allocations rt)
             (Pos.succ (next_address rt))
             (device_bytes_free rt - bytes) (host_bytes_free rt))
  else Fatal (failed_to_allocate bytes).

(** Modelled from the spec: mapped_malloc and pinned_malloc of
    malloc.cpp; section 7 counts "buffer allocation failure" among the
    fatal errors. *)
Definition host_malloc (k : mem_kind) (bytes : Z) (rt : runtime)
  : outcome (Z * runtime) :=
  if bool_decide (bytes <= host_bytes_free rt)
  then Ok (Z.pos (next_address rt),
           with_allocations rt
             (mkAlloc (Z.pos (next_address rt)) bytes k false
              :: allocations rt)
             (Pos.succ (next_address rt))
             (device_bytes_free rt) (host_bytes_free rt - bytes))
  else Fatal (failed_to_allocate bytes).

Definition mapped_malloc : Z -> runtime -> outcome (Z * runtime) :=
  host_malloc mapped_mem.
Definition pinned_malloc : Z -> runtime -> outcome (Z * runtime) :=
  host_malloc pinned_mem.

Fixpoint release (p : Z) (l : list allocation) : list allocation * Z :=
  match l with
  | [] => ([], 0)
  | a :: l =>
      if decide (address a = p) then (l, size a)
      else let '(l, n) := release p l in (a :: l, n)
  end.

(** Modelled from the spec: device_free and host_free of malloc.cpp. *)
Definition device_free (p : Z) (rt : runtime) : runtime :=
  let '(l, n) := release p (allocations rt) in
  with_allocations rt l (next_address rt)
    (device_bytes_free rt + n) (host_bytes_free rt).

Definition host_free (p : Z) (rt : runtime) : runtime :=
  let '(l, n) := release p (allocations rt) in
  with_allocations rt l (next_address rt)
    (device_bytes_free rt) (host_bytes_free rt + n).

(** [memset(p, 0, bytes)] over the whole allocation at [p]. *)
Fixpoint zero_fill (p : Z) (l : list allocation) : list allocation :=
  match l with
  | [] => []
  | a :: l =>
      if decide (address a = p)
      then mkAlloc (address a) (size a) (kind a) true :: l
      else a :: zero_fill p l
  end.

Definition memset_zero (p : Z) (rt : runtime) : runtime :=
  with_allocations rt (zero_fill p (allocations rt))
    (next_address rt) (device_bytes_free rt) (host_bytes_free rt).

Definition cudaEventCreateWithFlags (rt : runtime) : Z * runtime :=
  (Z.pos (next_event rt),
   with_events rt (Z.pos (next_event rt) :: events rt)
               (Pos.succ (next_event rt))).

Fixpoint remove_event (e : Z) (l : list Z) : list Z :=
  match l with
  | [] => []
  | e' :: l => if decide (e' = e) then l else e' :: remove_event e l
  end.

Definition cudaEventDestroy (e : Z) (rt : runtime) : runtime :=
  with_events rt (remove_event e (events rt)) (next_event rt).

Definition warningQuda (msg : string) (rt : runtime) : runtime :=
  mkRuntime (allocations rt) (next_address rt) (device_bytes_free rt)
            (host_bytes_free rt) (events rt) (next_event rt) (cuda_error rt)
            (msg :: warnings rt).

(** [checkCudaError()]: fatal when the runtime holds an error. *)
Definition checkCudaError (rt : runtime) : outcome unit :=
  if cuda_error rt then Fatal cuda_error_pending else Ok tt.

(** Lines 79-133. *)
Definition initReduce (c : config) (st : state) : outcome state :=
  let '(g, rt) := st in
  let bytes := reduce_buffer_bytes c in
  '(d, rt) ← (if decide (d_reduce g = 0)
               then device_malloc bytes rt
               else Ok (d_reduce g, rt));
  '(h, hd, rt) ← (if decide (h_reduce g = 0)
                   then
                     '(h, hd, rt) ←
                       (if LP64 c && canMapHostMemory c
                        then '(h, rt) ← mapped_malloc bytes rt;
                             Ok (h, device_pointer c h, rt)
                        else '(h, rt) ← pinned_malloc bytes rt;
                             Ok (h, d, rt));
                     Ok (h, hd, memset_zero h rt)
                   else Ok (h_reduce g, hd_reduce g, rt));
  let '(ev, rt) := cudaEventCreateWithFlags rt in
  let '(fast, rt) :=
    match QUDA_ENABLE_FAST_REDUCE c with
    | Some env =>
        if String.eqb env "1"
        then (true, warningQuda "Experimental fast reductions enabled" rt)
        else (fast_reduce_enabled g, rt)
    | None => (fast_reduce_enabled g, rt)
    end in
  _ ← checkCudaError rt;
  Ok (mkGlobals d h hd ev fast, rt).

(** Lines 135-148. *)
Definition endReduce (st : state) : state :=
  let '(g, rt) := st in
  let '(d, rt) :=
    if decide (d_reduce g = 0) then (d_reduce g, rt)
    else (0, device_free (d_reduce g) rt) in
  let '(h, rt) :=
    if decide (h_reduce g = 0) then (h_reduce g, rt)
    else (0, host_free (h_reduce g) rt) in
  (mkGlobals d h 0 (reduceEnd g) (fast_reduce_enabled g),
   cudaEventDestroy (reduceEnd g) rt).

(** Lines 73-77. *)
Definition getDeviceReduceBuffer (st : state) : Z := d_reduce (fst st).
Definition getMappedHostReduceBuffer (st : state) : Z := hd_reduce (fst st).
Definition getHostReduceBuffer (st : state) : Z := h_reduce (fst st).
Definition getReduceEvent (st : state) : Z := reduceEnd (fst st).
Definition getFastReduce (st : state) : bool := fast_reduce_enabled (fst st).

(** The buffer is live when both handles are set. *)
Definition live (st : state) : bool :=
  negb (bool_decide (d_reduce (fst st) = 0))
  && negb (bool_decide (h_reduce (fst st) = 0)).

Definition is_fatal {A} (o : outcome A) : bool :=
  match o with
  | Ok _ => false
  | Fatal _ => true
  end.

End ReduceBuffer.

(** ** Specification vocabulary

    The quantities the statements below are written in. *)

(** The sums are taken in exact arithmetic: a commutative monoid. *)
Class ReduceLaws (R : Type) `{ReduceType R} : Prop := {
  rplus_assoc : forall a b c : R, rplus a (rplus b c) = rplus (rplus a b) c;
  rplus_comm : forall a b : R, rplus a b = rplus b a;
  rplus_zero_l : forall a : R, rplus rzero a = a
}.

(** The conjugate of a complex sum held in a [double2]. *)
Definition conj2 (s : double2) : double2 :=
  make_double2 (double2.x s) (- double2.y s)%Qc.

(** What the statements need of an element type: the helpers add to the
    sum they are given, [norm2_] is [dot_] on the diagonal, and [cdot_]
    with its arguments exchanged gives the conjugate. *)
Class FloatNLaws (T : Type) `{FloatN T} : Prop := {
  norm2_plus : forall (s : double) (a : T),
    norm2_ s a = (s + norm2_ 0 a)%Qc;
  dot_plus : forall (s : double) (a b : T),
    dot_ s a b = (s + dot_ 0 a b)%Qc;
  cdot_plus : forall (s : double2) (a b : T),
    cdot_ s a b = rplus s (cdot_ rzero a b);
  norm2_dot : forall (s : double) (a : T), norm2_ s a = dot_ s a a;
  cdot_swap : forall a b : T, cdot_ rzero b a = conj2 (cdot_ rzero a b)
}.

(** All processes, the calling one first. *)
Definition processes {T} (W : world T) : list (store T) :=
  self W :: peers W.

Section Specification.
Context {R T F : Type} `{ReduceType R} `{!ReduceFunctor R T F}.

(** A functor is additive on sites when the body of a site adds a
    contribution [c site] to the sum and leaves the outputs [u site],
    whatever the state [I] of the thread's copy of the functor. *)
Definition site_additive (I : F -> Prop) (c : list (operands T) -> R)
    (u : list (operands T) -> list (operands T)) : Prop :=
  forall f sum site, I f ->
    exists f', site_body f sum site = (f', rplus sum (c site), u site) /\ I f'.

(** A functor without state, additive element by element. *)
Definition element_additive (f0 : F) (c : operands T -> R)
    (u : operands T -> operands T) : Prop :=
  pre f0 = f0 /\ (forall s, post f0 s = s)
  /\ forall s o, call f0 s o = (f0, rplus s (c o), u o).

(** What one process adds to the sum. *)
Definition local_sum (c : operands T -> R) (x y z w v : handle)
    (s : store T) : R :=
  sum_partials (map c (load_operands x y z w v s)).

(** The store of one process after the call. *)
Definition local_store (wr : write_flags) (u : operands T -> operands T)
    (x y z w v : handle) (s : store T) : store T :=
  store_operands wr x y z w v (map u (load_operands x y z w v s)) s.

(** A quantity of one process, summed over all processes. *)
Definition global (q : store T -> R) (W : world T) : R :=
  comm_allreduce (map q (processes W)).

Definition world_store (wr : write_flags) (u : operands T -> operands T)
    (x y z w v : handle) (W : world T) : world T :=
  mkWorld (local_store wr u x y z w v (self W))
          (map (local_store wr u x y z w v) (peers W)).

(** [operator()] assigns to none of its five operands. *)
Definition operand_preserving : Prop :=
  forall (f : F) (sum : R) (o : operands T), (call f sum o).2 = o.

End Specification.
Arguments operand_preserving {R T} F {_}.

(** Every field of every process is as it was. *)
Definition unchanged {T} (W W' : world T) : Prop :=
  Forall2 (fun s s' : store T => forall k, s' k = s k)
          (processes W) (processes W').

Section FieldReductions.
Context {T : Type} `{FloatN T}.

(** The reductions of the catalogue on the elements of one process:
    the sum of |x|, of x·x, of Re(x·y) and of conj(x)·y. *)
Definition field_norm1 (a : ColorSpinorField T) : double :=
  sum_partials (map norm1_ (data a)).
Definition field_norm2 (a : ColorSpinorField T) : double :=
  sum_partials (map (norm2_ 0) (data a)).
Definition field_dot (a b : ColorSpinorField T) : double :=
  sum_partials (zip_with (dot_ 0) (data a) (data b)).
Definition field_cdot (a b : ColorSpinorField T) : double2 :=
  sum_partials (zip_with (cdot_ rzero) (data a) (data b)).



(** What one site adds to the heavy-quark sum: the norms of the
    solution and of the residual on the site, and their ratio. *)
Definition hq_site (sol res : operands T -> T) (site : list (operands T))
  : double3 :=
  let nx := sum_partials (map (fun o => norm2_ 0 (sol o)) site) in
  let ny := sum_partials (map (fun o => norm2_ 0 (res o)) site) in
  make_double3 nx ny (if gt0 nx then ny / nx else 1)%Qc.

(** The heavy-quark sum of one process, over its sites. *)
Definition hq_local (sol res : operands T -> T) (x y z w v : handle)
    (s : store T) : double3 :=
  sum_partials (map (hq_site sol res) (kernel_sites true x y z w v s)).

End FieldReductions.

(** ** Concrete inputs *)

Module Examples.

Definition c2 (a b : Z) : double2 := make_double2 (Qc_of_Z a) (Qc_of_Z b).

Definition field (ncolor volume : Z) (d : list double2)
  : ColorSpinorField double2 :=
  mkField QUDA_DOUBLE_PRECISION 0 ncolor volume d.

(** Handles 0, 1, 2: three-colour fields of one site of two elements;
    every other handle: a coarse field of 24 colours and one element. *)
Definition rank0 : store double2 := fun h =>
  match h with
  | 0%nat => field 3 1 [c2 1 2; c2 3 4]
  | 1%nat => field 3 1 [c2 3 4; c2 0 1]
  | 2%nat => field 3 1 [c2 0 0; c2 5 (-1)]
  | _ => field 24 1 [c2 3 0]
  end.

Definition rank1 : store double2 := fun h =>
  match h with
  | 0%nat => field 3 1 [c2 2 (-2); c2 0 7]
  | 1%nat => field 3 1 [c2 1 1; c2 (-3) 2]
  | 2%nat => field 3 1 [c2 4 0; c2 0 0]
  | _ => field 24 1 [c2 1 1]
  end.

(** A job of two processes. *)
Definition two : world double2 := mkWorld rank0 [rank1].

Definition tp22 : TuneParam := mkTuneParam 2 2.
Definition tp13 : TuneParam := mkTuneParam 1 3.

(** What a call returns, when it returns. *)
Definition returned {A B} (o : outcome (A * B)) : option A :=
  match o with
  | Ok (a, _) => Some a
  | Fatal _ => None
  end.

(** A device of two multiprocessors with mapped host memory, and a
    fresh process. *)
Definition device : ReduceBuffer.config :=
  ReduceBuffer.mkConfig 2 true true 4 None (fun p => p + 1000).

Definition fresh : ReduceBuffer.state :=
  (ReduceBuffer.initial_globals,
   ReduceBuffer.mkRuntime [] 1 (2 ^ 20) (2 ^ 20) [] 1 false []).

(** The buffer of [device] after one [initReduce]. *)
Definition live_state : ReduceBuffer.state :=
  (ReduceBuffer.mkGlobals 1 2 1002 1 false,
   ReduceBuffer.mkRuntime
     [ReduceBuffer.mkAlloc 2 4096 ReduceBuffer.mapped_mem true;
      ReduceBuffer.mkAlloc 1 4096 ReduceBuffer.device_mem false]
     3 (2 ^ 20 - 4096) (2 ^ 20 - 4096) [1] 2 false []).

End Examples.

(** ** The other functors of the catalogue *)

(** The value [FloatN{}] of a value-initialised element. *)
Class FloatNZero (T : Type) : Type := { vzero : T }.

#[export] Instance double2_zero : FloatNZero double2 :=
  {| vzero := make_double2 0 0 |}.
#[export] Instance float4_zero : FloatNZero float4 :=
  {| vzero := make_double4 0 0 0 0 |}.

(** Modelled from the spec: the unary minus of float_vector.h on a
    coefficient ([-a] in "x -= a·z"), componentwise. *)
Definition neg2 (a : double2) : double2 :=
  make_double2 (- double2.x a)%Qc (- double2.y a)%Qc.

(** Lines 305-313. *)
Module AxpyReDot.
Record t : Type := functor { a : double2 }.
End AxpyReDot.

#[export] Instance AxpyReDot_functor {T} `{FloatN T}
  : ReduceFunctor double T AxpyReDot.t := {|
  construct a b := AxpyReDot.functor a;
  pre f := f;
  call f sum o :=
    let y := vplus (oy o) (vscale (double2.x (AxpyReDot.a f)) (ox o)) in
    (f, dot_ sum (ox o) y, mkOps (ox o) y (oz o) (ow o) (ov o));
  post f sum := sum;
  streams := 3;
  flops := 4
|}.

(** Lines 343-351. *)
Module caxpyNorm2.
Record t : Type := functor { a : double2 }.
End caxpyNorm2.

#[export] Instance caxpyNorm2_functor {T} `{FloatN T}
  : ReduceFunctor double T caxpyNorm2.t := {|
  construct a b := caxpyNorm2.functor a;
  pre f := f;
  call f sum o :=
    let y := Caxpy_ (caxpyNorm2.a f) (ox o) (oy o) in
    (f, norm2_ sum y, mkOps (ox o) y (oz o) (ow o) (ov o));
  post f sum := sum;
  streams := 3;
  flops := 6
|}.

(** Lines 365-373. *)
Module caxpyxmaznormx.
Record t : Type := functor { a : double2 }.
End caxpyxmaznormx.

#[export] Instance caxpyxmaznormx_functor {T} `{FloatN T}
  : ReduceFunctor double T caxpyxmaznormx.t := {|
  construct a b := caxpyxmaznormx.functor a;
  pre f := f;
  call f sum o :=
    let y := Caxpy_ (caxpyxmaznormx.a f) (ox o) (oy o) in
    let x := Caxpy_ (neg2 (caxpyxmaznormx.a f)) (oz o) (ox o) in
    (f, norm2_ sum x, mkOps x y (oz o) (ow o) (ov o));
  post f sum := sum;
  streams := 5;
  flops := 10
|}.

(** Lines 388-397. *)
Module cabxpyzaxnorm.
Record t : Type := functor { a : double2; b : double2 }.
End cabxpyzaxnorm.

#[export] Instance cabxpyzaxnorm_functor {T} `{FloatN T}
  : ReduceFunctor double T cabxpyzaxnorm.t := {|
  construct a b := cabxpyzaxnorm.functor a b;
  pre f := f;
  call f sum o :=
    let x := vscale (double2.x (cabxpyzaxnorm.a f)) (ox o) in
    let y := Caxpy_ (cabxpyzaxnorm.b f) x (oy o) in
    let z := y in
    (f, norm2_ sum z, mkOps x y z (ow o) (ov o));
  post f sum := sum;
  streams := 4;
  flops := 10
|}.

(** Lines 462-470. *)
Module caxpydotzy.
Record t : Type := functor { a : double2 }.
End caxpydotzy.

#[export] Instance caxpydotzy_functor {T} `{FloatN T}
  : ReduceFunctor double2 T caxpydotzy.t := {|
  construct a b := caxpydotzy.functor a;
  pre f := f;
  call f sum o :=
    let y := Caxpy_ (caxpydotzy.a f) (ox o) (oy o) in
    (f, cdot_ sum (oz o) y, mkOps (ox o) y (oz o) (ow o) (ov o));
  post f sum := sum;
  streams := 4;
  flops := 8
|}.

(** Lines 483-489: [cdot_] on the components [x] and [y] of the sum, and
    [norm2_] of the first argument on its component [z]. *)
Definition cdotNormA_ {T} `{FloatN T} (sum : double3) (a b : T) : double3 :=
  let c := cdot_ (make_double2 (double3.x sum) (double3.y sum)) a b in
  make_double3 (double2.x c) (double2.y c) (norm2_ (double3.z sum) a).

(** Lines 495-501: the same with [norm2_] of the second argument. *)
Definition cdotNormB_ {T} `{FloatN T} (sum : double3) (a b : T) : double3 :=
  let c := cdot_ (make_double2 (double3.x sum) (double3.y sum)) a b in
  make_double3 (double2.x c) (double2.y c) (norm2_ (double3.z sum) b).

(** Lines 503-510. *)
Inductive CdotNormA : Type := CdotNormA_.

#[export] Instance CdotNormA_functor {T} `{FloatN T}
  : ReduceFunctor double3 T CdotNormA := {|
  construct a b := CdotNormA_;
  pre f := f;
  call f sum o := (f, cdotNormA_ sum (ox o) (oy o), o);
  post f sum := sum;
  streams := 2;
  flops := 6
|}.

(** Lines 522-531. *)
Module caxpbypzYmbwcDotProductUYNormY_.
Record t : Type := functor { a : double2; b : double2 }.
End caxpbypzYmbwcDotProductUYNormY_.

#[export] Instance caxpbypzYmbwcDotProductUYNormY_functor {T} `{FloatN T}
  : ReduceFunctor double3 T caxpbypzYmbwcDotProductUYNormY_.t := {|
  construct a b := caxpbypzYmbwcDotProductUYNormY_.functor a b;
  pre f := f;
  call f sum o :=
    let z := Caxpy_ (caxpbypzYmbwcDotProductUYNormY_.a f) (ox o) (oz o) in
    let z := Caxpy_ (caxpbypzYmbwcDotProductUYNormY_.b f) (oy o) z in
    let y :=
      Caxpy_ (neg2 (caxpbypzYmbwcDotProductUYNormY_.b f)) (ow o) (oy o) in
    (f, cdotNormB_ sum (ov o) y, mkOps (ox o) y z (ow o) (ov o));
  post f sum := sum;
  streams := 7;
  flops := 18
|}.

(** Lines 553-566. *)
Module axpyCGNorm2.
Record t : Type := functor { a : double2 }.
End axpyCGNorm2.

#[export] Instance axpyCGNorm2_functor {T} `{FloatN T}
  : ReduceFunctor double2 T axpyCGNorm2.t := {|
  construct a b := axpyCGNorm2.functor a;
  pre f := f;
  call f sum o :=
    let z_new := vplus (oz o) (vscale (double2.x (axpyCGNorm2.a f)) (ox o)) in
    (f,
     make_double2 (norm2_ (double2.x sum) z_new)
                  (dot_ (double2.y sum) z_new (vminus z_new (oz o))),
     mkOps (ox o) (oy o) z_new (ow o) (ov o));
  post f sum := sum;
  streams := 3;
  flops := 6
|}.

(** Lines 721-734. *)
Module quadrupleCG3InitNorm_.
Record t : Type := functor { a : double2 }.
End quadrupleCG3InitNorm_.

#[export] Instance quadrupleCG3InitNorm_functor {T} `{FloatN T}
  : ReduceFunctor double T quadrupleCG3InitNorm_.t := {|
  construct a b := quadrupleCG3InitNorm_.functor a;
  pre f := f;
  call f sum o :=
    let a := double2.x (quadrupleCG3InitNorm_.a f) in
    let z := ox o in
    let w := oy o in
    let x := vplus (ox o) (vscale a (oy o)) in
    let y := vminus (oy o) (vscale a (ov o)) in
    (f, norm2_ sum y, mkOps x y z w (ov o));
  post f sum := sum;
  streams := 6;
  flops := 6
|}.

(** Lines 752-768.  [tmpx] and [tmpy] are members of the functor. *)
Module quadrupleCG3UpdateNorm_.
Record t (T : Type) : Type :=
  functor { a : double2; b : double2; tmpx : T; tmpy : T }.
Arguments functor {T} _ _ _ _.
Arguments a {T} _.
Arguments b {T} _.
Arguments tmpx {T} _.
Arguments tmpy {T} _.
End quadrupleCG3UpdateNorm_.

#[export] Instance quadrupleCG3UpdateNorm_functor {T} `{FloatN T}
    `{FloatNZero T}
  : ReduceFunctor double T (quadrupleCG3UpdateNorm_.t T) := {|
  construct a b := quadrupleCG3UpdateNorm_.functor a b vzero vzero;
  pre f := f;
  call f sum o :=
    let a := quadrupleCG3UpdateNorm_.a f in
    let b := quadrupleCG3UpdateNorm_.b f in
    let tmpx := ox o in
    let tmpy := oy o in
    let x := vplus (vscale (double2.x b)
                      (vplus (ox o) (vscale (double2.x a) (oy o))))
                   (vscale (double2.y b) (oz o)) in
    let y := vplus (vscale (double2.x b)
                      (vminus (oy o) (vscale (double2.x a) (ov o))))
                   (vscale (double2.y b) (ow o)) in
    let z := tmpx in
    let w := tmpy in
    (quadrupleCG3UpdateNorm_.functor a b tmpx tmpy,
     norm2_ sum y, mkOps x y z w (ov o));
  post f sum := sum;
  streams := 7;
  flops := 16
|}.

(** Lines 781-792. *)
Module doubleCG3InitNorm_.
Record t : Type := functor { a : double2 }.
End doubleCG3InitNorm_.

#[export] Instance doubleCG3InitNorm_functor {T} `{FloatN T}
  : ReduceFunctor double T doubleCG3InitNorm_.t := {|
  construct a b := doubleCG3InitNorm_.functor a;
  pre f := f;
  call f sum o :=
    let y := ox o in
    let x := vminus (ox o)
               (vscale (double2.x (doubleCG3InitNorm_.a f)) (oz o)) in
    (f, norm2_ sum x, mkOps x y (oz o) (ow o) (ov o));
  post f sum := sum;
  streams := 3;
  flops := 5
|}.

(** Lines 806-819.  [tmp] is a member of the functor. *)
Module doubleCG3UpdateNorm_.
Record t (T : Type) : Type := functor { a : double2; b : double2; tmp : T }.
Arguments functor {T} _ _ _.
Arguments a {T} _.
Arguments b {T} _.
Arguments tmp {T} _.
End doubleCG3UpdateNorm_.

#[export] Instance doubleCG3UpdateNorm_functor {T} `{FloatN T}
    `{FloatNZero T}
  : ReduceFunctor double T (doubleCG3UpdateNorm_.t T) := {|
  construct a b := doubleCG3UpdateNorm_.functor a b vzero;
  pre f := f;
  call f sum o :=
    let a := doubleCG3UpdateNorm_.a f in
    let b := doubleCG3UpdateNorm_.b f in
    let tmp := ox o in
    let x := vplus (vscale (double2.x b)
                      (vminus (ox o) (vscale (double2.x a) (oz o))))
                   (vscale (double2.y b) (oy o)) in
    let y := tmp in
    (doubleCG3UpdateNorm_.functor a b tmp,
     norm2_ sum x, mkOps x y (oz o) (ow o) (ov o));
  post f sum := sum;
  streams := 4;
  flops := 9
|}.

(** ** The mixed-precision dispatcher *)

Module mixed.
Section Dispatcher.
Context {R T F : Type} `{ReduceType R} `{ReduceFunctor R T F}.

(** Modelled from the spec: reduce::mixed::reduceCuda of
    reduce_mixed_core.h is not among the sources.  Section 4.3: it
    "follows an identical contract but reads/writes through
    precision-converting accessors"; the operand of the other precision
    is [z] (line 569), which can only pass the check without the
    precision, [checkLength]. *)
Definition local_reduce (wr : write_flags) (siteUnroll : bool)
    (tp : TuneParam) (a b : double2) (x y z w v : handle) (s : store T)
  : outcome (R * store T) :=
  _ ← checkSpinor (s x) (s y);
  _ ← checkLength (s x) (s z);
  _ ← checkSpinor (s x) (s w);
  _ ← checkSpinor (s x) (s v);
  let '(sum, outs) :=
    reduceKernel F tp a b (kernel_sites siteUnroll x y z w v s) in
  Ok (sum, store_operands wr x y z w v (concat outs) s).

(** Modelled from the spec: the other processes run the same kernel. *)
Fixpoint peers_reduce (wr : write_flags) (siteUnroll : bool)
    (tp : TuneParam) (a b : double2) (x y z w v : handle)
    (ps : list (store T)) : outcome (list R * list (store T)) :=
  match ps with
  | [] => Ok ([], [])
  | p :: ps =>
      '(r, p) ← local_reduce wr siteUnroll tp a b x y z w v p;
      '(rs, ps) ← peers_reduce wr siteUnroll tp a b x y z w v ps;
      Ok (r :: rs, p :: ps)
  end.

(** Modelled from the spec: the local results are summed across all
    processes, as in the plain dispatcher. *)
Definition reduceCuda (wr : write_flags) (siteUnroll : bool)
    (tp : TuneParam) (a b : double2) (x y z w v : handle) (W : world T)
  : outcome (R * world T) :=
  '(r, s) ← local_reduce wr siteUnroll tp a b x y z w v (self W);
  '(rs, ps) ← peers_reduce wr siteUnroll tp a b x y z w v (peers W);
  Ok (comm_allreduce (r :: rs), mkWorld s ps).

End Dispatcher.
Arguments reduceCuda {R T} F {_ _} wr siteUnroll tp a b x y z w v W.
Arguments local_reduce {R T} F {_ _} wr siteUnroll tp a b x y z w v s.
Arguments peers_reduce {R T} F {_ _} wr siteUnroll tp a b x y z w v ps.
End mixed.

(** ** The other entry points *)

Section MoreEntryPoints.
Context {T : Type} `{FloatN T} `{FloatNZero T}.

(** Lines 315-318. *)
Definition axpyReDot (tp : TuneParam) (a : double) (x y : handle)
    (W : world T) : outcome (double * world T) :=
  reduceCuda AxpyReDot.t (writes false true false false false) false tp
    (make_double2 a 0) (make_double2 0 0) x y x x x W.

(** Lines 353-356. *)
Definition caxpyNorm (tp : TuneParam) (a : Complex) (x y : handle)
    (W : world T) : outcome (double * world T) :=
  reduceCuda caxpyNorm2.t (writes false true false false false) false tp
    (make_double2 (REAL a) (IMAG a)) (make_double2 0 0) x y x x x W.

(** Lines 375-379. *)
Definition caxpyXmazNormX (tp : TuneParam) (a : Complex) (x y z : handle)
    (W : world T) : outcome (double * world T) :=
  reduceCuda caxpyxmaznormx.t (writes true true false false false) false tp
    (make_double2 (REAL a) (IMAG a)) (make_double2 0 0) x y z x x W.

(** Lines 400-404. *)
Definition cabxpyzAxNorm (tp : TuneParam) (a : double) (b : Complex)
    (x y z : handle) (W : world T) : outcome (double * world T) :=
  reduceCuda cabxpyzaxnorm.t (writes true false true false false) false tp
    (make_double2 a 0) (make_double2 (REAL b) (IMAG b)) x y z x x W.

(** Lines 472-476. *)
Definition caxpyDotzy (tp : TuneParam) (a : Complex) (x y z : handle)
    (W : world T) : outcome (Complex * world T) :=
  '(cdot, W) ← reduceCuda caxpydotzy.t
                 (writes false true false false false) false tp
                 (make_double2 (REAL a) (IMAG a)) (make_double2 0 0)
                 x y z x x W;
  Ok (mkComplex (double2.x cdot) (double2.y cdot), W).

(** Lines 512-515. *)
Definition cDotProductNormA (tp : TuneParam) (x y : handle) (W : world T)
  : outcome (double3 * world T) :=
  reduceCuda CdotNormA (writes false false false false false) false tp
    (make_double2 0 0) (make_double2 0 0) x y x x x W.

(** Lines 533-544. *)
Definition caxpbypzYmbwcDotProductUYNormY (tp : TuneParam) (a : Complex)
    (x : handle) (b : Complex) (y z w u : handle) (W : world T)
  : outcome (double3 * world T) :=
  if decide (Precision (self W x) <> Precision (self W z))
  then mixed.reduceCuda caxpbypzYmbwcDotProductUYNormY_.t
         (writes false true true false false) false tp
         (make_double2 (REAL a) (IMAG a)) (make_double2 (REAL b) (IMAG b))
         x y z w u W
  else reduceCuda caxpbypzYmbwcDotProductUYNormY_.t
         (writes false true true false false) false tp
         (make_double2 (REAL a) (IMAG a)) (make_double2 (REAL b) (IMAG b))
         x y z w u W.

(** Lines 568-579. *)
Definition axpyCGNorm (tp : TuneParam) (a : double) (x y : handle)
    (W : world T) : outcome (Complex * world T) :=
  '(cg_norm, W) ←
    (if decide (Precision (self W x) <> Precision (self W y))
     then mixed.reduceCuda axpyCGNorm2.t
            (writes false false true false false) false tp
            (make_double2 a 0) (make_double2 0 0) x x y x x W
     else reduceCuda axpyCGNorm2.t
            (writes false false true false false) false tp
            (make_double2 a 0) (make_double2 0 0) x x y x x W);
  Ok (mkComplex (double2.x cg_norm) (double2.y cg_norm), W).

(** Lines 736-739. *)
Definition quadrupleCG3InitNorm (tp : TuneParam) (a : double)
    (x y z w v : handle) (W : world T) : outcome (double * world T) :=
  reduceCuda quadrupleCG3InitNorm_.t (writes true true true true false)
    false tp (make_double2 a 0) (make_double2 0 0) x y z w v W.

(** Lines 770-773. *)
Definition quadrupleCG3UpdateNorm (tp : TuneParam) (a b : double)
    (x y z w v : handle) (W : world T) : outcome (double * world T) :=
  reduceCuda (quadrupleCG3UpdateNorm_.t T)
    (writes true true true true false) false tp
    (make_double2 a 0) (make_double2 b (1 - b)) x y z w v W.

(** Lines 794-797. *)
Definition doubleCG3InitNorm (tp : TuneParam) (a : double) (x y z : handle)
    (W : world T) : outcome (double * world T) :=
  reduceCuda doubleCG3InitNorm_.t (writes true true false false false)
    false tp (make_double2 a 0) (make_double2 0 0) x y z z z W.

(** Lines 821-824. *)
Definition doubleCG3UpdateNorm (tp : TuneParam) (a b : double)
    (x y z : handle) (W : world T) : outcome (double * world T) :=
  reduceCuda (doubleCG3UpdateNorm_.t T)
    (writes true true false false false) false tp
    (make_double2 a 0) (make_double2 b (1 - b)) x y z z z W.

End MoreEntryPoints.

(** ** Vocabulary of the fused updates *)

(** The field [a] after the elements [out] of one operand slot have been
    stored into it; elements beyond [out] stay. *)
Definition stored {T} (slot : operands T -> T) (out : list (operands T))
    (a : ColorSpinorField T) : ColorSpinorField T :=
  set_data a (map slot out ++ drop (length out) (data a)).

Fixpoint zip_with3 {A B C D} (f : A -> B -> C -> D)
    (l : list A) (k : list B) (m : list C) : list D :=
  match l, k, m with
  | a :: l, b :: k, c :: m => f a b c :: zip_with3 f l k m
  | _, _, _ => []
  end.

(** The attributes of a field other than its elements. *)
Definition same_shape {T} (a b : ColorSpinorField T) : Prop :=
  Precision b = Precision a /\ Stride b = Stride a
  /\ Ncolor b = Ncolor a /\ Volume b = Volume a /\ Length b = Length a.

(** What the statements on the fused updates need of an element type,
    in exact arithmetic: [vscale], [vplus] and [vminus] are those of a
    vector space, [dot_] is symmetric and is the real part of [cdot_],
    [Caxpy_] with a real coefficient is the real update, and
    [Caxpy_(-a)] takes back [Caxpy_(a)]; squared norms are sums of
    squares. *)
Class FloatNAlgebra (T : Type) `{FloatN T} `{FloatNZero T} : Prop := {
  vscale_one : forall u : T, vscale 1 u = u;
  vplus_vscale_zero : forall u v : T, vplus u (vscale 0 v) = u;
  vminus_vplus : forall u d : T, vminus (vplus u d) u = d;
  dot_comm : forall a b : T, dot_ 0 a b = dot_ 0 b a;
  dot_vscale : forall (c : double) (a b : T),
    dot_ 0 a (vscale c b) = (c * dot_ 0 a b)%Qc;
  cdot_real : forall a b : T, double2.x (cdot_ rzero a b) = dot_ 0 a b;
  cdot_diag_imag : forall a : T, double2.y (cdot_ rzero a a) = 0%Qc;
  Caxpy_real : forall (c : double) (x y : T),
    Caxpy_ (make_double2 c 0) x y = vplus y (vscale c x);
  Caxpy_neg : forall (a : double2) (x y : T),
    Caxpy_ (neg2 a) x (Caxpy_ a x y) = y;
  norm1_nonneg : forall a : T, (0 <= norm1_ a)%Qc;
  norm2_nonneg : forall a : T, (0 <= norm2_ 0 a)%Qc;
  norm2_zero : forall a : T, norm2_ 0 a = 0%Qc -> a = vzero
}.

Section StatefulFunctors.
Context {R T F : Type} `{ReduceType R} `{!ReduceFunctor R T F}.

(** A functor whose [operator()] may assign to its own members, but
    adds [c o] to the sum and leaves the operands [u o] as long as the
    members [I] speaks of are as constructed. *)
Definition element_additive_on (I : F -> Prop) (c : operands T -> R)
    (u : operands T -> operands T) : Prop :=
  (forall f, I f -> I (pre f)) /\ (forall f s, I f -> post f s = s)
  /\ forall f s o, I f ->
       exists f', call f s o = (f', rplus s (c o), u o) /\ I f'.

End StatefulFunctors.

(** The elements of a field are those of its [Volume] sites: the site
    size times the number of sites is the number of elements. *)
Definition whole_sites {T} (a : ColorSpinorField T) : Prop :=
  (site_size a * Z.to_nat (Volume a))%nat = length (data a).

(** The test of line 127: the variable is set and is the string 1. *)
Definition fast_reduce_requested (c : ReduceBuffer.config) : bool :=
  match ReduceBuffer.QUDA_ENABLE_FAST_REDUCE c with
  | Some env => String.eqb env "1"
  | None => false
  end.

(** ** More concrete inputs *)

Module Inputs.

(** Every handle holds a three-colour field of one site of two
    elements, so that any five fields can be combined. *)
Definition rank0 : store double2 := fun h =>
  Examples.field 3 1 [Examples.c2 (Z.of_nat h) 1; Examples.c2 2 (Z.of_nat h)].

Definition rank1 : store double2 := fun h =>
  Examples.field 3 1
    [Examples.c2 1 (- Z.of_nat h); Examples.c2 (Z.of_nat h + 1) 3].

(** A job of two processes. *)
Definition job : world double2 := mkWorld rank0 [rank1].

(** The same with the sum of the fields 0 and 1 in the field 2. *)
Definition with_sum (s : store double2) : store double2 :=
  upd s 2%nat
      (set_data (s 2%nat)
                (zip_with vplus (data (s 0%nat)) (data (s 1%nat)))).

Definition summed : world double2 :=
  mkWorld (with_sum rank0) [with_sum rank1].

(** A device without mapped host memory, in a process started with
    QUDA_ENABLE_FAST_REDUCE=1. *)
Definition fast_device : ReduceBuffer.config :=
  ReduceBuffer.mkConfig 2 false true 4 (Some "1"%string) (fun p => p).

End Inputs.

(** * Properties *)

(** ** Arithmetic of the reduction types *)


#[export] Instance double_laws : ReduceLaws double.
Proof. split; intros; simpl; ring. Qed.

#[export] Instance double2_laws : ReduceLaws double2.
Proof.
  split; intros; try destruct a; simpl; f_equal; ring.
Qed.

#[export] Instance double3_laws : ReduceLaws double3.
Proof.
  split; intros; try destruct a; simpl; f_equal; ring.
Qed.

#[export] Instance double4_laws : ReduceLaws double4.
Proof.
  split; intros; try destruct a; simpl; f_equal; ring.
Qed.


#[export] Instance double2_FloatNLaws : FloatNLaws double2.
Proof.
  split; intros; simpl.
  - ring.
  - ring.
  - f_equal; ring.
  - ring.
  - unfold conj2; simpl; f_equal; ring.
Qed.

#[export] Instance float4_FloatNLaws : FloatNLaws float4.
Proof.
  split; intros; simpl.
  - ring.
  - ring.
  - f_equal; ring.
  - ring.
  - unfold conj2; simpl; f_equal; ring.
Qed.

(** ** Sums of partial results *)

Section Sums.
Context {R : Type} `{ReduceLaws R}.

Lemma rplus_zero_r (a : R) : rplus a rzero = a.
Proof. rewrite rplus_comm. apply rplus_zero_l. Qed.

Lemma sum_partials_app (l k : list R) :
  sum_partials (l ++ k) = rplus (sum_partials l) (sum_partials k).
Proof.
  induction l as [|a l IH]; simpl.
  - symmetry. apply rplus_zero_l.
  - fold (sum_partials (l ++ k)). rewrite IH. apply rplus_assoc.
Qed.

Lemma sum_partials_replicate_zero (n : nat) :
  sum_partials (replicate n (rzero : R)) = rzero.
Proof.
  induction n as [|n IH]; simpl; [done|].
  fold (sum_partials (replicate n (rzero : R))).
  rewrite IH. apply rplus_zero_l.
Qed.

Lemma sum_partials_insert (l : list R) (i : nat) (a c : R) :
  l !! i = Some a ->
  sum_partials (<[i := rplus a c]> l) = rplus (sum_partials l) c.
Proof.
  revert i. induction l as [|b l IH]; intros [|i] Hi; simplify_eq/=.
  - fold (sum_partials l).
    rewrite <- !rplus_assoc. f_equal. apply rplus_comm.
  - fold (sum_partials l). fold (sum_partials (<[i := rplus a c]> l)).
    rewrite (IH i Hi). apply rplus_assoc.
Qed.

Lemma sum_block_partials (nblocks nthreads : nat) (l : list R) :
  sum_partials (block_partials nblocks nthreads l)
  = sum_partials (take (nblocks * nthreads) l).
Proof.
  revert l. induction nblocks as [|n IH]; intros l; simpl; [done|].
  fold (sum_partials (block_partials n nthreads (drop nthreads l))).
  rewrite IH, <- sum_partials_app, take_take_drop. done.
Qed.

End Sums.

(** A map that commutes with the sum commutes with the sum of a list. *)
Lemma sum_partials_hom {R R'} `{ReduceType R} `{ReduceType R'}
    (phi : R -> R') (l : list R) :
  phi rzero = rzero ->
  (forall a b, phi (rplus a b) = rplus (phi a) (phi b)) ->
  phi (sum_partials l) = sum_partials (map phi l).
Proof.
  intros Hz Hp. induction l as [|a l IH]; simpl; [done|].
  fold (sum_partials l). fold (sum_partials (map phi l)).
  rewrite Hp, IH. done.
Qed.

(** ** The compatibility check *)

Lemma checkSpinor_compatible {T} (a b : ColorSpinorField T) :
  compatible a b -> checkSpinor a b = Ok tt.
Proof.
  intros (Hp & Hl & Hs). unfold checkSpinor.
  repeat case_decide; done.
Qed.

Lemma compatible_refl {T} (a : ColorSpinorField T) : compatible a a.
Proof. done. Qed.

Lemma compatible_sym {T} (a b : ColorSpinorField T) :
  compatible a b -> compatible b a.
Proof. intros (? & ? & ?). done. Qed.

Lemma compatible_length {T} (a b : ColorSpinorField T) :
  compatible a b -> length (data a) = length (data b).
Proof. intros (_ & Hl & _). unfold Length in Hl. lia. Qed.

(** ** The kernel on additive functors

    On a functor that is additive on sites the kernel returns the sum
    of the contributions of the sites, for every valid geometry. *)

Section Kernel.
Context {R T F : Type} `{ReduceLaws R} `{!ReduceFunctor R T F}.

Lemma grid_stride_additive I c u (n : nat) :
  site_additive I c u -> (0 < n)%nat ->
  forall sites i ts,
    length ts = n -> Forall (fun p => I p.1) ts ->
    exists ts',
      grid_stride n i sites ts = (ts', map u sites)
      /\ length ts' = n
      /\ sum_partials (ts'.*2)
         = rplus (sum_partials (ts.*2)) (sum_partials (map c sites)).
Proof.
  intros Hadd Hn. induction sites as [|site sites IH]; intros i ts Hlen HI.
  - exists ts. simpl. rewrite rplus_zero_r. done.
  - simpl.
    assert (Hlt : (i mod n < length ts)%nat)
      by (rewrite Hlen; apply Nat.mod_upper_bound; lia).
    destruct (lookup_lt_is_Some_2 _ _ Hlt) as [[f sum] Hts].
    rewrite Hts.
    destruct (Hadd f sum site) as (f' & -> & Hf').
    { apply (Forall_lookup_1 _ _ _ _ HI Hts). }
    destruct (IH (S i) (<[(i mod n)%nat := (f', rplus sum (c site))]> ts))
      as (ts' & -> & Hlen' & Hsum).
    { rewrite length_insert. done. }
    { apply Forall_insert; done. }
    exists ts'. split; [done|]. split; [done|].
    rewrite Hsum, list_fmap_insert. simpl.
    rewrite (sum_partials_insert _ _ sum).
    + fold (sum_partials (map c sites)). symmetry. apply rplus_assoc.
    + rewrite list_lookup_fmap, Hts. done.
Qed.

Lemma reduceKernel_additive I c u (tp : TuneParam) (a b : double2) sites :
  valid_geometry tp = true ->
  site_additive I c u -> I (construct F a b) ->
  reduceKernel F tp a b sites = (sum_partials (map c sites), map u sites).
Proof.
  intros Hv Hadd HI. unfold reduceKernel.
  apply andb_true_iff in Hv as [Hg Hb].
  apply bool_decide_eq_true in Hg, Hb.
  destruct (grid_stride_additive I c u (grid tp * block tp) Hadd
              ltac:(nia) sites 0%nat
              (replicate (grid tp * block tp) (construct F a b, rzero)))
    as (ts' & -> & Hlen & Hsum).
  { apply length_replicate. }
  { apply Forall_replicate. done. }
  f_equal.
  rewrite sum_block_partials, take_ge by (rewrite length_fmap; lia).
  rewrite Hsum, fmap_replicate. simpl.
  rewrite sum_partials_replicate_zero. apply rplus_zero_l.
Qed.

Lemma m_loop_additive f0 c u (sum : R) (site : list (operands T)) :
  element_additive f0 c u ->
  m_loop f0 sum site
  = (f0, rplus sum (sum_partials (map c site)), map u site).
Proof.
  intros (_ & _ & Hcall). revert sum.
  induction site as [|o site IH]; intros sum; simpl.
  - rewrite rplus_zero_r. done.
  - rewrite Hcall, IH. fold (sum_partials (map c site)).
    rewrite rplus_assoc. done.
Qed.

Lemma element_additive_site f0 c u :
  element_additive f0 c u ->
  site_additive (fun f => f = f0)
                (fun site => sum_partials (map c site)) (map u).
Proof.
  intros Hel f sum site ->. exists f0. split; [|done].
  unfold site_body. destruct Hel as (Hpre & Hpost & Hcall).
  rewrite Hpre, (m_loop_additive f0 c u) by done.
  rewrite Hpost. done.
Qed.

End Kernel.

(** ** The dispatcher on additive functors *)

Lemma sites_of_elements {A} (l : list A) :
  sites_of 1 (length l) l = map (fun o => [o]) l.
Proof.
  induction l as [|o l IH]; simpl; [done|].
  rewrite drop_0, take_0, IH. done.
Qed.

Lemma concat_elements {A B} (g : A -> B) (l : list A) :
  concat (map (fun o => [g o]) l) = map g l.
Proof. induction l as [|o l IH]; simpl; [done|]. rewrite IH. done. Qed.

Section Local.
Context {R T F : Type} `{ReduceLaws R} `{!ReduceFunctor R T F}.

Lemma local_reduce_site_additive I cs us wr su tp a b x y z w v
    (s : store T) :
  valid_geometry tp = true ->
  site_additive I cs us -> I (construct F a b) ->
  operands_compatible x y z w v s ->
  local_reduce F wr su tp a b x y z w v s
  = Ok (sum_partials (map cs (kernel_sites su x y z w v s)),
        store_operands wr x y z w v
          (concat (map us (kernel_sites su x y z w v s))) s).
Proof.
  intros Hv Hadd HI (Hy & Hz & Hw & Hvv). unfold local_reduce.
  rewrite !checkSpinor_compatible by done. simpl.
  rewrite (reduceKernel_additive I cs us tp a b _ Hv Hadd HI). done.
Qed.

Lemma local_reduce_additive wr tp a b c u x y z w v (s : store T) :
  valid_geometry tp = true ->
  element_additive (construct F a b) c u ->
  operands_compatible x y z w v s ->
  local_reduce F wr false tp a b x y z w v s
  = Ok (local_sum c x y z w v s, local_store wr u x y z w v s).
Proof.
  intros Hv Hel Hc.
  rewrite (local_reduce_site_additive _ _ _ wr false tp a b x y z w v s Hv
             (element_additive_site _ c u Hel) eq_refl Hc).
  unfold kernel_sites. rewrite sites_of_elements, !map_map. simpl.
  unfold local_sum, local_store. do 2 f_equal.
  - f_equal. apply map_ext. intros o. apply rplus_zero_r.
  - f_equal. apply concat_elements.
Qed.

End Local.

Section World.
Context {R T F : Type} `{ReduceLaws R} `{!ReduceFunctor R T F}.

Lemma peers_reduce_additive wr tp a b c u x y z w v (ps : list (store T)) :
  valid_geometry tp = true ->
  element_additive (construct F a b) c u ->
  Forall (operands_compatible x y z w v) ps ->
  peers_reduce F wr false tp a b x y z w v ps
  = Ok (map (local_sum c x y z w v) ps,
        map (local_store wr u x y z w v) ps).
Proof.
  intros Hv Hel. induction 1 as [|p ps Hp _ IH]; simpl; [done|].
  rewrite (local_reduce_additive wr tp a b c u) by done. simpl.
  rewrite IH. done.
Qed.

Lemma reduceCuda_additive wr tp a b c u x y z w v (W : world T) :
  valid_geometry tp = true ->
  element_additive (construct F a b) c u ->
  everywhere (operands_compatible x y z w v) W ->
  reduceCuda F wr false tp a b x y z w v W
  = Ok (global (local_sum c x y z w v) W, world_store wr u x y z w v W).
Proof.
  intros Hv Hel [Hs Hp]. unfold reduceCuda, local_results.
  rewrite (local_reduce_additive wr tp a b c u) by done. simpl.
  rewrite (peers_reduce_additive wr tp a b c u) by done. done.
Qed.

Lemma world_store_no_writes u x y z w v (W : world T) :
  world_store no_writes u x y z w v W = W.
Proof.
  destruct W as [s ps]. unfold world_store, local_store. simpl. f_equal.
  induction ps as [|p ps IH]; simpl; [done|]. rewrite IH. done.
Qed.

End World.

(** ** The operands of a dispatch *)

Lemma zip_operands_slots {T} (xs ys zs ws vs : list T) :
  length ys = length xs -> length zs = length xs ->
  length ws = length xs -> length vs = length xs ->
  map ox (zip_operands xs ys zs ws vs) = xs
  /\ map oy (zip_operands xs ys zs ws vs) = ys
  /\ map oz (zip_operands xs ys zs ws vs) = zs
  /\ map ow (zip_operands xs ys zs ws vs) = ws
  /\ map ov (zip_operands xs ys zs ws vs) = vs.
Proof.
  revert ys zs ws vs.
  induction xs as [|x xs IH]; intros [|y ys] [|z zs] [|w ws] [|v vs];
    simpl; intros Hy Hz Hw Hv; try done.
  destruct (IH ys zs ws vs) as (-> & -> & -> & -> & ->); try lia. done.
Qed.

Lemma load_operands_slots {T} (x y z w v : handle) (s : store T) :
  operands_compatible x y z w v s ->
  map ox (load_operands x y z w v s) = data (s x)
  /\ map oy (load_operands x y z w v s) = data (s y)
  /\ map oz (load_operands x y z w v s) = data (s z)
  /\ map ow (load_operands x y z w v s) = data (s w)
  /\ map ov (load_operands x y z w v s) = data (s v).
Proof.
  intros (Hy & Hz & Hw & Hv).
  apply zip_operands_slots; symmetry; apply compatible_length; done.
Qed.

Lemma map_slots2 {A B C D} (f : A -> B) (h : A -> C) (g : B -> C -> D)
    (l : list A) :
  map (fun o => g (f o) (h o)) l = zip_with g (map f l) (map h l).
Proof. induction l as [|o l IH]; simpl; [done|]. rewrite IH. done. Qed.

Lemma operands_compatible_diag {T} (x : handle) (s : store T) :
  operands_compatible x x x x x s.
Proof. repeat split. Qed.

(** ** The functors are additive *)

Section Functors.
Context {T : Type} `{FloatNLaws T}.

Lemma Norm1_additive a b :
  element_additive (R := double) (T := T) (construct Norm1 a b)
    (fun o => norm1_ (ox o)) (fun o => o).
Proof. done. Qed.

Lemma Norm2_additive a b :
  element_additive (R := double) (T := T) (construct Norm2 a b)
    (fun o => norm2_ 0 (ox o)) (fun o => o).
Proof.
  repeat split. intros s o. simpl. rewrite norm2_plus. done.
Qed.

Lemma Dot_additive a b :
  element_additive (R := double) (T := T) (construct Dot a b)
    (fun o => dot_ 0 (ox o) (oy o)) (fun o => o).
Proof.
  repeat split. intros s o. simpl. rewrite dot_plus. done.
Qed.

Lemma Cdot_additive a b :
  element_additive (R := double2) (T := T) (construct Cdot a b)
    (fun o => cdot_ rzero (ox o) (oy o)) (fun o => o).
Proof.
  repeat split. intros s o. simpl. rewrite cdot_plus. done.
Qed.


Lemma quadrupleCGReduction_additive a b :
  element_additive (R := double4) (T := T)
    (construct quadrupleCGReduction_ a b)
    (fun o => make_double4 (norm2_ 0 (ox o)) (norm2_ 0 (oy o))
                           (dot_ 0 (oy o) (oz o)) (norm2_ 0 (ow o)))
    (fun o => o).
Proof.
  repeat split. intros s o. simpl.
  rewrite (norm2_plus (double4.x s)), (norm2_plus (double4.y s)),
    (norm2_plus (double4.w s)), (dot_plus (double4.z s)). done.
Qed.

End Functors.

(** ** What the entry points return *)

Section Entries.
Context {T : Type} `{FloatNLaws T}.

Lemma everywhere_diag (x : handle) (W : world T) :
  everywhere (operands_compatible x x x x x) W.
Proof.
  split; [apply operands_compatible_diag|].
  apply Forall_forall. intros s _. apply operands_compatible_diag.
Qed.

Lemma everywhere_impl (P Q : store T -> Prop) (W : world T) :
  (forall s, P s -> Q s) -> everywhere P W -> everywhere Q W.
Proof.
  intros HPQ [Hs Hp]. split; [auto|]. eapply Forall_impl; eauto.
Qed.

Lemma global_ext {R} `{ReduceType R} (P : store T -> Prop)
    (q q' : store T -> R) (W : world T) :
  everywhere P W -> (forall s, P s -> q s = q' s) -> global q W = global q' W.
Proof.
  intros [Hs Hp] Hq. unfold global. simpl. f_equal; [auto|].
  f_equal. apply Forall_fmap_ext_1. eapply Forall_impl; eauto.
Qed.

Lemma norm1_global tp x (W : world T) :
  valid_geometry tp = true ->
  norm1 tp x W = Ok (global (fun s => field_norm1 (s x)) W, W).
Proof.
  intros Hv. unfold norm1.
  rewrite (reduceCuda_additive _ tp _ _ _ _ x x x x x W Hv
             (Norm1_additive _ _) (everywhere_diag x W)).
  fold no_writes. rewrite world_store_no_writes. do 2 f_equal.
  apply (global_ext _ _ _ _ (everywhere_diag x W)). intros s Hs.
  unfold local_sum, field_norm1.
  destruct (load_operands_slots x x x x x s Hs) as (Hx & _).
  rewrite <- Hx. rewrite map_map. done.
Qed.

Lemma norm2_global tp x (W : world T) :
  valid_geometry tp = true ->
  norm2 tp x W = Ok (global (fun s => field_norm2 (s x)) W, W).
Proof.
  intros Hv. unfold norm2.
  rewrite (reduceCuda_additive _ tp _ _ _ _ x x x x x W Hv
             (Norm2_additive _ _) (everywhere_diag x W)).
  fold no_writes. rewrite world_store_no_writes. do 2 f_equal.
  apply (global_ext _ _ _ _ (everywhere_diag x W)). intros s Hs.
  unfold local_sum, field_norm2.
  destruct (load_operands_slots x x x x x s Hs) as (Hx & _).
  rewrite <- Hx. rewrite map_map. done.
Qed.

Lemma operands_compatible_xy x y (s : store T) :
  compatible (s x) (s y) -> operands_compatible x y x x x s.
Proof. intros Hc. repeat split; apply Hc. Qed.

Lemma reDotProduct_global tp x y (W : world T) :
  valid_geometry tp = true ->
  everywhere (fun s => compatible (s x) (s y)) W ->
  reDotProduct tp x y W
  = Ok (global (fun s => field_dot (s x) (s y)) W, W).
Proof.
  intros Hv Hc. unfold reDotProduct.
  pose proof (everywhere_impl _ _ W (operands_compatible_xy x y) Hc) as Hc'.
  rewrite (reduceCuda_additive _ tp _ _ _ _ x y x x x W Hv
             (Dot_additive _ _) Hc').
  fold no_writes. rewrite world_store_no_writes. do 2 f_equal.
  apply (global_ext _ _ _ _ Hc'). intros s Hs.
  unfold local_sum, field_dot.
  destruct (load_operands_slots x y x x x s Hs) as (Hx & Hy & _).
  rewrite <- Hx, <- Hy.
  rewrite (map_slots2 ox oy (dot_ 0)). done.
Qed.

Lemma cDotProduct_global tp x y (W : world T) :
  valid_geometry tp = true ->
  everywhere (fun s => compatible (s x) (s y)) W ->
  cDotProduct tp x y W
  = Ok (let cdot := global (fun s => field_cdot (s x) (s y)) W in
        mkComplex (double2.x cdot) (double2.y cdot), W).
Proof.
  intros Hv Hc. unfold cDotProduct.
  pose proof (everywhere_impl _ _ W (operands_compatible_xy x y) Hc) as Hc'.
  rewrite (reduceCuda_additive _ tp _ _ _ _ x y x x x W Hv
             (Cdot_additive _ _) Hc').
  fold no_writes. rewrite world_store_no_writes.
  rewrite (global_ext _ _ (fun s => field_cdot (s x) (s y)) W Hc'); [done|].
  intros s Hs. unfold local_sum, field_cdot.
  destruct (load_operands_slots x y x x x s Hs) as (Hx & Hy & _).
  rewrite <- Hx, <- Hy.
  rewrite (map_slots2 ox oy (cdot_ rzero)). done.
Qed.

End Entries.

Section Symmetries.
Context {T : Type} `{FloatNLaws T}.

Lemma field_dot_diag (a : ColorSpinorField T) : field_dot a a = field_norm2 a.
Proof.
  unfold field_dot, field_norm2. rewrite zip_with_diag. f_equal.
  apply map_ext. intros e. symmetry. apply norm2_dot.
Qed.

(** C3.  [norm2(x)] and [reDotProduct(x, x)] return the same value, and
    leave the same memory, whatever the launch geometries of the two
    kernels. *)
Theorem norm2_is_reDotProduct tp tp' (x : handle) (W : world T) :
  valid_geometry tp = true -> valid_geometry tp' = true ->
  norm2 tp x W = reDotProduct tp' x x W.
Proof.
  intros Hv Hv'. rewrite norm2_global by done.
  rewrite reDotProduct_global; [|done|].
  - do 2 f_equal. unfold global. f_equal. apply map_ext. intros s.
    symmetry. apply field_dot_diag.
  - split; [done|]. apply Forall_forall. intros s _. done.
Qed.

Lemma conj2_sum (l : list double2) :
  conj2 (sum_partials l) = sum_partials (map conj2 l).
Proof.
  apply sum_partials_hom.
  - unfold conj2. simpl. f_equal; ring.
  - intros a b. unfold conj2. simpl. f_equal; ring.
Qed.

Lemma field_cdot_swap (a b : ColorSpinorField T) :
  field_cdot b a = conj2 (field_cdot a b).
Proof.
  unfold field_cdot. rewrite conj2_sum. f_equal.
  generalize (data a) (data b). intros l.
  induction l as [|e l IH]; intros [|e' k]; simpl; try done.
  rewrite cdot_swap, IH. done.
Qed.

(** C4.  Conjugate symmetry: on compatible fields [cDotProduct(y, x)]
    returns the conjugate of [cDotProduct(x, y)]. *)
Theorem cDotProduct_conjugate_symmetry tp tp' (x y : handle) (W : world T) :
  valid_geometry tp = true -> valid_geometry tp' = true ->
  everywhere (fun s => compatible (s x) (s y)) W ->
  exists c : Complex,
    cDotProduct tp x y W = Ok (c, W)
    /\ cDotProduct tp' y x W = Ok (conj c, W).
Proof.
  intros Hv Hv' Hc. eexists. split.
  - apply cDotProduct_global; done.
  - rewrite cDotProduct_global; [|done|].
    + assert (Hg : global (fun s => field_cdot (s y) (s x)) W
                   = conj2 (global (fun s => field_cdot (s x) (s y)) W)).
      { unfold global, comm_allreduce. rewrite conj2_sum, map_map.
        f_equal. apply map_ext. intros s. apply field_cdot_swap. }
      rewrite Hg. done.
    + eapply everywhere_impl; [|exact Hc].
      intros s. apply compatible_sym.
Qed.

End Symmetries.

Lemma global_hom {T R R'} `{ReduceType R} `{ReduceType R'}
    (phi : R -> R') (q : store T -> R) (W : world T) :
  phi rzero = rzero ->
  (forall a b, phi (rplus a b) = rplus (phi a) (phi b)) ->
  phi (global q W) = global (fun s => phi (q s)) W.
Proof.
  intros Hz Hp. unfold global, comm_allreduce.
  rewrite (sum_partials_hom phi) by done.
  rewrite map_map. done.
Qed.

Lemma local_sum_hom {T R R'} `{ReduceType R} `{ReduceType R'}
    (phi : R -> R') (c : operands T -> R) x y z w v (s : store T) :
  phi rzero = rzero ->
  (forall a b, phi (rplus a b) = rplus (phi a) (phi b)) ->
  phi (local_sum c x y z w v s) = local_sum (fun o => phi (c o)) x y z w v s.
Proof.
  intros Hz Hp. unfold local_sum.
  rewrite (sum_partials_hom phi) by done.
  rewrite map_map. done.
Qed.

Lemma compatible_trans {T} (a b c : ColorSpinorField T) :
  compatible a b -> compatible b c -> compatible a c.
Proof. intros (? & ? & ?) (? & ? & ?). repeat split; congruence. Qed.

Section ConjugateGradient.
Context {T : Type} `{FloatNLaws T}.

Lemma operands_compatible_xyz x y z (s : store T) :
  compatible (s x) (s y) /\ compatible (s x) (s z) ->
  operands_compatible x y z x x s.
Proof. intros [Hy Hz]. repeat split; first [apply Hy | apply Hz]. Qed.

Lemma quadrupleCGReduction_global tp x y z (W : world T) :
  valid_geometry tp = true ->
  everywhere (fun s => compatible (s x) (s y) /\ compatible (s x) (s z)) W ->
  quadrupleCGReduction tp x y z W
  = Ok (make_double4 (global (fun s => field_norm2 (s x)) W)
                     (global (fun s => field_norm2 (s y)) W)
                     (global (fun s => field_dot (s y) (s z)) W)
                     (global (fun s => field_norm2 (s x)) W), W).
Proof.
  intros Hv Hc. unfold quadrupleCGReduction.
  pose proof (everywhere_impl _ _ W (operands_compatible_xyz x y z) Hc) as Hc'.
  rewrite (reduceCuda_additive _ tp _ _ _ _ x y z x x W Hv
             (quadrupleCGReduction_additive _ _) Hc').
  fold no_writes. rewrite world_store_no_writes. do 2 f_equal.
  match goal with |- ?g = _ =>
    transitivity (make_double4 (double4.x g) (double4.y g) (double4.z g)
                               (double4.w g)); [destruct g; done|]
  end.
  rewrite (global_hom double4.x), (global_hom double4.y),
    (global_hom double4.z), (global_hom double4.w) by done.
  f_equal; apply (global_ext _ _ _ _ Hc'); intros s Hs;
    rewrite local_sum_hom by done; simpl;
    destruct (load_operands_slots x y z x x s Hs)
      as (Hx & Hy & Hz & Hw & _);
    unfold local_sum, field_norm2, field_dot.
  - rewrite <- Hx. rewrite map_map. done.
  - rewrite <- Hy. rewrite map_map. done.
  - rewrite <- Hy, <- Hz. rewrite (map_slots2 oy oz (dot_ 0)). done.
  - rewrite <- Hw. rewrite map_map. done.
Qed.

(** C7.  [quadrupleCGReduction(x, y, z)] returns in its first component
    the sum over all processes and elements of the squared magnitude of
    [x], in its second that of [y], in its third the sum of the real
    products of [y] and [z], and in its fourth the squared norm of the
    [w] slot, which the entry point binds to [x]; these are the values
    [norm2(x)], [norm2(y)] and [reDotProduct(y, z)] return. *)
Theorem quadrupleCGReduction_components tp tp1 tp2 tp3 (x y z : handle)
    (W : world T) :
  valid_geometry tp = true -> valid_geometry tp1 = true ->
  valid_geometry tp2 = true -> valid_geometry tp3 = true ->
  everywhere (fun s => compatible (s x) (s y) /\ compatible (s x) (s z)) W ->
  exists nx ny dyz : double,
    nx = global (fun s => field_norm2 (s x)) W
    /\ ny = global (fun s => field_norm2 (s y)) W
    /\ dyz = global (fun s => field_dot (s y) (s z)) W
    /\ quadrupleCGReduction tp x y z W = Ok (make_double4 nx ny dyz nx, W)
    /\ norm2 tp1 x W = Ok (nx, W)
    /\ norm2 tp2 y W = Ok (ny, W)
    /\ reDotProduct tp3 y z W = Ok (dyz, W).
Proof.
  intros Hv Hv1 Hv2 Hv3 Hc. do 3 eexists.
  split; [reflexivity|]. split; [reflexivity|]. split; [reflexivity|].
  split; [apply quadrupleCGReduction_global; done|].
  split; [apply norm2_global; done|].
  split; [apply norm2_global; done|].
  apply reDotProduct_global; [done|].
  eapply everywhere_impl; [|exact Hc]. intros s [Hy Hz].
  eapply compatible_trans; [apply compatible_sym|]; done.
Qed.

End ConjugateGradient.

Lemma map_zip_with {A B C D} (f : C -> D) (g : A -> B -> C)
    (l : list A) (k : list B) :
  map f (zip_with g l k) = zip_with (fun a b => f (g a b)) l k.
Proof.
  revert k. induction l as [|a l IH]; intros [|b k]; simpl; try done.
  rewrite IH. done.
Qed.



Section Axpbyz.
Context {T : Type} `{FloatNLaws T}.




End Axpbyz.

(** ** Dispatches that write no operand *)

Section NoWrites.
Context {R T F : Type} `{ReduceType R} `{!ReduceFunctor R T F}.

Lemma local_reduce_no_writes su tp a b x y z w v (s s' : store T) (r : R) :
  local_reduce F no_writes su tp a b x y z w v s = Ok (r, s') -> s' = s.
Proof.
  unfold local_reduce.
  destruct (checkSpinor (s x) (s y)); [simpl|done].
  destruct (checkSpinor (s x) (s z)); [simpl|done].
  destruct (checkSpinor (s x) (s w)); [simpl|done].
  destruct (checkSpinor (s x) (s v)); [simpl|done].
  destruct (reduceKernel F tp a b (kernel_sites su x y z w v s)) as [sum outs].
  intros [= _ <-]. done.
Qed.

Lemma peers_reduce_no_writes su tp a b x y z w v (ps ps' : list (store T))
    (rs : list R) :
  peers_reduce F no_writes su tp a b x y z w v ps = Ok (rs, ps') -> ps' = ps.
Proof.
  revert rs ps'. induction ps as [|p ps IH]; intros rs ps'; simpl.
  - intros [= _ <-]. done.
  - destruct (local_reduce F no_writes su tp a b x y z w v p)
      as [[r p']|e] eqn:Hp; [simpl|done].
    destruct (peers_reduce F no_writes su tp a b x y z w v ps)
      as [[rs' ps'']|e] eqn:Hps; [simpl|done].
    intros [= _ <-].
    rewrite (local_reduce_no_writes _ _ _ _ _ _ _ _ _ _ _ _ Hp).
    rewrite (IH _ _ eq_refl). done.
Qed.

Lemma reduceCuda_no_writes su tp a b x y z w v (W W' : world T) (r : R) :
  reduceCuda F no_writes su tp a b x y z w v W = Ok (r, W') -> W' = W.
Proof.
  unfold reduceCuda, local_results.
  destruct (local_reduce F no_writes su tp a b x y z w v (self W))
    as [[r0 s']|e] eqn:Hs; [simpl|done].
  destruct (peers_reduce F no_writes su tp a b x y z w v (peers W))
    as [[rs ps']|e] eqn:Hp; [simpl|done].
  intros [= _ <-].
  rewrite (local_reduce_no_writes _ _ _ _ _ _ _ _ _ _ _ _ Hs).
  rewrite (peers_reduce_no_writes _ _ _ _ _ _ _ _ _ _ _ _ Hp).
  destruct W; done.
Qed.

(** A dispatch whose checks pass returns. *)
Lemma local_reduce_returns wr su tp a b x y z w v (s : store T) :
  operands_compatible x y z w v s ->
  exists r s', local_reduce F wr su tp a b x y z w v s = Ok (r, s').
Proof.
  intros (Hy & Hz & Hw & Hv). unfold local_reduce.
  rewrite !checkSpinor_compatible by done. simpl.
  destruct (reduceKernel F tp a b (kernel_sites su x y z w v s)) as [sum outs].
  eauto.
Qed.

Lemma reduceCuda_returns wr su tp a b x y z w v (W : world T) :
  everywhere (operands_compatible x y z w v) W ->
  exists r W', reduceCuda F wr su tp a b x y z w v W = Ok (r, W').
Proof.
  intros [Hs Hp]. unfold reduceCuda, local_results.
  destruct (local_reduce_returns wr su tp a b x y z w v _ Hs)
    as (r & s' & ->). simpl.
  assert (exists rs ps',
            peers_reduce F wr su tp a b x y z w v (peers W) = Ok (rs, ps'))
    as (rs & ps' & ->).
  { induction Hp as [|p ps Hc _ IH]; simpl; [eauto|].
    destruct (local_reduce_returns wr su tp a b x y z w v _ Hc)
      as (r1 & p' & ->). simpl.
    destruct IH as (rs & ps' & ->). simpl. eauto. }
  simpl. eauto.
Qed.

End NoWrites.

Lemma checkSpinor_Ok {T} (a b : ColorSpinorField T) (u : unit) :
  checkSpinor a b = Ok u -> compatible a b.
Proof.
  unfold checkSpinor, compatible.
  destruct (decide (Precision a <> Precision b)) as [|Hp]; [done|].
  destruct (decide (Length a <> Length b)) as [|Hl]; [done|].
  destruct (decide (Stride a <> Stride b)) as [|Hs]; [done|].
  intros _. split; [|lia].
  destruct (decide (Precision a = Precision b)); [done|]. tauto.
Qed.

Lemma concat_sites_of_elements {A} (l : list A) :
  concat (sites_of 1 (length l) l) = l.
Proof.
  rewrite sites_of_elements.
  induction l as [|o l IH]; simpl; [done|]. rewrite IH. done.
Qed.

Lemma set_data_same {T} (a : ColorSpinorField T) : set_data a (data a) = a.
Proof. destruct a. done. Qed.

(** ** Functors that hand their operands back *)

Section Preserving.
Context {R T F : Type} `{ReduceType R} `{!ReduceFunctor R T F}.

Lemma m_loop_preserving f sum (site : list (operands T)) :
  operand_preserving F -> (m_loop f sum site).2 = site.
Proof.
  intros Hp. revert f sum. induction site as [|o site IH]; intros f sum;
    simpl; [done|].
  pose proof (Hp f sum o) as Ho.
  destruct (call f sum o) as [[f1 s1] o1]. simpl in Ho. subst o1.
  pose proof (IH f1 s1) as Hs.
  destruct (m_loop f1 s1 site) as [[f2 s2] out]. simpl in *. congruence.
Qed.

Lemma grid_stride_preserving n i (sites : list (list (operands T))) ts :
  operand_preserving F -> (grid_stride n i sites ts).2 = sites.
Proof.
  intros Hp. revert i ts. induction sites as [|site sites IH]; intros i ts;
    simpl; [done|].
  destruct (ts !! (i mod n)%nat) as [[f sum]|].
  - unfold site_body.
    pose proof (m_loop_preserving (pre f) sum site Hp) as Hs.
    destruct (m_loop (pre f) sum site) as [[f1 s1] out]. simpl in Hs.
    subst out.
    pose proof (IH (S i) (<[(i mod n)%nat := (f1, post f1 s1)]> ts)) as Hr.
    destruct (grid_stride n (S i) sites
                (<[(i mod n)%nat := (f1, post f1 s1)]> ts)) as [ts' outs].
    simpl in *. congruence.
  - pose proof (IH (S i) ts) as Hr.
    destruct (grid_stride n (S i) sites ts) as [ts' outs].
    simpl in *. congruence.
Qed.

Lemma store_operand_same flag h (slot : operands T -> T) out (s : store T) :
  map slot out = data (s h) ->
  forall k, store_operand flag h slot out s k = s k.
Proof.
  intros Hs k. unfold store_operand. destruct flag; [|done].
  unfold upd. case_decide as Hk; [|done]. subst k.
  rewrite Hs, drop_ge, app_nil_r by (rewrite <- Hs, length_map; done).
  apply set_data_same.
Qed.

Lemma store_operands_same wr x y z w v out (s : store T) :
  map ox out = data (s x) -> map oy out = data (s y) ->
  map oz out = data (s z) -> map ow out = data (s w) ->
  map ov out = data (s v) ->
  forall k, store_operands wr x y z w v out s k = s k.
Proof.
  intros Hx Hy Hz Hw Hv k. unfold store_operands.
  pose proof (store_operand_same (writeX wr) x ox out s Hx) as H1.
  set (s1 := store_operand (writeX wr) x ox out s) in *.
  pose proof (store_operand_same (writeY wr) y oy out s1
                ltac:(rewrite H1; done)) as H2.
  set (s2 := store_operand (writeY wr) y oy out s1) in *.
  pose proof (store_operand_same (writeZ wr) z oz out s2
                ltac:(rewrite H2, H1; done)) as H3.
  set (s3 := store_operand (writeZ wr) z oz out s2) in *.
  pose proof (store_operand_same (writeW wr) w ow out s3
                ltac:(rewrite H3, H2, H1; done)) as H4.
  set (s4 := store_operand (writeW wr) w ow out s3) in *.
  pose proof (store_operand_same (writeV wr) v ov out s4
                ltac:(rewrite H4, H3, H2, H1; done)) as H5.
  rewrite H5, H4, H3, H2, H1. done.
Qed.

Lemma local_reduce_preserving wr tp a b x y z w v (s s' : store T) (r : R) :
  operand_preserving F ->
  local_reduce F wr false tp a b x y z w v s = Ok (r, s') ->
  forall k, s' k = s k.
Proof.
  intros Hp. unfold local_reduce.
  destruct (checkSpinor (s x) (s y)) as [[]|] eqn:Hy; [simpl|done].
  destruct (checkSpinor (s x) (s z)) as [[]|] eqn:Hz; [simpl|done].
  destruct (checkSpinor (s x) (s w)) as [[]|] eqn:Hw; [simpl|done].
  destruct (checkSpinor (s x) (s v)) as [[]|] eqn:Hv; [simpl|done].
  apply checkSpinor_Ok in Hy, Hz, Hw, Hv.
  unfold reduceKernel.
  pose proof (grid_stride_preserving (grid tp * block tp) 0
                (kernel_sites false x y z w v s)
                (replicate (grid tp * block tp) (construct F a b, rzero)) Hp)
    as Hs.
  destruct (grid_stride (grid tp * block tp) 0
              (kernel_sites false x y z w v s)
              (replicate (grid tp * block tp) (construct F a b, rzero)))
    as [ts outs].
  simpl in Hs. subst outs. intros [= _ <-].
  unfold kernel_sites. rewrite concat_sites_of_elements.
  destruct (load_operands_slots x y z w v s) as (Hx1 & Hy1 & Hz1 & Hw1 & Hv1);
    [done|].
  apply store_operands_same; done.
Qed.

Lemma peers_reduce_preserving wr tp a b x y z w v (ps ps' : list (store T))
    (rs : list R) :
  operand_preserving F ->
  peers_reduce F wr false tp a b x y z w v ps = Ok (rs, ps') ->
  Forall2 (fun s s' => forall k, s' k = s k) ps ps'.
Proof.
  intros Hp. revert rs ps'. induction ps as [|p ps IH]; intros rs ps'; simpl.
  - intros [= _ <-]. constructor.
  - destruct (local_reduce F wr false tp a b x y z w v p)
      as [[r p']|e] eqn:Hl; [simpl|done].
    destruct (peers_reduce F wr false tp a b x y z w v ps)
      as [[rs' ps'']|e] eqn:Hps; [simpl|done].
    intros [= _ <-]. constructor.
    + apply (local_reduce_preserving _ _ _ _ _ _ _ _ _ _ _ _ Hp Hl).
    + apply (IH _ _ eq_refl).
Qed.

Lemma reduceCuda_preserving wr tp a b x y z w v (W W' : world T) (r : R) :
  operand_preserving F ->
  reduceCuda F wr false tp a b x y z w v W = Ok (r, W') ->
  unchanged W W'.
Proof.
  intros Hp. unfold reduceCuda, local_results.
  destruct (local_reduce F wr false tp a b x y z w v (self W))
    as [[r0 s']|e] eqn:Hs; [simpl|done].
  destruct (peers_reduce F wr false tp a b x y z w v (peers W))
    as [[rs ps']|e] eqn:Hps; [simpl|done].
  intros [= _ <-]. unfold unchanged, processes. simpl. constructor.
  - apply (local_reduce_preserving _ _ _ _ _ _ _ _ _ _ _ _ Hp Hs).
  - apply (peers_reduce_preserving _ _ _ _ _ _ _ _ _ _ _ _ Hp Hps).
Qed.

End Preserving.
Section PureReductions.
Context {T : Type} `{FloatN T}.

(** C9.  [norm1], [norm2], [reDotProduct] and [cDotProduct] dispatch
    with all five write flags off, their functors hand every operand
    back as they got it, and a call that returns leaves the memory of
    every process as it was; [norm1] and [norm2] always return.  The
    fields would keep their contents even under other write flags,
    since what would be stored is what was loaded. *)
Theorem pure_reductions_write_nothing tp (x y : handle) (W : world T) :
  (norm1 tp x W
   = reduceCuda Norm1 no_writes false tp (make_double2 0 0)
       (make_double2 0 0) x x x x x W
   /\ norm2 tp x W
      = reduceCuda Norm2 no_writes false tp (make_double2 0 0)
          (make_double2 0 0) x x x x x W
   /\ reDotProduct tp x y W
      = reduceCuda Dot no_writes false tp (make_double2 0 0)
          (make_double2 0 0) x y x x x W
   /\ cDotProduct tp x y W
      = ('(cdot, W) ← reduceCuda Cdot no_writes false tp (make_double2 0 0)
                         (make_double2 0 0) x y x x x W;
         Ok (mkComplex (double2.x cdot) (double2.y cdot), W)))
  /\ (operand_preserving (R := double) (T := T) Norm1
      /\ operand_preserving (R := double) (T := T) Norm2
      /\ operand_preserving (R := double) (T := T) Dot
      /\ operand_preserving (R := double2) (T := T) Cdot)
  /\ (exists r, norm1 tp x W = Ok (r, W))
  /\ (exists r, norm2 tp x W = Ok (r, W))
  /\ (forall r W', reDotProduct tp x y W = Ok (r, W') -> W' = W)
  /\ (forall c W', cDotProduct tp x y W = Ok (c, W') -> W' = W)
  /\ (forall wr (r : double) (r2 : double2) W',
        (reduceCuda Norm1 wr false tp (make_double2 0 0) (make_double2 0 0)
           x x x x x W = Ok (r, W') -> unchanged W W')
        /\ (reduceCuda Norm2 wr false tp (make_double2 0 0)
              (make_double2 0 0) x x x x x W = Ok (r, W') -> unchanged W W')
        /\ (reduceCuda Dot wr false tp (make_double2 0 0)
              (make_double2 0 0) x y x x x W = Ok (r, W') -> unchanged W W')
        /\ (reduceCuda Cdot wr false tp (make_double2 0 0)
              (make_double2 0 0) x y x x x W = Ok (r2, W')
            -> unchanged W W')).
Proof.
  assert (Hd : everywhere (operands_compatible x x x x x) W).
  { split; [repeat split|]. apply Forall_forall. intros s _. repeat split. }
  split; [done|]. split; [done|].
  split; [|split; [|split; [|split]]].
  5: { intros wr r r2 W'. repeat split; apply reduceCuda_preserving; done. }
  - destruct (reduceCuda_returns (F := Norm1) no_writes false tp
                (make_double2 0 0) (make_double2 0 0) x x x x x W Hd)
      as (r & W' & Hr).
    exists r. unfold norm1. fold no_writes. rewrite Hr.
    rewrite (reduceCuda_no_writes _ _ _ _ _ _ _ _ _ _ _ _ Hr). done.
  - destruct (reduceCuda_returns (F := Norm2) no_writes false tp
                (make_double2 0 0) (make_double2 0 0) x x x x x W Hd)
      as (r & W' & Hr).
    exists r. unfold norm2. fold no_writes. rewrite Hr.
    rewrite (reduceCuda_no_writes _ _ _ _ _ _ _ _ _ _ _ _ Hr). done.
  - intros r W'. apply reduceCuda_no_writes.
  - intros c W'. unfold cDotProduct. fold no_writes.
    destruct (reduceCuda Cdot no_writes false tp (make_double2 0 0)
                (make_double2 0 0) x y x x x W) as [[cdot W'']|e] eqn:Hr;
      [simpl|done].
    intros [= _ <-]. apply (reduceCuda_no_writes _ _ _ _ _ _ _ _ _ _ _ _ Hr).
Qed.

End PureReductions.

(** ** The heavy-quark residual norm *)

Section HeavyQuark.
Context {T : Type} `{FloatNLaws T}.

Lemma HeavyQuarkResidualNorm_m_loop a b ax ay az (sum : double3)
    (site : list (operands T)) :
  m_loop (HeavyQuarkResidualNorm_.functor a b (make_double3 ax ay az))
         sum site
  = (HeavyQuarkResidualNorm_.functor a b
       (make_double3
          (ax + sum_partials (map (fun o => norm2_ 0 (ox o)) site))%Qc
          (ay + sum_partials (map (fun o => norm2_ 0 (oy o)) site))%Qc
          az),
     sum, site).
Proof.
  revert ax ay. induction site as [|o site IH]; intros ax ay; simpl.
  - rewrite !Qcplus_0_r. done.
  - rewrite IH, (norm2_plus ax), (norm2_plus ay), <- !Qcplus_assoc. done.
Qed.

Lemma HeavyQuarkResidualNorm_site_additive :
  site_additive (R := double3) (T := T) (F := HeavyQuarkResidualNorm_.t)
    (fun _ => True) (hq_site ox oy) (fun site => site).
Proof.
  intros [a b [ax ay az]] sum site _. unfold site_body. simpl.
  unfold HeavyQuarkResidualNorm_.pre. simpl.
  rewrite HeavyQuarkResidualNorm_m_loop.
  eexists. split; [|done]. f_equal. f_equal.
  unfold HeavyQuarkResidualNorm_.post, hq_site. simpl.
  rewrite !Qcplus_0_l. done.
Qed.

Lemma xpyHeavyQuarkResidualNorm_m_loop a b ax ay az (sum : double3)
    (site : list (operands T)) :
  m_loop (xpyHeavyQuarkResidualNorm_.functor a b (make_double3 ax ay az))
         sum site
  = (xpyHeavyQuarkResidualNorm_.functor a b
       (make_double3
          (ax + sum_partials
                  (map (fun o => norm2_ 0 (vplus (ox o) (oy o))) site))%Qc
          (ay + sum_partials (map (fun o => norm2_ 0 (oz o)) site))%Qc
          az),
     sum, site).
Proof.
  revert ax ay. induction site as [|o site IH]; intros ax ay; simpl.
  - rewrite !Qcplus_0_r. done.
  - rewrite IH, (norm2_plus ax), (norm2_plus ay), <- !Qcplus_assoc. done.
Qed.

Lemma xpyHeavyQuarkResidualNorm_site_additive :
  site_additive (R := double3) (T := T) (F := xpyHeavyQuarkResidualNorm_.t)
    (fun _ => True) (hq_site (fun o => vplus (ox o) (oy o)) oz)
    (fun site => site).
Proof.
  intros [a b [ax ay az]] sum site _. unfold site_body. simpl.
  unfold xpyHeavyQuarkResidualNorm_.pre. simpl.
  rewrite xpyHeavyQuarkResidualNorm_m_loop.
  eexists. split; [|done]. f_equal. f_equal.
  unfold xpyHeavyQuarkResidualNorm_.post, hq_site. simpl.
  rewrite !Qcplus_0_l. done.
Qed.

End HeavyQuark.

Section SiteWorld.
Context {R T F : Type} `{ReduceLaws R} `{!ReduceFunctor R T F}.

Lemma peers_reduce_site_additive I cs us su tp a b x y z w v
    (ps : list (store T)) :
  valid_geometry tp = true ->
  site_additive I cs us -> I (construct F a b) ->
  Forall (operands_compatible x y z w v) ps ->
  peers_reduce F no_writes su tp a b x y z w v ps
  = Ok (map (fun s => sum_partials (map cs (kernel_sites su x y z w v s))) ps,
        ps).
Proof.
  intros Hv Hadd HI. induction 1 as [|p ps Hp _ IH]; simpl; [done|].
  rewrite (local_reduce_site_additive I cs us no_writes su tp a b) by done.
  simpl. rewrite IH. done.
Qed.

Lemma local_results_site_additive I cs us su tp a b x y z w v
    (W : world T) :
  valid_geometry tp = true ->
  site_additive I cs us -> I (construct F a b) ->
  everywhere (operands_compatible x y z w v) W ->
  local_results F no_writes su tp a b x y z w v W
  = Ok (map (fun s => sum_partials (map cs (kernel_sites su x y z w v s)))
            (processes W), W).
Proof.
  intros Hv Hadd HI [Hs Hp]. unfold local_results.
  rewrite (local_reduce_site_additive I cs us no_writes su tp a b) by done.
  simpl.
  rewrite (peers_reduce_site_additive I cs us su tp a b) by done.
  destruct W. done.
Qed.

End SiteWorld.

Section HeavyQuarkEntries.
Context {T : Type} `{FloatNLaws T}.

Lemma int_mul_small (a b : Z) :
  - 2 ^ 31 <= a * b < 2 ^ 31 -> int_mul a b = a * b.
Proof. intros Hb. unfold int_mul. rewrite Z.mod_small; lia. Qed.

Lemma HeavyQuarkResidualNorm_over_locals allreduce tp (x r : handle)
    (W : world T) :
  Ncolor (self W x) = 3 -> valid_geometry tp = true ->
  everywhere (fun s => compatible (s x) (s r)) W ->
  local_results HeavyQuarkResidualNorm_.t no_writes true tp
    (make_double2 0 0) (make_double2 0 0) x r r r r W
  = Ok (map (hq_local ox oy x r r r r) (processes W), W)
  /\ HeavyQuarkResidualNorm_over allreduce tp x r W
     = Ok (let rtn :=
             allreduce (map (hq_local ox oy x r r r r) (processes W)) in
           make_double3 (double3.x rtn) (double3.y rtn)
             (double3.z rtn
              / of_int (int_mul (Volume (self W x)) (comm_size W))),
           W).
Proof.
  intros Hn Hv Hc.
  assert (Hc' : everywhere (operands_compatible x r r r r) W).
  { eapply everywhere_impl; [|exact Hc]. intros s Hs.
    repeat split; apply Hs. }
  pose proof (local_results_site_additive _ _ _ true tp
                (make_double2 0 0) (make_double2 0 0) x r r r r W Hv
                HeavyQuarkResidualNorm_site_additive I Hc') as Hl.
  split; [exact Hl|].
  unfold HeavyQuarkResidualNorm_over.
  rewrite decide_False by (intros Hne; done).
  unfold reduceCuda_over. fold no_writes. rewrite Hl. done.
Qed.

Lemma xpyHeavyQuarkResidualNorm_over_locals allreduce tp (x y r : handle)
    (W : world T) :
  Ncolor (self W x) = 3 -> valid_geometry tp = true ->
  everywhere (fun s => compatible (s x) (s y) /\ compatible (s x) (s r)) W ->
  local_results xpyHeavyQuarkResidualNorm_.t no_writes true tp
    (make_double2 0 0) (make_double2 0 0) x y r r r W
  = Ok (map (hq_local (fun o => vplus (ox o) (oy o)) oz x y r r r)
            (processes W), W)
  /\ xpyHeavyQuarkResidualNorm_over allreduce tp x y r W
     = Ok (let rtn :=
             allreduce (map (hq_local (fun o => vplus (ox o) (oy o)) oz
                               x y r r r) (processes W)) in
           make_double3 (double3.x rtn) (double3.y rtn)
             (double3.z rtn
              / of_int (int_mul (Volume (self W x)) (comm_size W))),
           W).
Proof.
  intros Hn Hv Hc.
  assert (Hc' : everywhere (operands_compatible x y r r r) W).
  { eapply everywhere_impl; [|exact Hc].
    intros s [Hy Hr]. repeat split; first [apply Hy | apply Hr]. }
  pose proof (local_results_site_additive _ _ _ true tp
                (make_double2 0 0) (make_double2 0 0) x y r r r W Hv
                xpyHeavyQuarkResidualNorm_site_additive I Hc') as Hl.
  split; [exact Hl|].
  unfold xpyHeavyQuarkResidualNorm_over.
  rewrite decide_False by (intros Hne; done).
  unfold reduceCuda_over. fold no_writes. rewrite Hl. done.
Qed.

(** C8.  With three colours, compatible operands and a product
    [x.Volume() * comm_size()] that fits an [int]: what every process
    hands to the collective is its local sum over its sites, whose third
    component is the sum of the ratios, not divided; and for every
    collective, the sum-all-reduce or any other, the third component
    returned is the third component of what the collective hands back,
    divided by [x.Volume() * comm_size()].  The division is applied to
    the combined result and to nothing before it.  The same holds for
    the three-operand variant. *)
Theorem heavy_quark_ratio_after_combine
    (allreduce : list double3 -> double3) tp (x y r : handle)
    (W : world T) :
  Ncolor (self W x) = 3 -> valid_geometry tp = true ->
  - 2 ^ 31 <= Volume (self W x) * comm_size W < 2 ^ 31 ->
  (everywhere (fun s => compatible (s x) (s r)) W ->
   exists locals : list double3,
     local_results HeavyQuarkResidualNorm_.t no_writes true tp
       (make_double2 0 0) (make_double2 0 0) x r r r r W = Ok (locals, W)
     /\ locals = map (hq_local ox oy x r r r r) (processes W)
     /\ HeavyQuarkResidualNorm_over allreduce tp x r W
        = Ok (let rtn := allreduce locals in
              make_double3 (double3.x rtn) (double3.y rtn)
                (double3.z rtn / of_int (Volume (self W x) * comm_size W)),
              W)
     /\ HeavyQuarkResidualNorm tp x r W
        = Ok (let rtn := comm_allreduce locals in
              make_double3 (double3.x rtn) (double3.y rtn)
                (double3.z rtn / of_int (Volume (self W x) * comm_size W)),
              W))
  /\ (everywhere (fun s => compatible (s x) (s y) /\ compatible (s x) (s r))
                 W ->
      exists locals : list double3,
        local_results xpyHeavyQuarkResidualNorm_.t no_writes true tp
          (make_double2 0 0) (make_double2 0 0) x y r r r W = Ok (locals, W)
        /\ locals = map (hq_local (fun o => vplus (ox o) (oy o)) oz
                           x y r r r) (processes W)
        /\ xpyHeavyQuarkResidualNorm_over allreduce tp x y r W
           = Ok (let rtn := allreduce locals in
                 make_double3 (double3.x rtn) (double3.y rtn)
                   (double3.z rtn
                    / of_int (Volume (self W x) * comm_size W)),
                 W)
        /\ xpyHeavyQuarkResidualNorm tp x y r W
           = Ok (let rtn := comm_allreduce locals in
                 make_double3 (double3.x rtn) (double3.y rtn)
                   (double3.z rtn
                    / of_int (Volume (self W x) * comm_size W)),
                 W)).
Proof.
  intros Hn Hv Hb. split; intros Hc.
  - destruct (HeavyQuarkResidualNorm_over_locals allreduce tp x r W
                Hn Hv Hc) as [Hl Ha].
    destruct (HeavyQuarkResidualNorm_over_locals comm_allreduce tp x r W
                Hn Hv Hc) as [_ Hs].
    rewrite (int_mul_small _ _ Hb) in Ha, Hs.
    eexists. split; [exact Hl|]. split; [reflexivity|].
    split; [exact Ha|exact Hs].
  - destruct (xpyHeavyQuarkResidualNorm_over_locals allreduce tp x y r W
                Hn Hv Hc) as [Hl Ha].
    destruct (xpyHeavyQuarkResidualNorm_over_locals comm_allreduce tp x y r
                W Hn Hv Hc) as [_ Hs].
    rewrite (int_mul_small _ _ Hb) in Ha, Hs.
    eexists. split; [exact Hl|]. split; [reflexivity|].
    split; [exact Ha|exact Hs].
Qed.

(** C1.  When [x.Ncolor()] is not 3 both entry points return the zero
    triple and leave the memory as it is, whatever the other operands:
    no check and no kernel runs, and nothing is fatal. *)
Theorem HeavyQuarkResidualNorm_degenerate tp tp' (x r y r' : handle)
    (W : world T) :
  Ncolor (self W x) <> 3 ->
  HeavyQuarkResidualNorm tp x r W = Ok (make_double3 0 0 0, W)
  /\ xpyHeavyQuarkResidualNorm tp' x y r' W = Ok (make_double3 0 0 0, W).
Proof.
  intros Hn. unfold HeavyQuarkResidualNorm, xpyHeavyQuarkResidualNorm,
    HeavyQuarkResidualNorm_over, xpyHeavyQuarkResidualNorm_over.
  rewrite !decide_True by done. done.
Qed.

End HeavyQuarkEntries.

(** C10.  In both functors [post] adds the ratio [aux.y / aux.x] only
    when [aux.x] is strictly positive, and then the divisor is not zero;
    otherwise, and so when [aux.x] is zero, it adds the constant 1. *)
Theorem heavy_quark_post_guard (a b : double2) (ax ay az : double)
    (sum : double3) :
  let f := HeavyQuarkResidualNorm_.functor a b (make_double3 ax ay az) in
  let g := xpyHeavyQuarkResidualNorm_.functor a b (make_double3 ax ay az) in
  let f0 := HeavyQuarkResidualNorm_.functor a b (make_double3 0 ay az) in
  let g0 := xpyHeavyQuarkResidualNorm_.functor a b (make_double3 0 ay az) in
  let ratio := make_double3 (double3.x sum + ax) (double3.y sum + ay)
                            (double3.z sum + ay / ax) in
  let one := make_double3 (double3.x sum + ax) (double3.y sum + ay)
                          (double3.z sum + 1) in
  (((0 < ax)%Qc /\ ax <> 0%Qc
    /\ HeavyQuarkResidualNorm_.post f sum = ratio
    /\ xpyHeavyQuarkResidualNorm_.post g sum = ratio)
   \/ (~ (0 < ax)%Qc
       /\ HeavyQuarkResidualNorm_.post f sum = one
       /\ xpyHeavyQuarkResidualNorm_.post g sum = one))
  /\ HeavyQuarkResidualNorm_.post f0 sum
     = make_double3 (double3.x sum + 0) (double3.y sum + ay)
                    (double3.z sum + 1)
  /\ xpyHeavyQuarkResidualNorm_.post g0 sum
     = make_double3 (double3.x sum + 0) (double3.y sum + ay)
                    (double3.z sum + 1).
Proof.
  simpl. split; [|done].
  unfold HeavyQuarkResidualNorm_.post, xpyHeavyQuarkResidualNorm_.post, gt0.
  simpl. case_bool_decide as Hpos.
  - left. split; [done|]. split; [|done].
    intros Hz. apply (Qclt_not_eq _ _ Hpos). done.
  - right. done.
Qed.

(** ** The buffer manager *)

Module ReduceBufferFacts.
Import ReduceBuffer.

Lemma initReduce_fresh (c : config) fast (rt : runtime) hd re :
  cuda_error rt = false ->
  reduce_buffer_bytes c <= device_bytes_free rt ->
  reduce_buffer_bytes c <= host_bytes_free rt ->
  exists st1,
    initReduce c (mkGlobals 0 0 hd re fast, rt) = Ok st1
    /\ live st1 = true
    /\ cuda_error st1.2 = false
    /\ (endReduce st1).1
       = mkGlobals 0 0 0 (Z.pos (next_event rt)) (fast_reduce_enabled st1.1)
    /\ allocations (endReduce st1).2 = allocations rt
    /\ device_bytes_free (endReduce st1).2 = device_bytes_free rt
    /\ host_bytes_free (endReduce st1).2 = host_bytes_free rt
    /\ events (endReduce st1).2 = events rt.
Proof.
  intros He Hd Hh.
  destruct rt as [al na df hf ev ne ce wn]. simpl in *. subst ce.
  unfold initReduce. simpl.
  unfold device_malloc. simpl. rewrite bool_decide_eq_true_2 by done. simpl.
  unfold mapped_malloc, pinned_malloc, host_malloc. simpl.
  rewrite bool_decide_eq_true_2 by done.
  destruct (LP64 c && canMapHostMemory c); simpl;
    destruct (QUDA_ENABLE_FAST_REDUCE c) as [env|]; simpl;
    try destruct (String.eqb env "1"); simpl;
    (eexists; split; [reflexivity|]);
    unfold live, endReduce, device_free, host_free; simpl;
    repeat (case_decide; simplify_eq/=; try lia);
    repeat split; try done; try lia.
Qed.


Lemma endReduce_handles (st : state) :
  d_reduce (endReduce st).1 = 0 /\ h_reduce (endReduce st).1 = 0
  /\ hd_reduce (endReduce st).1 = 0.
Proof.
  destruct st as [[d h hd re fast] rt]. unfold endReduce. simpl.
  repeat case_decide; simpl; done.
Qed.

Lemma endReduce_cuda_error (st : state) :
  cuda_error (endReduce st).2 = cuda_error st.2.
Proof.
  destruct st as [[d h hd re fast] rt].
  unfold endReduce, device_free, host_free. simpl.
  repeat case_decide; simpl; repeat (destruct (release _ _); simpl); done.
Qed.

(** C5, as the code has it.  A second [initReduce] on a live buffer is
    not an error: the guards of lines 103 and 108 skip both allocations,
    the three handles and the memory stay as they are, and the call
    returns whenever the runtime holds no error. *)
Theorem initReduce_live_keeps_buffers (c : config) (st : state) :
  live st = true -> cuda_error st.2 = false ->
  exists st' : state,
    initReduce c st = Ok st'
    /\ d_reduce st'.1 = d_reduce st.1
    /\ h_reduce st'.1 = h_reduce st.1
    /\ hd_reduce st'.1 = hd_reduce st.1
    /\ allocations st'.2 = allocations st.2
    /\ device_bytes_free st'.2 = device_bytes_free st.2
    /\ host_bytes_free st'.2 = host_bytes_free st.2.
Proof.
  destruct st as [[d h hd re fast] [al na df hf ev ne ce wn]].
  unfold live. simpl. intros Hl ->.
  apply andb_true_iff in Hl as [Hd Hh].
  apply negb_true_iff, bool_decide_eq_false in Hd, Hh.
  unfold initReduce. simpl.
  rewrite (decide_False (P := d = 0)) by done. simpl.
  rewrite (decide_False (P := h = 0)) by done. simpl.
  destruct (QUDA_ENABLE_FAST_REDUCE c) as [env|]; simpl;
    try destruct (String.eqb env "1"); simpl;
    eexists; (split; [reflexivity|]); simpl; done.
Qed.

(** C6.  [endReduce] nulls the three handles; a second [endReduce]
    finds them null and changes neither them nor the memory; and from a
    state without buffers, with memory for them, [initReduce; endReduce;
    initReduce; endReduce] runs through: both [initReduce] return with a
    live buffer, and at the end the handles are null and the
    allocations, the free memory and the live events are those of the
    start, so that the manager can be started again. *)
Theorem endReduce_restart (c : config) (st : state) :
  (d_reduce (endReduce st).1 = 0 /\ h_reduce (endReduce st).1 = 0
   /\ hd_reduce (endReduce st).1 = 0)
  /\ ((endReduce (endReduce st)).1 = (endReduce st).1
      /\ allocations (endReduce (endReduce st)).2
         = allocations (endReduce st).2
      /\ device_bytes_free (endReduce (endReduce st)).2
         = device_bytes_free (endReduce st).2
      /\ host_bytes_free (endReduce (endReduce st)).2
         = host_bytes_free (endReduce st).2)
  /\ (d_reduce st.1 = 0 -> h_reduce st.1 = 0 ->
      cuda_error st.2 = false ->
      reduce_buffer_bytes c <= device_bytes_free st.2 ->
      reduce_buffer_bytes c <= host_bytes_free st.2 ->
      exists st1 st2 : state,
        initReduce c st = Ok st1 /\ live st1 = true
        /\ initReduce c (endReduce st1) = Ok st2 /\ live st2 = true
        /\ d_reduce (endReduce st2).1 = 0
        /\ h_reduce (endReduce st2).1 = 0
        /\ hd_reduce (endReduce st2).1 = 0
        /\ allocations (endReduce st2).2 = allocations st.2
        /\ device_bytes_free (endReduce st2).2 = device_bytes_free st.2
        /\ host_bytes_free (endReduce st2).2 = host_bytes_free st.2
        /\ events (endReduce st2).2 = events st.2
        /\ cuda_error (endReduce st2).2 = false).
Proof.
  split; [apply endReduce_handles|]. split.
  - destruct (endReduce_handles st) as (Hd & Hh & Hhd).
    destruct (endReduce st) as [[d h hd re fast] rt]. simpl in *. subst.
    unfold endReduce. simpl. done.
  - destruct st as [[d h hd re fast] rt]. cbn [fst snd d_reduce h_reduce].
    intros -> -> He Hd Hh.
    destruct (initReduce_fresh c fast rt hd re He Hd Hh)
      as (st1 & H1 & Hl1 & He1 & Hg1 & Ha1 & Hd1 & Hh1 & Hv1).
    pose proof (endReduce_cuda_error st1) as Hce1.
    destruct (endReduce st1) as [g1 rt1] eqn:E1.
    cbn [fst snd] in Hg1, Ha1, Hd1, Hh1, Hv1, Hce1. subst g1.
    destruct (initReduce_fresh c (fast_reduce_enabled st1.1) rt1 0
                (Z.pos (next_event rt)) ltac:(congruence) ltac:(lia)
                ltac:(lia))
      as (st2 & H2 & Hl2 & He2 & Hg2 & Ha2 & Hd2 & Hh2 & Hv2).
    exists st1, st2.
    split; [exact H1|]. split; [done|].
    split; [rewrite E1; exact H2|]. split; [done|].
    rewrite Hg2, endReduce_cuda_error. cbn [d_reduce h_reduce hd_reduce].
    repeat split; congruence.
Qed.

End ReduceBufferFacts.

(** ** Concrete runs *)

Example norm2_of_3 :
  option_map this
    (Examples.returned
       (norm2 Examples.tp22 0%nat
          (mkWorld (fun _ => Examples.field 3 1 [Examples.c2 3 0]) [])))
  = Some (9 # 1)%Q.
Proof. vm_compute. reflexivity. Qed.

Example norm1_of_3 :
  option_map this
    (Examples.returned
       (norm1 Examples.tp13 0%nat
          (mkWorld (fun _ => Examples.field 3 1 [Examples.c2 3 0]) [])))
  = Some (3 # 1)%Q.
Proof. vm_compute. reflexivity. Qed.

Example reDotProduct_of_12_34 :
  option_map this
    (Examples.returned
       (reDotProduct Examples.tp22 0%nat 1%nat
          (mkWorld (fun h => match h with
                             | O => Examples.field 3 1 [Examples.c2 1 2]
                             | _ => Examples.field 3 1 [Examples.c2 3 4]
                             end) [])))
  = Some (11 # 1)%Q.
Proof. vm_compute. reflexivity. Qed.

Example reDotProduct_incompatible :
  reDotProduct Examples.tp22 0%nat 3%nat Examples.two
  = Fatal (lengths_do_not_match 2 1).
Proof. vm_compute. reflexivity. Qed.

(** [z = 2*x + 3*y] on one process: the new [z] and its norm. *)
Example axpbyzNorm_of_rank0 :
  match axpbyzNorm Examples.tp22 (Qc_of_Z 2) 0%nat (Qc_of_Z 3) 1%nat 2%nat
          (mkWorld Examples.rank0 []) with
  | Ok (r, W') =>
      Some (this r,
            map (fun e => (this (double2.x e), this (double2.y e)))
                (data (self W' 2%nat)),
            map (fun e => (this (double2.x e), this (double2.y e)))
                (data (self W' 0%nat)))
  | Fatal _ => None
  end
  = Some ((534 # 1)%Q,
          [((11 # 1)%Q, (16 # 1)%Q); ((6 # 1)%Q, (11 # 1)%Q)],
          [((1 # 1)%Q, (2 # 1)%Q); ((3 # 1)%Q, (4 # 1)%Q)]).
Proof. vm_compute. reflexivity. Qed.

(** The two-process job: the squared norms 30 + 57 of [x] and 26 + 15
    of [y], and the real dot product -1 + 4 of [y] and [z]. *)
Example quadrupleCGReduction_of_two :
  option_map (fun r => (this (double4.x r), this (double4.y r),
                        this (double4.z r), this (double4.w r)))
    (Examples.returned
       (quadrupleCGReduction Examples.tp22 0%nat 1%nat 2%nat Examples.two))
  = Some ((87 # 1)%Q, (41 # 1)%Q, (3 # 1)%Q, (87 # 1)%Q).
Proof. vm_compute. reflexivity. Qed.

(** 2^30 sites on each of two processes: the [int] product wraps. *)
Example int_mul_wraps : int_mul (2 ^ 30) 2 = - 2 ^ 31.
Proof. vm_compute. reflexivity. Qed.

Example reduce_buffer_bytes_of_device :
  ReduceBuffer.reduce_buffer_bytes Examples.device = 4096.
Proof. vm_compute. reflexivity. Qed.

(** ** The theorems at concrete inputs *)

(** The coarse field 3 has 24 colours, and the residual 0 is not
    compatible with it: the dispatch itself would abort. *)
Lemma HeavyQuarkResidualNorm_degenerate_witness :
  Ncolor (self Examples.two 3%nat) <> 3
  /\ reduceCuda HeavyQuarkResidualNorm_.t no_writes true Examples.tp22
       (make_double2 0 0) (make_double2 0 0) 3%nat 0%nat 0%nat 0%nat 0%nat
       Examples.two
     = (Fatal (lengths_do_not_match 1 2) : outcome (double3 * world double2))
  /\ HeavyQuarkResidualNorm Examples.tp22 3%nat 0%nat Examples.two
     = Ok (make_double3 0 0 0, Examples.two)
  /\ xpyHeavyQuarkResidualNorm Examples.tp13 3%nat 1%nat 0%nat Examples.two
     = Ok (make_double3 0 0 0, Examples.two).
Proof.
  split; [vm_compute; discriminate|].
  split; [vm_compute; reflexivity|].
  apply (HeavyQuarkResidualNorm_degenerate (T := double2)).
  vm_compute. discriminate.
Defined.


Lemma norm2_is_reDotProduct_witness :
  norm2 Examples.tp22 0%nat Examples.two
  = reDotProduct Examples.tp13 0%nat 0%nat Examples.two.
Proof.
  apply (norm2_is_reDotProduct (T := double2)); reflexivity.
Defined.

Lemma cDotProduct_conjugate_symmetry_witness :
  exists c : Complex,
    cDotProduct Examples.tp22 0%nat 1%nat Examples.two = Ok (c, Examples.two)
    /\ cDotProduct Examples.tp13 1%nat 0%nat Examples.two
       = Ok (conj c, Examples.two).
Proof.
  apply (cDotProduct_conjugate_symmetry (T := double2)).
  - reflexivity.
  - reflexivity.
  - repeat constructor.
Defined.

Lemma quadrupleCGReduction_components_witness :
  exists nx ny dyz : double,
    nx = global (fun s => field_norm2 (s 0%nat)) Examples.two
    /\ ny = global (fun s => field_norm2 (s 1%nat)) Examples.two
    /\ dyz = global (fun s => field_dot (s 1%nat) (s 2%nat)) Examples.two
    /\ quadrupleCGReduction Examples.tp22 0%nat 1%nat 2%nat Examples.two
       = Ok (make_double4 nx ny dyz nx, Examples.two)
    /\ norm2 Examples.tp13 0%nat Examples.two = Ok (nx, Examples.two)
    /\ norm2 Examples.tp22 1%nat Examples.two = Ok (ny, Examples.two)
    /\ reDotProduct Examples.tp13 1%nat 2%nat Examples.two
       = Ok (dyz, Examples.two).
Proof.
  apply (quadrupleCGReduction_components (T := double2)).
  - reflexivity.
  - reflexivity.
  - reflexivity.
  - reflexivity.
  - repeat constructor.
Defined.

(** The collective of the run is one that is not the sum: it hands
    back the local result of the last process. *)
Lemma heavy_quark_ratio_after_combine_witness :
  exists locals : list double3,
    local_results HeavyQuarkResidualNorm_.t no_writes true Examples.tp22
      (make_double2 0 0) (make_double2 0 0) 0%nat 1%nat 1%nat 1%nat 1%nat
      Examples.two = Ok (locals, Examples.two)
    /\ locals = map (hq_local ox oy 0%nat 1%nat 1%nat 1%nat 1%nat)
                    (processes Examples.two)
    /\ HeavyQuarkResidualNorm_over (fun l => last l rzero) Examples.tp22
         0%nat 1%nat Examples.two
       = Ok (let rtn := last locals rzero in
             make_double3 (double3.x rtn) (double3.y rtn)
               (double3.z rtn
                / of_int (Volume (self Examples.two 0%nat)
                          * comm_size Examples.two)),
             Examples.two)
    /\ HeavyQuarkResidualNorm Examples.tp22 0%nat 1%nat Examples.two
       = Ok (let rtn := comm_allreduce locals in
             make_double3 (double3.x rtn) (double3.y rtn)
               (double3.z rtn
                / of_int (Volume (self Examples.two 0%nat)
                          * comm_size Examples.two)),
             Examples.two).
Proof.
  refine (proj1 (heavy_quark_ratio_after_combine (T := double2)
                   (fun l => last l rzero)
                   Examples.tp22 0%nat 2%nat 1%nat Examples.two
                   eq_refl eq_refl _) _).
  - vm_compute. split; [discriminate|reflexivity].
  - repeat constructor.
Defined.

Lemma pure_reductions_write_nothing_witness :
  (exists r, norm1 Examples.tp22 0%nat Examples.two = Ok (r, Examples.two))
  /\ (exists r, norm2 Examples.tp22 0%nat Examples.two
                = Ok (r, Examples.two)).
Proof.
  pose proof (pure_reductions_write_nothing (T := double2) Examples.tp22
                0%nat 1%nat Examples.two) as (_ & _ & H1 & H2 & _).
  split; [exact H1|exact H2].
Defined.

(** The heavy-quark norm of the two-process job: the norms 30 + 57 and
    26 + 15, and the ratio sum 26/30 + 15/57 divided by 1 * 2. *)
Example HeavyQuarkResidualNorm_of_two :
  option_map (fun r => (this (double3.x r), this (double3.y r),
                        this (double3.z r)))
    (Examples.returned
       (HeavyQuarkResidualNorm Examples.tp22 0%nat 1%nat Examples.two))
  = Some ((87 # 1)%Q, (41 # 1)%Q, (161 # 285)%Q).
Proof. vm_compute. reflexivity. Qed.

(** An all-zero solution: the site adds the constant 1 to the ratio
    sum, and nothing is divided by zero. *)
Example HeavyQuarkResidualNorm_of_zero_solution :
  option_map (fun r => (this (double3.x r), this (double3.y r),
                        this (double3.z r)))
    (Examples.returned
       (HeavyQuarkResidualNorm Examples.tp13 0%nat 1%nat
          (mkWorld (fun h => match h with
                             | O => Examples.field 3 1 [Examples.c2 0 0]
                             | _ => Examples.field 3 1 [Examples.c2 3 4]
                             end) [])))
  = Some ((0 # 1)%Q, (25 # 1)%Q, (1 # 1)%Q).
Proof. vm_compute. reflexivity. Qed.

Module ReduceBufferRuns.
Import ReduceBuffer.

(** C5 does not hold as stated: after one [initReduce] the buffer is
    live, and a second [initReduce] returns; it is not fatal. *)
Lemma initReduce_twice_is_not_fatal :
  initReduce Examples.device Examples.fresh = Ok Examples.live_state
  /\ live Examples.live_state = true
  /\ is_fatal (initReduce Examples.device Examples.live_state) = false
  /\ exists st2 : state,
       initReduce Examples.device Examples.live_state = Ok st2.
Proof.
  split; [vm_compute; reflexivity|]. split; [reflexivity|].
  split; [vm_compute; reflexivity|].
  eexists. vm_compute. reflexivity.
Qed.

Lemma initReduce_live_keeps_buffers_witness :
  live Examples.live_state = true /\ cuda_error Examples.live_state.2 = false
  /\ exists st' : state,
       initReduce Examples.device Examples.live_state = Ok st'
       /\ d_reduce st'.1 = d_reduce Examples.live_state.1
       /\ h_reduce st'.1 = h_reduce Examples.live_state.1
       /\ hd_reduce st'.1 = hd_reduce Examples.live_state.1
       /\ allocations st'.2 = allocations Examples.live_state.2
       /\ device_bytes_free st'.2 = device_bytes_free Examples.live_state.2
       /\ host_bytes_free st'.2 = host_bytes_free Examples.live_state.2.
Proof.
  split; [reflexivity|]. split; [reflexivity|].
  apply (ReduceBufferFacts.initReduce_live_keeps_buffers Examples.device
           Examples.live_state); reflexivity.
Defined.

Lemma endReduce_restart_witness :
  exists st1 st2 : state,
    initReduce Examples.device Examples.fresh = Ok st1 /\ live st1 = true
    /\ initReduce Examples.device (endReduce st1) = Ok st2
    /\ live st2 = true
    /\ d_reduce (endReduce st2).1 = 0
    /\ h_reduce (endReduce st2).1 = 0
    /\ hd_reduce (endReduce st2).1 = 0
    /\ allocations (endReduce st2).2 = allocations Examples.fresh.2
    /\ device_bytes_free (endReduce st2).2
       = device_bytes_free Examples.fresh.2
    /\ host_bytes_free (endReduce st2).2 = host_bytes_free Examples.fresh.2
    /\ events (endReduce st2).2 = events Examples.fresh.2
    /\ cuda_error (endReduce st2).2 = false.
Proof.
  apply (ReduceBufferFacts.endReduce_restart Examples.device Examples.fresh).
  - reflexivity.
  - reflexivity.
  - reflexivity.
  - vm_compute. discriminate.
  - vm_compute. discriminate.
Defined.

End ReduceBufferRuns.

(** * Further properties *)

(** ** Arithmetic of the element types *)

Lemma Qc_square_nonneg (a : Qc) : (0 <= a * a)%Qc.
Proof.
  assert (Hp : forall b : Qc, (0 <= b)%Qc -> (0 <= b * b)%Qc).
  { intros b Hb. pose proof (Qcmult_le_compat_r 0 b b Hb Hb) as Hm.
    rewrite Qcmult_0_l in Hm. done. }
  destruct (Qclt_le_dec a 0) as [Hn|Hn]; [|auto].
  replace (a * a)%Qc with ((- a) * (- a))%Qc by ring.
  apply Hp. apply Qclt_le_weak, Qcopp_le_compat in Hn.
  replace (- 0)%Qc with 0%Qc in Hn by ring. done.
Qed.

Lemma Qc_plus_nonneg (p q : Qc) :
  (0 <= p)%Qc -> (0 <= q)%Qc -> (0 <= p + q)%Qc.
Proof.
  intros Hp Hq. pose proof (Qcplus_le_compat 0 p 0 q Hp Hq) as Hs.
  rewrite Qcplus_0_l in Hs. done.
Qed.

Lemma Qc_plus_zero (p q : Qc) :
  (0 <= p)%Qc -> (0 <= q)%Qc -> (p + q)%Qc = 0%Qc -> p = 0%Qc /\ q = 0%Qc.
Proof.
  intros Hp Hq Hs.
  assert (Hp0 : p = 0%Qc).
  { apply Qcle_antisym; [|done]. rewrite <- Hs.
    pose proof (Qcplus_le_compat p p 0 q (Qcle_refl p) Hq) as Hm.
    rewrite Qcplus_0_r in Hm. done. }
  split; [done|]. rewrite Hp0, Qcplus_0_l in Hs. done.
Qed.

Lemma Qc_square_zero (a : Qc) : (a * a)%Qc = 0%Qc -> a = 0%Qc.
Proof. intros Ha. destruct (Qcmult_integral _ _ Ha); done. Qed.

Lemma fabs_nonneg (a : double) : (0 <= fabs a)%Qc.
Proof.
  unfold fabs. case_bool_decide as Hn.
  - apply Qclt_le_weak, Qcopp_le_compat in Hn.
    replace (- 0)%Qc with 0%Qc in Hn by ring. done.
  - apply Qcnot_lt_le. done.
Qed.

#[export] Instance double2_FloatNAlgebra : FloatNAlgebra double2.
Proof.
  split; [intros; simpl ..|].
  - destruct u; simpl; f_equal; ring.
  - destruct u; simpl; f_equal; ring.
  - destruct d; simpl; f_equal; ring.
  - ring.
  - ring.
  - ring.
  - ring.
  - f_equal; ring.
  - destruct y; simpl; f_equal; ring.
  - apply Qc_plus_nonneg; apply fabs_nonneg.
  - rewrite Qcplus_0_l. apply Qc_plus_nonneg; apply Qc_square_nonneg.
  - intros a Ha. simpl in Ha. rewrite Qcplus_0_l in Ha.
    destruct (Qc_plus_zero _ _ (Qc_square_nonneg _) (Qc_square_nonneg _) Ha)
      as [Hx Hy].
    apply Qc_square_zero in Hx, Hy. destruct a; simpl in *. subst. done.
Qed.

#[export] Instance float4_FloatNAlgebra : FloatNAlgebra float4.
Proof.
  split; [intros; simpl ..|].
  - destruct u; simpl; f_equal; ring.
  - destruct u; simpl; f_equal; ring.
  - destruct d; simpl; f_equal; ring.
  - ring.
  - ring.
  - ring.
  - ring.
  - f_equal; ring.
  - destruct y; simpl; f_equal; ring.
  - repeat apply Qc_plus_nonneg; apply fabs_nonneg.
  - rewrite Qcplus_0_l. repeat apply Qc_plus_nonneg; apply Qc_square_nonneg.
  - intros a Ha. simpl in Ha. rewrite Qcplus_0_l in Ha.
    destruct (Qc_plus_zero _ _
                (Qc_plus_nonneg _ _
                   (Qc_plus_nonneg _ _ (Qc_square_nonneg _)
                      (Qc_square_nonneg _)) (Qc_square_nonneg _))
                (Qc_square_nonneg _) Ha) as [H3 Hw].
    destruct (Qc_plus_zero _ _
                (Qc_plus_nonneg _ _ (Qc_square_nonneg _)
                   (Qc_square_nonneg _)) (Qc_square_nonneg _) H3)
      as [H2 Hz].
    destruct (Qc_plus_zero _ _ (Qc_square_nonneg _) (Qc_square_nonneg _) H2)
      as [Hx Hy].
    apply Qc_square_zero in Hx, Hy, Hz, Hw.
    destruct a; simpl in *. subst. done.
Qed.

(** ** What a dispatch stores *)

Lemma set_data_set_data {T} (a : ColorSpinorField T) (d d' : list T) :
  set_data (set_data a d) d' = set_data a d'.
Proof. done. Qed.

Lemma stored_stored {T} (slot slot' : operands T -> T) out
    (a : ColorSpinorField T) :
  stored slot' out (stored slot out a) = stored slot' out a.
Proof.
  unfold stored. rewrite set_data_set_data. simpl. f_equal. f_equal.
  apply drop_app_length'. rewrite length_map. done.
Qed.

Lemma stored_same_shape {T} (slot : operands T -> T) out
    (a : ColorSpinorField T) :
  (length out <= length (data a))%nat -> same_shape a (stored slot out a).
Proof.
  intros Hl. unfold same_shape, stored, Length. simpl.
  repeat split. rewrite length_app, length_map, length_drop. lia.
Qed.

Section Stores.
Context {R T F : Type} `{ReduceType R} `{!ReduceFunctor R T F}.

Lemma store_operand_lookup flag h (slot : operands T -> T) out (s : store T)
    (k : handle) :
  store_operand flag h slot out s k
  = if flag && bool_decide (k = h) then stored slot out (s k) else s k.
Proof.
  unfold store_operand, upd, stored. destruct flag; simpl; [|done].
  case_bool_decide; case_decide; try done. subst. done.
Qed.

(** The operand stored last wins when a field is bound to several
    written slots. *)
Lemma store_operands_lookup wr x y z w v out (s : store T) (k : handle) :
  store_operands wr x y z w v out s k
  = if writeV wr && bool_decide (k = v) then stored ov out (s k)
    else if writeW wr && bool_decide (k = w) then stored ow out (s k)
    else if writeZ wr && bool_decide (k = z) then stored oz out (s k)
    else if writeY wr && bool_decide (k = y) then stored oy out (s k)
    else if writeX wr && bool_decide (k = x) then stored ox out (s k)
    else s k.
Proof.
  unfold store_operands. rewrite !store_operand_lookup.
  destruct (writeV wr && bool_decide (k = v)),
    (writeW wr && bool_decide (k = w)),
    (writeZ wr && bool_decide (k = z)),
    (writeY wr && bool_decide (k = y)),
    (writeX wr && bool_decide (k = x));
    rewrite ?stored_stored; done.
Qed.

Lemma load_operands_length x y z w v (s : store T) :
  operands_compatible x y z w v s ->
  length (load_operands x y z w v s) = length (data (s x)).
Proof.
  intros Hc. destruct (load_operands_slots x y z w v s Hc) as (Hx & _).
  rewrite <- Hx, length_map. done.
Qed.

Lemma stored_all (slot : operands T -> T) (u : operands T -> operands T)
    (ops : list (operands T)) (a : ColorSpinorField T) :
  length ops = length (data a) ->
  stored slot (map u ops) a = set_data a (map (fun o => slot (u o)) ops).
Proof.
  intros Hl. unfold stored. rewrite drop_ge, app_nil_r, map_map; [done|].
  rewrite length_map. lia.
Qed.

(** The fields of a process after a dispatch on compatible operands. *)
Lemma local_store_lookup wr (u : operands T -> operands T) x y z w v
    (s : store T) (k : handle) :
  operands_compatible x y z w v s ->
  local_store wr u x y z w v s k
  = let ops := load_operands x y z w v s in
    if writeV wr && bool_decide (k = v)
    then set_data (s k) (map (fun o => ov (u o)) ops)
    else if writeW wr && bool_decide (k = w)
    then set_data (s k) (map (fun o => ow (u o)) ops)
    else if writeZ wr && bool_decide (k = z)
    then set_data (s k) (map (fun o => oz (u o)) ops)
    else if writeY wr && bool_decide (k = y)
    then set_data (s k) (map (fun o => oy (u o)) ops)
    else if writeX wr && bool_decide (k = x)
    then set_data (s k) (map (fun o => ox (u o)) ops)
    else s k.
Proof.
  intros Hc. pose proof (load_operands_length x y z w v s Hc) as Hl.
  destruct Hc as (Hy & Hz & Hw & Hv).
  apply compatible_length in Hy, Hz, Hw, Hv.
  unfold local_store. rewrite store_operands_lookup. cbv zeta.
  repeat match goal with
  | |- context [?b && bool_decide (k = ?h)] =>
      destruct b; simpl;
      [case_bool_decide; [subst k; apply stored_all; congruence|]|]
  end; done.
Qed.

Lemma local_store_same_shape wr (u : operands T -> operands T) x y z w v
    (s : store T) (k : handle) :
  operands_compatible x y z w v s ->
  same_shape (s k) (local_store wr u x y z w v s k).
Proof.
  intros Hc. pose proof (load_operands_length x y z w v s Hc) as Hl.
  destruct Hc as (Hy & Hz & Hw & Hv).
  apply compatible_length in Hy, Hz, Hw, Hv.
  unfold local_store. rewrite store_operands_lookup.
  assert (Hsame : same_shape (s k) (s k)) by (repeat split).
  repeat match goal with
  | |- context [?b && bool_decide (k = ?h)] =>
      destruct b; simpl;
      [case_bool_decide;
       [subst k; apply stored_same_shape; rewrite length_map; lia|]|]
  end; done.
Qed.

Lemma local_store_compatible wr (u : operands T -> operands T) x y z w v
    (s : store T) (h k : handle) :
  operands_compatible x y z w v s ->
  compatible (s h) (s k) ->
  compatible (local_store wr u x y z w v s h)
             (local_store wr u x y z w v s k).
Proof.
  intros Hc (Hp & Hl & Hs).
  destruct (local_store_same_shape wr u x y z w v s h Hc)
    as (Hp1 & Hs1 & _ & _ & Hl1).
  destruct (local_store_same_shape wr u x y z w v s k Hc)
    as (Hp2 & Hs2 & _ & _ & Hl2).
  repeat split; congruence.
Qed.

(** A relation between the stores before and after, on every process. *)
Lemma world_store_Forall2 (P : store T -> Prop)
    (Q : store T -> store T -> Prop) wr (u : operands T -> operands T)
    x y z w v (W : world T) :
  everywhere P W ->
  (forall s, P s -> Q s (local_store wr u x y z w v s)) ->
  Forall2 Q (processes W) (processes (world_store wr u x y z w v W)).
Proof.
  intros [Hs Hp] HQ. unfold processes, world_store. simpl.
  constructor; [auto|].
  apply Forall2_fmap_r, Forall_Forall2_diag.
  eapply Forall_impl; [|exact Hp]. auto.
Qed.

Lemma everywhere_world_store (P Q : store T -> Prop) wr
    (u : operands T -> operands T) x y z w v (W : world T) :
  everywhere P W ->
  (forall s, P s -> Q (local_store wr u x y z w v s)) ->
  everywhere Q (world_store wr u x y z w v W).
Proof.
  intros [Hs Hp] HQ. split; simpl; [auto|].
  apply Forall_fmap. eapply Forall_impl; [|exact Hp]. auto.
Qed.

End Stores.

(** A quantity of the new stores, summed over the processes. *)
Lemma global_world_store {T R} `{ReduceType R} (P : store T -> Prop)
    (q q' : store T -> R) wr (u : operands T -> operands T) x y z w v
    (W : world T) :
  everywhere P W ->
  (forall s, P s -> q s = q' (local_store wr u x y z w v s)) ->
  global q W = global q' (world_store wr u x y z w v W).
Proof.
  intros [Hs Hp] Hq. unfold global. f_equal.
  unfold processes, world_store. cbn [self peers map].
  f_equal; [auto|]. rewrite map_map.
  apply Forall_fmap_ext_1. eapply Forall_impl; [|exact Hp]. auto.
Qed.

Lemma map_slots3 {A B C D E} (f1 : A -> B) (f2 : A -> C) (f3 : A -> D)
    (g : B -> C -> D -> E) (l : list A) :
  map (fun o => g (f1 o) (f2 o) (f3 o)) l
  = zip_with3 g (map f1 l) (map f2 l) (map f3 l).
Proof. induction l as [|o l IH]; simpl; [done|]. rewrite IH. done. Qed.

(** ** Functors with members that [operator()] assigns *)

Section Stateful.
Context {R T F : Type} `{ReduceLaws R} `{!ReduceFunctor R T F}.

Lemma m_loop_additive_on I c u (f : F) (sum : R)
    (site : list (operands T)) :
  element_additive_on I c u -> I f ->
  exists f',
    m_loop f sum site
    = (f', rplus sum (sum_partials (map c site)), map u site) /\ I f'.
Proof.
  intros (_ & _ & Hcall). revert f sum.
  induction site as [|o site IH]; intros f sum Hf; simpl.
  - exists f. rewrite rplus_zero_r. done.
  - destruct (Hcall f sum o Hf) as (f1 & -> & Hf1).
    destruct (IH f1 (rplus sum (c o)) Hf1) as (f2 & -> & Hf2).
    exists f2. split; [|done].
    fold (sum_partials (map c site)). rewrite rplus_assoc. done.
Qed.

Lemma element_additive_on_site I c u :
  element_additive_on I c u ->
  site_additive I (fun site => sum_partials (map c site)) (map u).
Proof.
  intros Hel f sum site Hf. unfold site_body.
  pose proof Hel as (Hpre & Hpost & _).
  destruct (m_loop_additive_on I c u (pre f) sum site Hel (Hpre f Hf))
    as (f' & -> & Hf').
  exists f'. rewrite Hpost by done. done.
Qed.

Lemma local_reduce_additive_on I wr tp a b c u x y z w v (s : store T) :
  valid_geometry tp = true ->
  element_additive_on I c u -> I (construct F a b) ->
  operands_compatible x y z w v s ->
  local_reduce F wr false tp a b x y z w v s
  = Ok (local_sum c x y z w v s, local_store wr u x y z w v s).
Proof.
  intros Hv Hel HI Hc.
  rewrite (local_reduce_site_additive _ _ _ wr false tp a b x y z w v s Hv
             (element_additive_on_site _ c u Hel) HI Hc).
  unfold kernel_sites. rewrite sites_of_elements, !map_map. simpl.
  unfold local_sum, local_store. do 2 f_equal.
  - f_equal. apply map_ext. intros o. apply rplus_zero_r.
  - f_equal. apply concat_elements.
Qed.

Lemma peers_reduce_additive_on I wr tp a b c u x y z w v
    (ps : list (store T)) :
  valid_geometry tp = true ->
  element_additive_on I c u -> I (construct F a b) ->
  Forall (operands_compatible x y z w v) ps ->
  peers_reduce F wr false tp a b x y z w v ps
  = Ok (map (local_sum c x y z w v) ps,
        map (local_store wr u x y z w v) ps).
Proof.
  intros Hv Hel HI. induction 1 as [|p ps Hp _ IH]; simpl; [done|].
  rewrite (local_reduce_additive_on I wr tp a b c u) by done. simpl.
  rewrite IH. done.
Qed.

Lemma reduceCuda_additive_on I wr tp a b c u x y z w v (W : world T) :
  valid_geometry tp = true ->
  element_additive_on I c u -> I (construct F a b) ->
  everywhere (operands_compatible x y z w v) W ->
  reduceCuda F wr false tp a b x y z w v W
  = Ok (global (local_sum c x y z w v) W, world_store wr u x y z w v W).
Proof.
  intros Hv Hel HI [Hs Hp]. unfold reduceCuda, local_results.
  rewrite (local_reduce_additive_on I wr tp a b c u) by done. simpl.
  rewrite (peers_reduce_additive_on I wr tp a b c u) by done. done.
Qed.

End Stateful.

(** ** The compatibility checks *)

(** X1.  [checkSpinor] is the precision test followed by [checkLength]:
    it passes exactly when the precisions agree and [checkLength]
    passes, which it does exactly when length and stride agree; with
    equal precisions the two checks give the same outcome, error
    included; and a precision mismatch is the error reported whatever
    the lengths and strides. *)
Theorem checkSpinor_checkLength {T} (a b : ColorSpinorField T) :
  (checkLength a b = Ok tt <-> Length a = Length b /\ Stride a = Stride b)
  /\ (checkSpinor a b = Ok tt
      <-> Precision a = Precision b /\ checkLength a b = Ok tt)
  /\ (Precision a = Precision b -> checkSpinor a b = checkLength a b)
  /\ (Precision a <> Precision b ->
      checkSpinor a b
      = Fatal (precisions_do_not_match (Precision a) (Precision b))).
Proof.
  unfold checkSpinor, checkLength.
  destruct (decide (Precision a <> Precision b)) as [Hp|Hp];
    destruct (decide (Length a <> Length b)) as [Hl|Hl];
    destruct (decide (Stride a <> Stride b)) as [Hs|Hs];
    try apply dec_stable in Hp; try apply dec_stable in Hl;
    try apply dec_stable in Hs;
    repeat split; try done; try tauto;
    try (intros [? ?]; done); try (intros (? & ? & ?); done).
Qed.

(** X2.  [Caxpy_] with the coefficient [-a] takes back [Caxpy_] with
    the coefficient [a], in both overloads: [y += a*x] followed by
    [y -= a*x] gives the [y] of the start. *)
Theorem Caxpy_undo :
  (forall a x y : double2,
     @Caxpy_ double2 FloatN_double2 (neg2 a) x (Caxpy_ a x y) = y)
  /\ (forall (a : double2) (x y : float4),
        @Caxpy_ float4 FloatN_float4 (neg2 a) x (Caxpy_ a x y) = y).
Proof. split; intros a x y; apply Caxpy_neg. Qed.

(** X3.  With a coefficient of imaginary part zero the complex update
    [Caxpy_] is the real update [y + a.x*x], in both overloads. *)
Theorem Caxpy_real_coefficient :
  (forall (c : double) (x y : double2),
     @Caxpy_ double2 FloatN_double2 (make_double2 c 0) x y
     = vplus y (vscale c x))
  /\ (forall (c : double) (x y : float4),
        @Caxpy_ float4 FloatN_float4 (make_double2 c 0) x y
        = vplus y (vscale c x)).
Proof. split; intros c x y; apply Caxpy_real. Qed.

(** ** More on the buffer manager *)

Module ReduceBufferMore.
Import ReduceBuffer.

Lemma wrap_int_small (n : Z) : - 2 ^ 31 <= n < 2 ^ 31 -> wrap_int n = n.
Proof. intros Hn. unfold wrap_int. rewrite Z.mod_small; lia. Qed.

(** X4.  The size of the reduction buffer: as long as the products of
    lines 95-98 fit an [int], it is 128 * MAX_MULTI_BLAS_N^2 *
    multiProcessorCount bytes (the multi-reduction size, which is never
    the smaller of the two). *)
Theorem reduce_buffer_bytes_formula (c : config) :
  1 <= multiProcessorCount c -> 1 <= MAX_MULTI_BLAS_N c ->
  128 * (MAX_MULTI_BLAS_N c * MAX_MULTI_BLAS_N c) * multiProcessorCount c
    < 2 ^ 31 ->
  reduce_buffer_bytes c
  = 128 * (MAX_MULTI_BLAS_N c * MAX_MULTI_BLAS_N c) * multiProcessorCount c.
Proof.
  intros Hm Hn Hb. unfold reduce_buffer_bytes, sizeof_QudaSumFloat.
  set (N := MAX_MULTI_BLAS_N c) in *.
  set (m := multiProcessorCount c) in *.
  assert (HNN : 1 <= N * N) by nia.
  assert (Hm1 : m <= N * N * m) by nia.
  assert (HN1 : N <= N * N) by nia.
  assert (HNm : N * N <= N * N * m) by nia.
  rewrite (wrap_int_small (4 * 8)) by lia.
  rewrite (wrap_int_small (2 * m)) by lia.
  rewrite (wrap_int_small (2 * (2 * m))) by lia.
  rewrite (wrap_int_small (2 * (2 * m) * (4 * 8))) by lia.
  rewrite (wrap_int_small (2 * N)) by lia.
  rewrite (wrap_int_small (2 * N * N)) by lia.
  rewrite (wrap_int_small (2 * N * N * (2 * m))) by lia.
  rewrite (wrap_int_small (2 * N * N * (2 * m) * (4 * 8))) by lia.
  rewrite bool_decide_eq_false_2 by lia.
  unfold to_size_t. rewrite Z.mod_small; lia.
Qed.

Lemma malloc_events k bytes (rt rt' : runtime) p :
  (device_malloc bytes rt = Ok (p, rt')
   \/ host_malloc k bytes rt = Ok (p, rt')) ->
  events rt' = events rt /\ next_event rt' = next_event rt
  /\ cuda_error rt' = cuda_error rt.
Proof.
  unfold device_malloc, host_malloc.
  intros [Hm|Hm]; case_bool_decide; try discriminate;
    injection Hm as _ <-; done.
Qed.

Lemma host_buffer_events (c : config) (g : globals) (d : Z)
    (rt1 rt2 : runtime) (h hd : Z) :
  (if decide (h_reduce g = 0)
   then
     '(h, hd, rt) ←
       (if LP64 c && canMapHostMemory c
        then '(h, rt) ← mapped_malloc (reduce_buffer_bytes c) rt1;
             Ok (h, device_pointer c h, rt)
        else '(h, rt) ← pinned_malloc (reduce_buffer_bytes c) rt1;
             Ok (h, d, rt));
     Ok (h, hd, memset_zero h rt)
   else Ok (h_reduce g, hd_reduce g, rt1)) = Ok (h, hd, rt2) ->
  events rt2 = events rt1 /\ next_event rt2 = next_event rt1
  /\ cuda_error rt2 = cuda_error rt1.
Proof.
  destruct (decide (h_reduce g = 0)) as [Hh|Hh];
    [|intros Heq; injection Heq as _ _ <-; done].
  unfold mapped_malloc, pinned_malloc.
  destruct (LP64 c && canMapHostMemory c).
  - destruct (host_malloc mapped_mem (reduce_buffer_bytes c) rt1)
      as [[h' rt']|e] eqn:Hm; cbn [mbind outcome_bind]; [|discriminate].
    intros Heq. injection Heq as _ _ <-.
    destruct (malloc_events mapped_mem _ _ _ _ (or_intror Hm))
      as (? & ? & ?). done.
  - destruct (host_malloc pinned_mem (reduce_buffer_bytes c) rt1)
      as [[h' rt']|e] eqn:Hm; cbn [mbind outcome_bind]; [|discriminate].
    intros Heq. injection Heq as _ _ <-.
    destruct (malloc_events pinned_mem _ _ _ _ (or_intror Hm))
      as (? & ? & ?). done.
Qed.

Lemma initReduce_inv (c : config) (g : globals) (rt : runtime) (st' : state) :
  initReduce c (g, rt) = Ok st' ->
  exists d h hd rt1,
    (if decide (d_reduce g = 0)
     then device_malloc (reduce_buffer_bytes c) rt
     else Ok (d_reduce g, rt)) = Ok (d, rt1)
    /\ exists rt2,
         (if decide (h_reduce g = 0)
          then
            '(h, hd, rt) ←
              (if LP64 c && canMapHostMemory c
               then '(h, rt) ← mapped_malloc (reduce_buffer_bytes c) rt1;
                    Ok (h, device_pointer c h, rt)
               else '(h, rt) ← pinned_malloc (reduce_buffer_bytes c) rt1;
                    Ok (h, d, rt));
            Ok (h, hd, memset_zero h rt)
          else Ok (h_reduce g, hd_reduce g, rt1)) = Ok (h, hd, rt2)
         /\ cuda_error rt2 = false
         /\ st'.1
            = mkGlobals d h hd (Z.pos (next_event rt2))
                (fast_reduce_enabled g || fast_reduce_requested c)
         /\ allocations st'.2 = allocations rt2
         /\ next_address st'.2 = next_address rt2
         /\ device_bytes_free st'.2 = device_bytes_free rt2
         /\ host_bytes_free st'.2 = host_bytes_free rt2
         /\ events st'.2 = Z.pos (next_event rt2) :: events rt2
         /\ next_event st'.2 = Pos.succ (next_event rt2)
         /\ cuda_error st'.2 = false.
Proof.
  unfold initReduce. cbv zeta.
  destruct (if decide (d_reduce g = 0) then _ else _) as [[d rt1]|e];
    [|done].
  cbn [mbind outcome_bind].
  destruct (if decide (h_reduce g = 0) then _ else _)
    as [[[h hd] rt2]|e] eqn:Hh; [|cbn [mbind outcome_bind]; done].
  cbn [mbind outcome_bind cudaEventCreateWithFlags].
  intros Hst. exists d, h, hd, rt1. split; [done|]. exists rt2.
  split; [exact Hh|].
  unfold fast_reduce_requested.
  destruct (QUDA_ENABLE_FAST_REDUCE c) as [env|];
    [destruct (String.eqb env "1")|];
    unfold checkCudaError, warningQuda, with_events in Hst;
    cbn [cuda_error] in Hst;
    destruct (cuda_error rt2) eqn:Hce; try discriminate;
    cbn [mbind outcome_bind] in Hst; injection Hst as <-;
    cbn [fst snd allocations next_address device_bytes_free
         host_bytes_free events next_event cuda_error];
    rewrite ?orb_true_r, ?orb_false_r; done.
Qed.

Lemma initReduce_events (c : config) (st st' : state) :
  initReduce c st = Ok st' ->
  events st'.2 = Z.pos (next_event st.2) :: events st.2
  /\ reduceEnd st'.1 = Z.pos (next_event st.2)
  /\ next_event st'.2 = Pos.succ (next_event st.2).
Proof.
  destruct st as [g rt]. intros Hst.
  destruct (initReduce_inv c g rt st' Hst)
    as (d & h & hd & rt1 & Hd & rt2 & Hh & _ & Hg & _ & _ & _ & _ & He
        & Hne & _).
  assert (H1 : events rt1 = events rt /\ next_event rt1 = next_event rt).
  { destruct (decide (d_reduce g = 0));
      [|injection Hd as _ <-; done].
    destruct (malloc_events device_mem _ _ _ _ (or_introl Hd))
      as (? & ? & ?). done. }
  destruct (host_buffer_events c g d rt1 rt2 h hd Hh) as (E2 & N2 & _).
  destruct H1 as [E1 N1]. cbn [fst snd].
  rewrite He, Hne, Hg. cbn [reduceEnd]. rewrite E2, E1, N2, N1. done.
Qed.

Lemma endReduce_events (st : state) :
  events (endReduce st).2 = remove_event (reduceEnd st.1) (events st.2)
  /\ fast_reduce_enabled (endReduce st).1 = fast_reduce_enabled st.1.
Proof.
  destruct st as [[d h hd re fast] rt].
  unfold endReduce, device_free, host_free. simpl.
  repeat case_decide; simpl; repeat (destruct (release _ _); simpl); done.
Qed.

(** X5.  [fast_reduce_enabled] is a latch.  An [initReduce] that
    returns leaves it set when it was set or when QUDA_ENABLE_FAST_REDUCE
    is "1", and [endReduce] does not touch it: once fast reductions are
    enabled no later teardown or initialisation, with whatever
    environment, disables them. *)
Theorem fast_reduce_latch (c c' : config) (st st1 st2 : state) :
  initReduce c st = Ok st1 ->
  initReduce c' (endReduce st1) = Ok st2 ->
  getFastReduce st1 = getFastReduce st || fast_reduce_requested c
  /\ getFastReduce (endReduce st1) = getFastReduce st1
  /\ (getFastReduce st1 = true -> getFastReduce st2 = true).
Proof.
  intros H1 H2. unfold getFastReduce.
  destruct st as [g rt].
  destruct (initReduce_inv c g rt st1 H1)
    as (d & h & hd & rt1 & _ & rt2 & _ & _ & Hg & _).
  destruct (endReduce_events st1) as [_ Hf].
  destruct (endReduce st1) as [g1 r1] eqn:E1.
  destruct (initReduce_inv c' g1 r1 st2 H2)
    as (d' & h' & hd' & rt1' & _ & rt2' & _ & _ & Hg' & _).
  rewrite Hg, Hg'. cbn [fst fast_reduce_enabled] in *.
  split; [done|]. split; [rewrite Hf, Hg; done|].
  intros Ht. rewrite Hf, Hg. cbn [fast_reduce_enabled].
  rewrite Ht. done.
Qed.

(** X6.  [initReduce] creates a new event at each call and never
    destroys the one [reduceEnd] held: after two calls in a row and one
    [endReduce], which destroys the second event only, the event of the
    first call is still alive. *)
Theorem initReduce_twice_leaks_event (c c' : config) (st st1 st2 : state) :
  initReduce c st = Ok st1 ->
  initReduce c' st1 = Ok st2 ->
  getReduceEvent st2 <> getReduceEvent st1
  /\ events st2.2 = getReduceEvent st2 :: getReduceEvent st1 :: events st.2
  /\ events (endReduce st2).2 = getReduceEvent st1 :: events st.2.
Proof.
  intros H1 H2. unfold getReduceEvent.
  destruct (initReduce_events c st st1 H1) as (E1 & R1 & N1).
  destruct (initReduce_events c' st1 st2 H2) as (E2 & R2 & N2).
  destruct (endReduce_events st2) as [E3 _].
  rewrite E3, E2, R2, E1, R1, N1. split; [|split; [done|]].
  - intros Heq. injection Heq as Heq. lia.
  - simpl. rewrite decide_True by done. done.
Qed.

(** X7.  What [initReduce] sets up from null handles when the memory
    suffices and the runtime holds no error: a device buffer and a host
    buffer of [reduce_buffer_bytes] each, the host one zero-filled, the
    device one not; with host-mapped memory on a 64-bit build the host
    buffer is mapped and [hd_reduce] is its device address, else it is
    pinned and [hd_reduce] is [d_reduce] itself. *)
Theorem initReduce_allocates (c : config) (st : state) :
  d_reduce st.1 = 0 -> h_reduce st.1 = 0 ->
  cuda_error st.2 = false ->
  reduce_buffer_bytes c <= device_bytes_free st.2 ->
  reduce_buffer_bytes c <= host_bytes_free st.2 ->
  exists st' : state,
    initReduce c st = Ok st'
    /\ getDeviceReduceBuffer st' <> 0 /\ getHostReduceBuffer st' <> 0
    /\ getHostReduceBuffer st' <> getDeviceReduceBuffer st'
    /\ getMappedHostReduceBuffer st'
       = (if LP64 c && canMapHostMemory c
          then device_pointer c (getHostReduceBuffer st')
          else getDeviceReduceBuffer st')
    /\ allocations st'.2
       = mkAlloc (getHostReduceBuffer st') (reduce_buffer_bytes c)
           (if LP64 c && canMapHostMemory c then mapped_mem else pinned_mem)
           true
         :: mkAlloc (getDeviceReduceBuffer st') (reduce_buffer_bytes c)
              device_mem false
         :: allocations st.2
    /\ device_bytes_free st'.2
       = device_bytes_free st.2 - reduce_buffer_bytes c
    /\ host_bytes_free st'.2 = host_bytes_free st.2 - reduce_buffer_bytes c.
Proof.
  destruct st as [[d h hd re fast] [al na df hf ev ne ce wn]].
  cbn [fst snd d_reduce h_reduce cuda_error device_bytes_free
       host_bytes_free allocations].
  intros -> -> -> Hd Hh.
  unfold initReduce, getDeviceReduceBuffer, getHostReduceBuffer,
    getMappedHostReduceBuffer. simpl.
  unfold device_malloc. simpl. rewrite bool_decide_eq_true_2 by done. simpl.
  unfold mapped_malloc, pinned_malloc, host_malloc. simpl.
  rewrite bool_decide_eq_true_2 by done.
  destruct (LP64 c && canMapHostMemory c); simpl;
    destruct (QUDA_ENABLE_FAST_REDUCE c) as [env|]; simpl;
    try destruct (String.eqb env "1"); simpl;
    (eexists; split; [reflexivity|]); simpl;
    rewrite ?decide_True by done;
    repeat split; try done; try lia.
Qed.

(** X8.  When [initReduce] aborts: exactly when the device buffer is to
    be allocated and the device memory does not suffice, or the host
    buffer is to be allocated and the host memory does not suffice, or
    the runtime holds an error at the final [checkCudaError]. *)
Theorem initReduce_fatal_iff (c : config) (st : state) :
  is_fatal (initReduce c st) = true
  <-> (d_reduce st.1 = 0 /\ device_bytes_free st.2 < reduce_buffer_bytes c)
      \/ (h_reduce st.1 = 0 /\ host_bytes_free st.2 < reduce_buffer_bytes c)
      \/ cuda_error st.2 = true.
Proof.
  destruct st as [[d h hd re fast] [al na df hf ev ne ce wn]].
  cbn [fst snd d_reduce h_reduce cuda_error device_bytes_free
       host_bytes_free].
  unfold initReduce, device_malloc, mapped_malloc, pinned_malloc,
    host_malloc, checkCudaError.
  cbn [d_reduce h_reduce device_bytes_free host_bytes_free].
  destruct (decide (d = 0)) as [Hd|Hd];
    [destruct (bool_decide_reflect (reduce_buffer_bytes c <= df))|];
    cbn [mbind outcome_bind with_allocations host_bytes_free];
    (destruct (decide (h = 0)) as [Hh|Hh];
     [destruct (LP64 c && canMapHostMemory c);
      cbn [mbind outcome_bind];
      destruct (bool_decide_reflect (reduce_buffer_bytes c <= hf))|]);
    cbn [mbind outcome_bind];
    try (destruct (QUDA_ENABLE_FAST_REDUCE c) as [env|];
         [destruct (String.eqb env "1")|]);
    try destruct ce; simpl; split; try done; try tauto; try lia;
    intros; try (right; right; done); try (left; split; [done|lia]);
    try (right; left; split; [done|lia]).
Qed.

End ReduceBufferMore.

(** ** More on the pure reductions *)

Section PureSymmetries.
Context {T : Type} `{FloatNLaws T} `{!FloatNZero T} `{!FloatNAlgebra T}.

Lemma field_dot_comm (a b : ColorSpinorField T) :
  field_dot a b = field_dot b a.
Proof.
  unfold field_dot. f_equal. generalize (data a) (data b). intros l.
  induction l as [|e l IH]; intros [|e' k]; simpl; try done.
  rewrite dot_comm, IH. done.
Qed.

(** X9.  The real dot product is symmetric: on compatible fields
    [reDotProduct(x, y)] and [reDotProduct(y, x)] return the same value
    and leave the same memory, whatever the launch geometries. *)
Theorem reDotProduct_symmetric tp tp' (x y : handle) (W : world T) :
  valid_geometry tp = true -> valid_geometry tp' = true ->
  everywhere (fun s => compatible (s x) (s y)) W ->
  reDotProduct tp x y W = reDotProduct tp' y x W.
Proof.
  intros Hv Hv' Hc. rewrite reDotProduct_global by done.
  rewrite reDotProduct_global; [|done|].
  - do 2 f_equal. unfold global. f_equal. apply map_ext. intros s.
    apply field_dot_comm.
  - eapply everywhere_impl; [|exact Hc]. intros s. apply compatible_sym.
Qed.

Lemma sum_partials_x (l : list double2) :
  double2.x (sum_partials l) = sum_partials (map double2.x l).
Proof. apply sum_partials_hom; done. Qed.

Lemma sum_partials_y (l : list double2) :
  double2.y (sum_partials l) = sum_partials (map double2.y l).
Proof. apply sum_partials_hom; done. Qed.

Lemma field_cdot_real (a b : ColorSpinorField T) :
  double2.x (field_cdot a b) = field_dot a b.
Proof.
  unfold field_cdot, field_dot. rewrite sum_partials_x, map_zip_with.
  f_equal. generalize (data a) (data b). intros l.
  induction l as [|e l IH]; intros [|e' k]; simpl; try done.
  rewrite cdot_real, IH. done.
Qed.

Lemma sum_partials_zero (l : list double) :
  Forall (fun r => r = 0%Qc) l -> sum_partials l = 0%Qc.
Proof.
  induction 1 as [|r l -> _ IH]; simpl; [done|].
  fold (sum_partials l). rewrite IH. ring.
Qed.

Lemma field_cdot_diag_imag (a : ColorSpinorField T) :
  double2.y (field_cdot a a) = 0%Qc.
Proof.
  unfold field_cdot. rewrite sum_partials_y, map_zip_with, zip_with_diag.
  apply sum_partials_zero, Forall_fmap, Forall_forall.
  intros e _. apply cdot_diag_imag.
Qed.

(** X10.  The real part of the complex dot product is the real dot
    product: [cDotProduct(x, y)] returns a number whose real part is
    what [reDotProduct(x, y)] returns. *)
Theorem cDotProduct_real_part tp tp' (x y : handle) (W : world T) :
  valid_geometry tp = true -> valid_geometry tp' = true ->
  everywhere (fun s => compatible (s x) (s y)) W ->
  exists c : Complex,
    cDotProduct tp x y W = Ok (c, W)
    /\ reDotProduct tp' x y W = Ok (REAL c, W).
Proof.
  intros Hv Hv' Hc. eexists. split; [apply cDotProduct_global; done|].
  rewrite reDotProduct_global by done. do 2 f_equal. cbn [REAL].
  rewrite (global_hom double2.x) by done.
  unfold global. f_equal. apply map_ext. intros s.
  symmetry. apply field_cdot_real.
Qed.

(** X11.  The complex dot product of a field with itself is its
    squared norm, with imaginary part exactly zero. *)
Theorem cDotProduct_diagonal tp tp' (x : handle) (W : world T) :
  valid_geometry tp = true -> valid_geometry tp' = true ->
  exists n : double,
    norm2 tp' x W = Ok (n, W)
    /\ cDotProduct tp x x W = Ok (mkComplex n 0, W).
Proof.
  intros Hv Hv'. eexists. split; [apply norm2_global; done|].
  rewrite cDotProduct_global; [|done|].
  - do 2 f_equal. cbv zeta. f_equal.
    + rewrite (global_hom double2.x) by done.
      unfold global. f_equal. apply map_ext. intros s.
      rewrite field_cdot_real. apply field_dot_diag.
    + rewrite (global_hom double2.y) by done.
      unfold global, comm_allreduce.
      apply sum_partials_zero, Forall_fmap, Forall_forall.
      intros s _. apply field_cdot_diag_imag.
  - split; [done|]. apply Forall_forall. intros s _. done.
Qed.

Lemma sum_partials_nonneg (l : list double) :
  Forall (fun r => (0 <= r)%Qc) l -> (0 <= sum_partials l)%Qc.
Proof.
  induction 1 as [|r l Hr _ IH]; simpl; [apply Qcle_refl|].
  apply Qc_plus_nonneg; done.
Qed.

Lemma sum_partials_nonneg_zero (l : list double) :
  Forall (fun r => (0 <= r)%Qc) l -> sum_partials l = 0%Qc ->
  Forall (fun r => r = 0%Qc) l.
Proof.
  induction 1 as [|r l Hr Hl IH]; simpl; [done|]. intros Hs.
  destruct (Qc_plus_zero r (sum_partials l) Hr (sum_partials_nonneg l Hl) Hs)
    as [Hr0 Hl0].
  constructor; auto.
Qed.

Lemma field_norm2_nonneg (a : ColorSpinorField T) : (0 <= field_norm2 a)%Qc.
Proof.
  apply sum_partials_nonneg, Forall_fmap, Forall_forall.
  intros e _. apply norm2_nonneg.
Qed.

Lemma field_norm1_nonneg (a : ColorSpinorField T) : (0 <= field_norm1 a)%Qc.
Proof.
  apply sum_partials_nonneg, Forall_fmap, Forall_forall.
  intros e _. apply norm1_nonneg.
Qed.

(** X12.  [norm1] and [norm2] return non-negative numbers, and [norm2]
    returns zero only when every element of [x] is zero on every
    process. *)
Theorem norms_positive_definite tp (x : handle) (W : world T) :
  valid_geometry tp = true ->
  exists n1 n2 : double,
    norm1 tp x W = Ok (n1, W) /\ norm2 tp x W = Ok (n2, W)
    /\ (0 <= n1)%Qc /\ (0 <= n2)%Qc
    /\ (n2 = 0%Qc ->
        Forall (fun s => Forall (fun e => e = vzero) (data (s x)))
               (processes W)).
Proof.
  intros Hv. eexists _, _.
  split; [apply norm1_global; done|].
  split; [apply norm2_global; done|].
  assert (Hn : Forall (fun r => (0 <= r)%Qc)
                 (map (fun s : store T => field_norm2 (s x)) (processes W))).
  { apply Forall_fmap, Forall_forall. intros s _. apply field_norm2_nonneg. }
  split; [|split].
  - apply sum_partials_nonneg, Forall_fmap, Forall_forall.
    intros s _. apply field_norm1_nonneg.
  - apply sum_partials_nonneg. done.
  - intros Hz. apply (sum_partials_nonneg_zero _ Hn) in Hz.
    apply Forall_fmap in Hz. eapply Forall_impl; [|exact Hz].
    intros s Hs. simpl in Hs.
    assert (He : Forall (fun r => (0 <= r)%Qc) (map (norm2_ 0) (data (s x)))).
    { apply Forall_fmap, Forall_forall. intros e _. apply norm2_nonneg. }
    apply (sum_partials_nonneg_zero _ He) in Hs.
    apply Forall_fmap in Hs. eapply Forall_impl; [|exact Hs].
    intros e. apply norm2_zero.
Qed.

End PureSymmetries.

Section MoreReductions.
Context {T : Type} `{FloatNLaws T}.

Lemma tripleCGReduction_additive a b :
  element_additive (R := double3) (T := T)
    (construct tripleCGReduction_ a b)
    (fun o => make_double3 (norm2_ 0 (ox o)) (norm2_ 0 (oy o))
                           (dot_ 0 (oy o) (oz o)))
    (fun o => o).
Proof.
  repeat split. intros s o. simpl.
  rewrite (norm2_plus (double3.x s)), (norm2_plus (double3.y s)),
    (dot_plus (double3.z s)). done.
Qed.

(** X13.  [tripleCGReduction(x, y, z)] returns what [norm2(x)],
    [norm2(y)] and [reDotProduct(y, z)] return, the first three
    components of [quadrupleCGReduction(x, y, z)], and writes
    nothing. *)
Theorem tripleCGReduction_components tp tp1 tp2 tp3 tp4 (x y z : handle)
    (W : world T) :
  valid_geometry tp = true -> valid_geometry tp1 = true ->
  valid_geometry tp2 = true -> valid_geometry tp3 = true ->
  valid_geometry tp4 = true ->
  everywhere (fun s => compatible (s x) (s y) /\ compatible (s x) (s z)) W ->
  exists nx ny dyz : double,
    norm2 tp1 x W = Ok (nx, W)
    /\ norm2 tp2 y W = Ok (ny, W)
    /\ reDotProduct tp3 y z W = Ok (dyz, W)
    /\ tripleCGReduction tp x y z W = Ok (make_double3 nx ny dyz, W)
    /\ quadrupleCGReduction tp4 x y z W = Ok (make_double4 nx ny dyz nx, W).
Proof.
  intros Hv Hv1 Hv2 Hv3 Hv4 Hc. do 3 eexists.
  split; [apply norm2_global; done|].
  split; [apply norm2_global; done|].
  split; [|split; [|apply quadrupleCGReduction_global; done]].
  { apply reDotProduct_global; [done|].
    eapply everywhere_impl; [|exact Hc]. intros s [Hy Hz].
    eapply compatible_trans; [apply compatible_sym|]; done. }
  unfold tripleCGReduction.
  pose proof (everywhere_impl _ _ W (operands_compatible_xyz x y z) Hc) as Hc'.
  rewrite (reduceCuda_additive _ tp _ _ _ _ x y z x x W Hv
             (tripleCGReduction_additive _ _) Hc').
  fold no_writes. rewrite world_store_no_writes. do 2 f_equal.
  match goal with |- ?g = _ =>
    transitivity (make_double3 (double3.x g) (double3.y g) (double3.z g));
      [destruct g; done|]
  end.
  rewrite (global_hom double3.x), (global_hom double3.y),
    (global_hom double3.z) by done.
  f_equal; apply (global_ext _ _ _ _ Hc'); intros s Hs;
    rewrite local_sum_hom by done; simpl;
    destruct (load_operands_slots x y z x x s Hs)
      as (Hx & Hy & Hz & Hw & _);
    unfold local_sum, field_norm2, field_dot.
  - rewrite <- Hx. rewrite map_map. done.
  - rewrite <- Hy. rewrite map_map. done.
  - rewrite <- Hy, <- Hz. rewrite (map_slots2 oy oz (dot_ 0)). done.
Qed.

Lemma CdotNormA_additive a b :
  element_additive (R := double3) (T := T) (construct CdotNormA a b)
    (fun o => let c := cdot_ rzero (ox o) (oy o) in
              make_double3 (double2.x c) (double2.y c) (norm2_ 0 (ox o)))
    (fun o => o).
Proof.
  repeat split. intros s o. simpl. unfold cdotNormA_.
  rewrite cdot_plus, (norm2_plus (double3.z s)). done.
Qed.

(** X14.  [cDotProductNormA(x, y)] returns in its first two components
    the complex number [cDotProduct(x, y)] returns and in the third
    what [norm2(x)] returns, and writes nothing. *)
Theorem cDotProductNormA_components tp tp1 tp2 (x y : handle) (W : world T) :
  valid_geometry tp = true -> valid_geometry tp1 = true ->
  valid_geometry tp2 = true ->
  everywhere (fun s => compatible (s x) (s y)) W ->
  exists (c : Complex) (n : double),
    cDotProduct tp1 x y W = Ok (c, W)
    /\ norm2 tp2 x W = Ok (n, W)
    /\ cDotProductNormA tp x y W = Ok (make_double3 (REAL c) (IMAG c) n, W).
Proof.
  intros Hv Hv1 Hv2 Hc. eexists _, _.
  split; [apply cDotProduct_global; done|].
  split; [apply norm2_global; done|].
  unfold cDotProductNormA.
  pose proof (everywhere_impl _ _ W (operands_compatible_xy x y) Hc) as Hc'.
  rewrite (reduceCuda_additive _ tp _ _ _ _ x y x x x W Hv
             (CdotNormA_additive _ _) Hc').
  fold no_writes. rewrite world_store_no_writes. do 2 f_equal.
  match goal with |- ?g = _ =>
    transitivity (make_double3 (double3.x g) (double3.y g) (double3.z g));
      [destruct g; done|]
  end.
  cbn [REAL IMAG].
  rewrite (global_hom double3.x), (global_hom double3.y),
    (global_hom double3.z) by done.
  rewrite (global_hom double2.x), (global_hom double2.y) by done.
  f_equal; apply (global_ext _ _ _ _ Hc'); intros s Hs;
    rewrite local_sum_hom by done; simpl;
    destruct (load_operands_slots x y x x x s Hs) as (Hx & Hy & _);
    unfold local_sum, field_norm2, field_cdot.
  - rewrite <- Hx, <- Hy.
    rewrite (sum_partials_hom double2.x), map_zip_with by done.
    rewrite <- map_slots2. done.
  - rewrite <- Hx, <- Hy.
    rewrite (sum_partials_hom double2.y), map_zip_with by done.
    rewrite <- map_slots2. done.
  - rewrite <- Hx. rewrite map_map. done.
Qed.

End MoreReductions.

(** ** The fused updates *)

Ltac store_lookup Hc :=
  rewrite (local_store_lookup _ _ _ _ _ _ _ _ _ Hc);
  cbn [writeX writeY writeZ writeW writeV andb];
  repeat first
    [ rewrite bool_decide_eq_true_2 by done
    | rewrite bool_decide_eq_false_2 by (done || congruence) ];
  cbn [andb data set_data ox oy oz ow ov].

Section FusedUpdates.
Context {T : Type} `{FloatNLaws T} `{!FloatNZero T} `{!FloatNAlgebra T}.

Lemma AxpyReDot_additive a b :
  element_additive (R := double) (T := T) (construct AxpyReDot.t a b)
    (fun o => dot_ 0 (ox o) (vplus (oy o) (vscale (double2.x a) (ox o))))
    (fun o => mkOps (ox o) (vplus (oy o) (vscale (double2.x a) (ox o)))
                    (oz o) (ow o) (ov o)).
Proof.
  repeat split. intros s o. simpl. rewrite dot_plus. done.
Qed.

(** X15.  After [axpyReDot(a, x, y)], on every process [y] holds
    [y[i] + a*x[i]] in every element and every other field is as
    before, also when [x] and [y] are the same field; when they are
    different fields the value returned is what [reDotProduct(x, y)]
    returns on the new [y]. *)
Theorem axpyReDot_correct tp tp' (a : double) (x y : handle) (W : world T) :
  valid_geometry tp = true -> valid_geometry tp' = true ->
  everywhere (fun s => compatible (s x) (s y)) W ->
  exists (r : double) (W' : world T),
    axpyReDot tp a x y W = Ok (r, W')
    /\ Forall2 (fun s s' =>
                  data (s' y)
                  = zip_with (fun xi yi => vplus yi (vscale a xi))
                             (data (s x)) (data (s y))
                  /\ forall h, h <> y -> s' h = s h)
               (processes W) (processes W')
    /\ (x <> y -> reDotProduct tp' x y W' = Ok (r, W')).
Proof.
  intros Hv Hv' Hc.
  pose proof (everywhere_impl _ _ W (operands_compatible_xy x y) Hc) as Hc'.
  eexists _, _. split; [|split].
  - unfold axpyReDot.
    apply (reduceCuda_additive _ tp _ _ _ _ x y x x x W Hv
             (AxpyReDot_additive _ _) Hc').
  - apply (world_store_Forall2 _ _ _ _ _ _ _ _ _ _ Hc'). intros s Hs.
    destruct (load_operands_slots x y x x x s Hs) as (Hx & Hy & _).
    split.
    + store_lookup Hs. rewrite <- Hx, <- Hy, <- map_slots2. done.
    + intros h Hh. store_lookup Hs. done.
  - intros Hxy. rewrite reDotProduct_global; [|done|].
    + do 2 f_equal. symmetry.
      apply (global_world_store _ _ _ _ _ _ _ _ _ _ _ Hc').
      intros s Hs.
      destruct (load_operands_slots x y x x x s Hs) as (Hx & Hy & _).
      unfold field_dot. do 2 store_lookup Hs. rewrite <- Hx.
      unfold local_sum. rewrite <- map_slots2. done.
    + apply (everywhere_world_store _ _ _ _ _ _ _ _ _ _ Hc'). intros s Hs.
      apply local_store_compatible; [done|]. apply Hs.
Qed.

Lemma caxpyNorm2_additive a b :
  element_additive (R := double) (T := T) (construct caxpyNorm2.t a b)
    (fun o => norm2_ 0 (Caxpy_ a (ox o) (oy o)))
    (fun o => mkOps (ox o) (Caxpy_ a (ox o) (oy o)) (oz o) (ow o) (ov o)).
Proof.
  repeat split. intros s o. simpl. rewrite norm2_plus. done.
Qed.

(** X16.  After [caxpyNorm(a, x, y)], on every process [y] holds
    [y[i] + a*x[i]], the complex update [Caxpy_] of every element, and
    every other field is as before; the value returned is what
    [norm2(y)] returns on the new [y]. *)
Theorem caxpyNorm_correct tp tp' (a : Complex) (x y : handle) (W : world T) :
  valid_geometry tp = true -> valid_geometry tp' = true ->
  everywhere (fun s => compatible (s x) (s y)) W ->
  exists (r : double) (W' : world T),
    caxpyNorm tp a x y W = Ok (r, W')
    /\ Forall2 (fun s s' =>
                  data (s' y)
                  = zip_with (Caxpy_ (make_double2 (REAL a) (IMAG a)))
                             (data (s x)) (data (s y))
                  /\ forall h, h <> y -> s' h = s h)
               (processes W) (processes W')
    /\ norm2 tp' y W' = Ok (r, W').
Proof.
  intros Hv Hv' Hc.
  pose proof (everywhere_impl _ _ W (operands_compatible_xy x y) Hc) as Hc'.
  eexists _, _. split; [|split].
  - unfold caxpyNorm.
    apply (reduceCuda_additive _ tp _ _ _ _ x y x x x W Hv
             (caxpyNorm2_additive _ _) Hc').
  - apply (world_store_Forall2 _ _ _ _ _ _ _ _ _ _ Hc'). intros s Hs.
    destruct (load_operands_slots x y x x x s Hs) as (Hx & Hy & _).
    split.
    + store_lookup Hs. rewrite <- Hx, <- Hy, <- map_slots2. done.
    + intros h Hh. store_lookup Hs. done.
  - rewrite norm2_global by done.
    do 2 f_equal. symmetry.
    apply (global_world_store _ _ _ _ _ _ _ _ _ _ _ Hc').
    intros s Hs. unfold field_norm2. store_lookup Hs.
    unfold local_sum. rewrite map_map. done.
Qed.

Lemma caxpyxmaznormx_additive a b :
  element_additive (R := double) (T := T) (construct caxpyxmaznormx.t a b)
    (fun o => norm2_ 0 (Caxpy_ (neg2 a) (oz o) (ox o)))
    (fun o => mkOps (Caxpy_ (neg2 a) (oz o) (ox o))
                    (Caxpy_ a (ox o) (oy o)) (oz o) (ow o) (ov o)).
Proof.
  repeat split. intros s o. simpl. rewrite norm2_plus. done.
Qed.

(** X17.  After [caxpyXmazNormX(a, x, y, z)] with [x] and [y]
    different fields, on every process [y] holds [y[i] + a*x[i]] with
    the [x] of before the call, [x] holds [x[i] - a*z[i]], and every
    other field is as before; the value returned is what [norm2(x)]
    returns on the new [x]. *)
Theorem caxpyXmazNormX_correct tp tp' (a : Complex) (x y z : handle)
    (W : world T) :
  valid_geometry tp = true -> valid_geometry tp' = true ->
  x <> y ->
  everywhere (fun s => compatible (s x) (s y) /\ compatible (s x) (s z)) W ->
  exists (r : double) (W' : world T),
    caxpyXmazNormX tp a x y z W = Ok (r, W')
    /\ Forall2 (fun s s' =>
                  data (s' y)
                  = zip_with (Caxpy_ (make_double2 (REAL a) (IMAG a)))
                             (data (s x)) (data (s y))
                  /\ data (s' x)
                     = zip_with
                         (Caxpy_ (neg2 (make_double2 (REAL a) (IMAG a))))
                         (data (s z)) (data (s x))
                  /\ forall h, h <> x -> h <> y -> s' h = s h)
               (processes W) (processes W')
    /\ norm2 tp' x W' = Ok (r, W').
Proof.
  intros Hv Hv' Hxy Hc.
  pose proof (everywhere_impl _ _ W (operands_compatible_xyz x y z) Hc) as Hc'.
  eexists _, _. split; [|split].
  - unfold caxpyXmazNormX.
    apply (reduceCuda_additive _ tp _ _ _ _ x y z x x W Hv
             (caxpyxmaznormx_additive _ _) Hc').
  - apply (world_store_Forall2 _ _ _ _ _ _ _ _ _ _ Hc'). intros s Hs.
    destruct (load_operands_slots x y z x x s Hs) as (Hx & Hy & Hz & _).
    split; [|split].
    + store_lookup Hs. rewrite <- Hx, <- Hy, <- map_slots2. done.
    + store_lookup Hs. rewrite <- Hx, <- Hz, <- map_slots2. done.
    + intros h Hhx Hhy. store_lookup Hs. done.
  - rewrite norm2_global by done.
    do 2 f_equal. symmetry.
    apply (global_world_store _ _ _ _ _ _ _ _ _ _ _ Hc').
    intros s Hs. unfold field_norm2. store_lookup Hs.
    unfold local_sum. rewrite map_map. done.
Qed.

Lemma cabxpyzaxnorm_additive a b :
  element_additive (R := double) (T := T) (construct cabxpyzaxnorm.t a b)
    (fun o => norm2_ 0 (Caxpy_ b (vscale (double2.x a) (ox o)) (oy o)))
    (fun o => mkOps (vscale (double2.x a) (ox o))
                    (Caxpy_ b (vscale (double2.x a) (ox o)) (oy o))
                    (Caxpy_ b (vscale (double2.x a) (ox o)) (oy o))
                    (ow o) (ov o)).
Proof.
  repeat split. intros s o. simpl. rewrite norm2_plus. done.
Qed.

(** X18.  After [cabxpyzAxNorm(a, b, x, y, z)] with [x] and [z]
    different fields, on every process [x] holds [a*x[i]], [z] holds
    [y[i] + b*(a*x[i])], and every other field is as before: [y], which
    [operator()] assigns, is not stored; the value returned is what
    [norm2(z)] returns on the new [z]. *)
Theorem cabxpyzAxNorm_correct tp tp' (a : double) (b : Complex)
    (x y z : handle) (W : world T) :
  valid_geometry tp = true -> valid_geometry tp' = true ->
  x <> z ->
  everywhere (fun s => compatible (s x) (s y) /\ compatible (s x) (s z)) W ->
  exists (r : double) (W' : world T),
    cabxpyzAxNorm tp a b x y z W = Ok (r, W')
    /\ Forall2 (fun s s' =>
                  data (s' x) = map (vscale a) (data (s x))
                  /\ data (s' z)
                     = zip_with
                         (fun xi yi =>
                            Caxpy_ (make_double2 (REAL b) (IMAG b))
                                   (vscale a xi) yi)
                         (data (s x)) (data (s y))
                  /\ forall h, h <> x -> h <> z -> s' h = s h)
               (processes W) (processes W')
    /\ norm2 tp' z W' = Ok (r, W').
Proof.
  intros Hv Hv' Hxz Hc.
  pose proof (everywhere_impl _ _ W (operands_compatible_xyz x y z) Hc) as Hc'.
  eexists _, _. split; [|split].
  - unfold cabxpyzAxNorm.
    apply (reduceCuda_additive _ tp _ _ _ _ x y z x x W Hv
             (cabxpyzaxnorm_additive _ _) Hc').
  - apply (world_store_Forall2 _ _ _ _ _ _ _ _ _ _ Hc'). intros s Hs.
    destruct (load_operands_slots x y z x x s Hs) as (Hx & Hy & Hz & _).
    split; [|split].
    + store_lookup Hs. rewrite <- Hx, map_map. done.
    + store_lookup Hs. rewrite <- Hx, <- Hy, <- map_slots2. done.
    + intros h Hhx Hhz. store_lookup Hs. done.
  - rewrite norm2_global by done.
    do 2 f_equal. symmetry.
    apply (global_world_store _ _ _ _ _ _ _ _ _ _ _ Hc').
    intros s Hs. unfold field_norm2. store_lookup Hs.
    unfold local_sum. rewrite map_map. done.
Qed.

Lemma caxpydotzy_additive a b :
  element_additive (R := double2) (T := T) (construct caxpydotzy.t a b)
    (fun o => cdot_ rzero (oz o) (Caxpy_ a (ox o) (oy o)))
    (fun o => mkOps (ox o) (Caxpy_ a (ox o) (oy o)) (oz o) (ow o) (ov o)).
Proof.
  repeat split. intros s o. simpl. rewrite cdot_plus. done.
Qed.

(** X19.  After [caxpyDotzy(a, x, y, z)] with [y] and [z] different
    fields, on every process [y] holds [y[i] + a*x[i]] and every other
    field is as before; the value returned is what [cDotProduct(z, y)]
    returns on the new [y]. *)
Theorem caxpyDotzy_correct tp tp' (a : Complex) (x y z : handle)
    (W : world T) :
  valid_geometry tp = true -> valid_geometry tp' = true ->
  z <> y ->
  everywhere (fun s => compatible (s x) (s y) /\ compatible (s x) (s z)) W ->
  exists (c : Complex) (W' : world T),
    caxpyDotzy tp a x y z W = Ok (c, W')
    /\ Forall2 (fun s s' =>
                  data (s' y)
                  = zip_with (Caxpy_ (make_double2 (REAL a) (IMAG a)))
                             (data (s x)) (data (s y))
                  /\ forall h, h <> y -> s' h = s h)
               (processes W) (processes W')
    /\ cDotProduct tp' z y W' = Ok (c, W').
Proof.
  intros Hv Hv' Hzy Hc.
  pose proof (everywhere_impl _ _ W (operands_compatible_xyz x y z) Hc) as Hc'.
  eexists _, _. split; [|split].
  - unfold caxpyDotzy.
    rewrite (reduceCuda_additive _ tp _ _ _ _ x y z x x W Hv
               (caxpydotzy_additive _ _) Hc').
    reflexivity.
  - apply (world_store_Forall2 _ _ _ _ _ _ _ _ _ _ Hc'). intros s Hs.
    destruct (load_operands_slots x y z x x s Hs) as (Hx & Hy & _).
    split.
    + store_lookup Hs. rewrite <- Hx, <- Hy, <- map_slots2. done.
    + intros h Hh. store_lookup Hs. done.
  - rewrite cDotProduct_global; [|done|].
    + cbv zeta.
      rewrite <- (global_world_store _
                    (local_sum (fun o => cdot_ rzero (oz o)
                       (Caxpy_ (make_double2 (REAL a) (IMAG a))
                               (ox o) (oy o))) x y z x x)
                    _ _ _ _ _ _ _ _ _ Hc'); [done|].
      intros s Hs.
      destruct (load_operands_slots x y z x x s Hs) as (Hx & Hy & Hz & _).
      unfold field_cdot. do 2 store_lookup Hs. rewrite <- Hz.
      unfold local_sum. rewrite <- map_slots2. done.
    + apply (everywhere_world_store _ _ _ _ _ _ _ _ _ _ Hc'). intros s Hs.
      apply local_store_compatible; [done|].
      destruct Hs as (Hy & Hz & _).
      eapply compatible_trans; [apply compatible_sym|]; done.
Qed.

Lemma axpyCGNorm2_additive a b :
  element_additive (R := double2) (T := T) (construct axpyCGNorm2.t a b)
    (fun o =>
       let z_new := vplus (oz o) (vscale (double2.x a) (ox o)) in
       make_double2 (norm2_ 0 z_new) (dot_ 0 z_new (vminus z_new (oz o))))
    (fun o => mkOps (ox o) (oy o)
                    (vplus (oz o) (vscale (double2.x a) (ox o)))
                    (ow o) (ov o)).
Proof.
  repeat split. intros s o. simpl.
  rewrite (norm2_plus (double2.x s)), (dot_plus (double2.y s)). done.
Qed.

Lemma operands_compatible_xxy x y (s : store T) :
  compatible (s x) (s y) -> operands_compatible x x y x x s.
Proof. intros Hc. repeat split; apply Hc. Qed.

Lemma sum_partials_scale (a : double) (l : list double) :
  sum_partials (map (Qcmult a) l) = (a * sum_partials l)%Qc.
Proof.
  symmetry. apply (sum_partials_hom (Qcmult a)).
  - simpl. ring.
  - intros p q. simpl. ring.
Qed.

(** X20.  [axpyCGNorm(a, x, y)] on fields of one precision takes the
    branch of the plain dispatcher, with [y] in the [z] slot.  With [x]
    and [y] different fields, afterwards [y] holds [y[i] + a*x[i]] on
    every process and every other field is as before; the real part
    returned is what [norm2(y)] returns on the new [y], and the
    imaginary part, the dot product of the new [y] with its change, is
    [a] times what [reDotProduct(y, x)] returns on the new [y]. *)
Theorem axpyCGNorm_correct tp tp1 tp2 (a : double) (x y : handle)
    (W : world T) :
  valid_geometry tp = true -> valid_geometry tp1 = true ->
  valid_geometry tp2 = true ->
  x <> y ->
  everywhere (fun s => compatible (s x) (s y)) W ->
  exists (n d : double) (W' : world T),
    axpyCGNorm tp a x y W = Ok (mkComplex n (a * d)%Qc, W')
    /\ Forall2 (fun s s' =>
                  data (s' y)
                  = zip_with (fun xi yi => vplus yi (vscale a xi))
                             (data (s x)) (data (s y))
                  /\ forall h, h <> y -> s' h = s h)
               (processes W) (processes W')
    /\ norm2 tp1 y W' = Ok (n, W')
    /\ reDotProduct tp2 y x W' = Ok (d, W').
Proof.
  intros Hv Hv1 Hv2 Hxy Hc.
  pose proof (everywhere_impl _ _ W (operands_compatible_xxy x y) Hc) as Hc'.
  set (u := fun o : operands T =>
              mkOps (ox o) (oy o) (vplus (oz o) (vscale a (ox o)))
                    (ow o) (ov o)).
  set (W' := world_store (writes false false true false false) u
               x x y x x W).
  exists (global (fun s => field_norm2 (s y)) W'),
         (global (fun s => field_dot (s y) (s x)) W'), W'.
  assert (Hn : global (local_sum (fun o => norm2_ 0 (oz (u o))) x x y x x) W
               = global (fun s => field_norm2 (s y)) W').
  { apply (global_world_store _ _ _ _ _ _ _ _ _ _ _ Hc').
    intros s Hs. unfold field_norm2. store_lookup Hs.
    unfold local_sum. rewrite map_map. done. }
  assert (Hd : global (local_sum (fun o => dot_ 0 (oz (u o)) (ox o))
                         x x y x x) W
               = global (fun s => field_dot (s y) (s x)) W').
  { apply (global_world_store _ _ _ _ _ _ _ _ _ _ _ Hc').
    intros s Hs.
    destruct (load_operands_slots x x y x x s Hs) as (Hx & _).
    unfold field_dot. do 2 store_lookup Hs. rewrite <- Hx.
    unfold local_sum. rewrite <- map_slots2. done. }
  split; [|split; [|split]].
  - unfold axpyCGNorm.
    rewrite decide_False by (intros Hp; apply Hp, Hc).
    rewrite (reduceCuda_additive _ tp _ _ _ _ x x y x x W Hv
               (axpyCGNorm2_additive _ _) Hc').
    cbn [mbind outcome_bind double2.x]. fold u. fold W'. do 3 f_equal.
    + rewrite (global_hom double2.x) by done. rewrite <- Hn.
      apply (global_ext _ _ _ _ Hc'). intros s Hs.
      rewrite (local_sum_hom double2.x) by done. done.
    + rewrite (global_hom double2.y) by done. rewrite <- Hd.
      unfold global, comm_allreduce.
      rewrite <- sum_partials_scale, map_map.
      f_equal. apply map_ext. intros s.
      rewrite (local_sum_hom double2.y) by done. unfold local_sum.
      rewrite <- sum_partials_scale, map_map.
      f_equal. apply map_ext. intros o. cbn [double2.y oz u].
      rewrite vminus_vplus, dot_vscale. done.
  - apply (world_store_Forall2 _ _ _ _ _ _ _ _ _ _ Hc'). intros s Hs.
    destruct (load_operands_slots x x y x x s Hs) as (Hx & _ & Hz & _).
    split.
    + store_lookup Hs. rewrite <- Hx, <- Hz, <- map_slots2. done.
    + intros h Hh. store_lookup Hs. done.
  - apply norm2_global. done.
  - apply reDotProduct_global; [done|].
    apply (everywhere_world_store _ _ _ _ _ _ _ _ _ _ Hc'). intros s Hs.
    apply local_store_compatible; [done|].
    apply compatible_sym, Hs.
Qed.

End FusedUpdates.

Section FusedUpdates3.
Context {T : Type} `{FloatNLaws T} `{!FloatNZero T} `{!FloatNAlgebra T}.

Lemma caxpbypzYmbwcDotProductUYNormY_additive a b :
  element_additive (R := double3) (T := T)
    (construct caxpbypzYmbwcDotProductUYNormY_.t a b)
    (fun o =>
       let y := Caxpy_ (neg2 b) (ow o) (oy o) in
       let c := cdot_ rzero (ov o) y in
       make_double3 (double2.x c) (double2.y c) (norm2_ 0 y))
    (fun o => mkOps (ox o) (Caxpy_ (neg2 b) (ow o) (oy o))
                    (Caxpy_ b (oy o) (Caxpy_ a (ox o) (oz o)))
                    (ow o) (ov o)).
Proof.
  repeat split. intros s o. simpl. unfold cdotNormB_.
  rewrite cdot_plus, (norm2_plus (double3.z s)). done.
Qed.

Lemma operands_compatible_all x y z w v (s : store T) :
  compatible (s x) (s y) /\ compatible (s x) (s z)
  /\ compatible (s x) (s w) /\ compatible (s x) (s v) ->
  operands_compatible x y z w v s.
Proof. done. Qed.

(** X21.  [caxpbypzYmbwcDotProductUYNormY(a, x, b, y, z, w, u)] on
    fields of one precision takes the branch of the plain dispatcher.
    With [y] and [z] different fields, and [u] neither of them,
    afterwards [z] holds [z[i] + a*x[i] + b*y[i]] with the [y] of before
    the call, [y] holds [y[i] - b*w[i]], and every other field is as
    before, on every process; the first two components returned are
    what [cDotProduct(u, y)] returns on the new [y], and the third what
    [norm2(y)] returns on it. *)
Theorem caxpbypzYmbwcDotProductUYNormY_correct tp tp1 tp2 (a b : Complex)
    (x y z w u : handle) (W : world T) :
  valid_geometry tp = true -> valid_geometry tp1 = true ->
  valid_geometry tp2 = true ->
  y <> z -> u <> y -> u <> z ->
  everywhere (fun s => compatible (s x) (s y) /\ compatible (s x) (s z)
                       /\ compatible (s x) (s w) /\ compatible (s x) (s u))
             W ->
  exists (c : Complex) (n : double) (W' : world T),
    caxpbypzYmbwcDotProductUYNormY tp a x b y z w u W
    = Ok (make_double3 (REAL c) (IMAG c) n, W')
    /\ Forall2 (fun s s' =>
                  data (s' z)
                  = zip_with3
                      (fun xi yi zi =>
                         Caxpy_ (make_double2 (REAL b) (IMAG b)) yi
                           (Caxpy_ (make_double2 (REAL a) (IMAG a)) xi zi))
                      (data (s x)) (data (s y)) (data (s z))
                  /\ data (s' y)
                     = zip_with
                         (Caxpy_ (neg2 (make_double2 (REAL b) (IMAG b))))
                         (data (s w)) (data (s y))
                  /\ forall h, h <> y -> h <> z -> s' h = s h)
               (processes W) (processes W')
    /\ cDotProduct tp1 u y W' = Ok (c, W')
    /\ norm2 tp2 y W' = Ok (n, W').
Proof.
  intros Hv Hv1 Hv2 Hyz Huy Huz Hc.
  pose proof (everywhere_impl _ _ W (operands_compatible_all x y z w u) Hc)
    as Hc'.
  set (a2 := make_double2 (REAL a) (IMAG a)).
  set (b2 := make_double2 (REAL b) (IMAG b)).
  set (f := fun o : operands T =>
              mkOps (ox o) (Caxpy_ (neg2 b2) (ow o) (oy o))
                    (Caxpy_ b2 (oy o) (Caxpy_ a2 (ox o) (oz o)))
                    (ow o) (ov o)).
  set (W' := world_store (writes false true true false false) f
               x y z w u W).
  assert (Hcu : everywhere (fun s => compatible (s u) (s y)) W').
  { apply (everywhere_world_store _ _ _ _ _ _ _ _ _ _ Hc'). intros s Hs.
    apply local_store_compatible; [done|].
    destruct Hs as (Hy & _ & _ & Hu).
    eapply compatible_trans; [apply compatible_sym|]; done. }
  assert (Hn : global (local_sum (fun o => norm2_ 0 (oy (f o))) x y z w u) W
               = global (fun s => field_norm2 (s y)) W').
  { apply (global_world_store _ _ _ _ _ _ _ _ _ _ _ Hc').
    intros s Hs. unfold field_norm2. store_lookup Hs.
    unfold local_sum. rewrite map_map. done. }
  assert (Hd : global (local_sum (fun o => cdot_ rzero (ov o) (oy (f o)))
                         x y z w u) W
               = global (fun s => field_cdot (s u) (s y)) W').
  { apply (global_world_store _ _ _ _ _ _ _ _ _ _ _ Hc').
    intros s Hs.
    destruct (load_operands_slots x y z w u s Hs) as (_ & _ & _ & _ & Hu).
    unfold field_cdot. do 2 store_lookup Hs. rewrite <- Hu.
    unfold local_sum. rewrite <- map_slots2. done. }
  exists (let cdot := global (fun s => field_cdot (s u) (s y)) W' in
          mkComplex (double2.x cdot) (double2.y cdot)),
         (global (fun s => field_norm2 (s y)) W'), W'.
  cbn [REAL IMAG]. split; [|split; [|split]].
  - unfold caxpbypzYmbwcDotProductUYNormY.
    rewrite decide_False by (intros Hp; apply Hp, Hc).
    rewrite (reduceCuda_additive _ tp _ _ _ _ x y z w u W Hv
               (caxpbypzYmbwcDotProductUYNormY_additive _ _) Hc').
    fold a2 b2 f W'. do 2 f_equal.
    match goal with |- ?g = _ =>
      transitivity (make_double3 (double3.x g) (double3.y g) (double3.z g));
        [destruct g; done|]
    end.
    rewrite (global_hom double3.x), (global_hom double3.y),
      (global_hom double3.z) by done.
    f_equal.
    + rewrite <- Hd, (global_hom double2.x) by done.
      apply (global_ext _ _ _ _ Hc'). intros s Hs.
      rewrite (local_sum_hom double3.x), (local_sum_hom double2.x) by done.
      done.
    + rewrite <- Hd, (global_hom double2.y) by done.
      apply (global_ext _ _ _ _ Hc'). intros s Hs.
      rewrite (local_sum_hom double3.y), (local_sum_hom double2.y) by done.
      done.
    + rewrite <- Hn.
      apply (global_ext _ _ _ _ Hc'). intros s Hs.
      rewrite (local_sum_hom double3.z) by done. done.
  - apply (world_store_Forall2 _ _ _ _ _ _ _ _ _ _ Hc'). intros s Hs.
    destruct (load_operands_slots x y z w u s Hs)
      as (Hx & Hy & Hz & Hw & _).
    split; [|split].
    + store_lookup Hs. rewrite <- Hx, <- Hy, <- Hz, <- map_slots3. done.
    + store_lookup Hs. rewrite <- Hw, <- Hy, <- map_slots2. done.
    + intros h Hhy Hhz. store_lookup Hs. done.
  - rewrite cDotProduct_global by done. reflexivity.
  - apply norm2_global. done.
Qed.

Lemma quadrupleCG3InitNorm_additive a b :
  element_additive (R := double) (T := T)
    (construct quadrupleCG3InitNorm_.t a b)
    (fun o => norm2_ 0 (vminus (oy o) (vscale (double2.x a) (ov o))))
    (fun o => mkOps (vplus (ox o) (vscale (double2.x a) (oy o)))
                    (vminus (oy o) (vscale (double2.x a) (ov o)))
                    (ox o) (oy o) (ov o)).
Proof.
  repeat split. intros s o. simpl. rewrite norm2_plus. done.
Qed.

(** X22.  After [quadrupleCG3InitNorm(a, x, y, z, w, v)] on four
    different fields [x], [y], [z], [w], on every process [z] holds the
    elements [x] had and [w] those [y] had, [x] holds [x[i] + a*y[i]]
    and [y] holds [y[i] - a*v[i]], and every other field is as before;
    the value returned is what [norm2(y)] returns on the new [y]. *)
Theorem quadrupleCG3InitNorm_correct tp tp' (a : double)
    (x y z w v : handle) (W : world T) :
  valid_geometry tp = true -> valid_geometry tp' = true ->
  x <> y -> x <> z -> x <> w -> y <> z -> y <> w -> z <> w ->
  everywhere (fun s => compatible (s x) (s y) /\ compatible (s x) (s z)
                       /\ compatible (s x) (s w) /\ compatible (s x) (s v))
             W ->
  exists (r : double) (W' : world T),
    quadrupleCG3InitNorm tp a x y z w v W = Ok (r, W')
    /\ Forall2 (fun s s' =>
                  data (s' z) = data (s x)
                  /\ data (s' w) = data (s y)
                  /\ data (s' x)
                     = zip_with (fun xi yi => vplus xi (vscale a yi))
                                (data (s x)) (data (s y))
                  /\ data (s' y)
                     = zip_with (fun yi vi => vminus yi (vscale a vi))
                                (data (s y)) (data (s v))
                  /\ forall h, h <> x -> h <> y -> h <> z -> h <> w ->
                               s' h = s h)
               (processes W) (processes W')
    /\ norm2 tp' y W' = Ok (r, W').
Proof.
  intros Hv Hv' Hxy Hxz Hxw Hyz Hyw Hzw Hc.
  pose proof (everywhere_impl _ _ W (operands_compatible_all x y z w v) Hc)
    as Hc'.
  eexists _, _. split; [|split].
  - unfold quadrupleCG3InitNorm.
    apply (reduceCuda_additive _ tp _ _ _ _ x y z w v W Hv
             (quadrupleCG3InitNorm_additive _ _) Hc').
  - apply (world_store_Forall2 _ _ _ _ _ _ _ _ _ _ Hc'). intros s Hs.
    destruct (load_operands_slots x y z w v s Hs)
      as (Hx & Hy & Hz & Hw & Hvv).
    split; [|split; [|split; [|split]]].
    + store_lookup Hs. done.
    + store_lookup Hs. done.
    + store_lookup Hs. rewrite <- Hx, <- Hy, <- map_slots2. done.
    + store_lookup Hs. rewrite <- Hy, <- Hvv, <- map_slots2. done.
    + intros h Hhx Hhy Hhz Hhw. store_lookup Hs. done.
  - rewrite norm2_global by done.
    do 2 f_equal. symmetry.
    apply (global_world_store _ _ _ _ _ _ _ _ _ _ _ Hc').
    intros s Hs. unfold field_norm2. store_lookup Hs.
    unfold local_sum. rewrite map_map. done.
Qed.

Lemma operands_compatible_xyzzz x y z (s : store T) :
  compatible (s x) (s y) /\ compatible (s x) (s z) ->
  operands_compatible x y z z z s.
Proof. intros [Hy Hz]. repeat split; first [apply Hy | apply Hz]. Qed.

Lemma doubleCG3InitNorm_additive a b :
  element_additive (R := double) (T := T)
    (construct doubleCG3InitNorm_.t a b)
    (fun o => norm2_ 0 (vminus (ox o) (vscale (double2.x a) (oz o))))
    (fun o => mkOps (vminus (ox o) (vscale (double2.x a) (oz o)))
                    (ox o) (oz o) (ow o) (ov o)).
Proof.
  repeat split. intros s o. simpl. rewrite norm2_plus. done.
Qed.

(** X23.  After [doubleCG3InitNorm(a, x, y, z)] with [x] and [y]
    different fields, on every process [y] holds the elements [x] had,
    [x] holds [x[i] - a*z[i]], and every other field is as before; the
    value returned is what [norm2(x)] returns on the new [x]. *)
Theorem doubleCG3InitNorm_correct tp tp' (a : double) (x y z : handle)
    (W : world T) :
  valid_geometry tp = true -> valid_geometry tp' = true ->
  x <> y ->
  everywhere (fun s => compatible (s x) (s y) /\ compatible (s x) (s z)) W ->
  exists (r : double) (W' : world T),
    doubleCG3InitNorm tp a x y z W = Ok (r, W')
    /\ Forall2 (fun s s' =>
                  data (s' y) = data (s x)
                  /\ data (s' x)
                     = zip_with (fun xi zi => vminus xi (vscale a zi))
                                (data (s x)) (data (s z))
                  /\ forall h, h <> x -> h <> y -> s' h = s h)
               (processes W) (processes W')
    /\ norm2 tp' x W' = Ok (r, W').
Proof.
  intros Hv Hv' Hxy Hc.
  pose proof (everywhere_impl _ _ W (operands_compatible_xyzzz x y z) Hc)
    as Hc'.
  eexists _, _. split; [|split].
  - unfold doubleCG3InitNorm.
    apply (reduceCuda_additive _ tp _ _ _ _ x y z z z W Hv
             (doubleCG3InitNorm_additive _ _) Hc').
  - apply (world_store_Forall2 _ _ _ _ _ _ _ _ _ _ Hc'). intros s Hs.
    destruct (load_operands_slots x y z z z s Hs) as (Hx & Hy & Hz & _).
    split; [|split].
    + store_lookup Hs. done.
    + store_lookup Hs. rewrite <- Hx, <- Hz, <- map_slots2. done.
    + intros h Hhx Hhy. store_lookup Hs. done.
  - rewrite norm2_global by done.
    do 2 f_equal. symmetry.
    apply (global_world_store _ _ _ _ _ _ _ _ _ _ _ Hc').
    intros s Hs. unfold field_norm2. store_lookup Hs.
    unfold local_sum. rewrite map_map. done.
Qed.

Lemma doubleCG3UpdateNorm_additive a b :
  element_additive_on (R := double) (T := T)
    (fun f : doubleCG3UpdateNorm_.t T =>
       doubleCG3UpdateNorm_.a f = a /\ doubleCG3UpdateNorm_.b f = b)
    (fun o => norm2_ 0
                (vplus (vscale (double2.x b)
                          (vminus (ox o) (vscale (double2.x a) (oz o))))
                       (vscale (double2.y b) (oy o))))
    (fun o => mkOps (vplus (vscale (double2.x b)
                              (vminus (ox o) (vscale (double2.x a) (oz o))))
                           (vscale (double2.y b) (oy o)))
                    (ox o) (oz o) (ow o) (ov o)).
Proof.
  split; [done|]. split; [done|].
  intros f s o [Ha Hb]. eexists. split.
  - simpl. rewrite Ha, Hb, norm2_plus. reflexivity.
  - split; reflexivity.
Qed.

(** X24.  After [doubleCG3UpdateNorm(a, b, x, y, z)] with [x] and [y]
    different fields, on every process [y] holds the elements [x] had,
    [x] holds [b*(x[i] - a*z[i]) + (1-b)*y[i]], and every other field is
    as before; the value returned is what [norm2(x)] returns on the new
    [x].  The member [tmp], which [operator()] assigns at each element,
    has no part in the result. *)
Theorem doubleCG3UpdateNorm_correct tp tp' (a b : double) (x y z : handle)
    (W : world T) :
  valid_geometry tp = true -> valid_geometry tp' = true ->
  x <> y ->
  everywhere (fun s => compatible (s x) (s y) /\ compatible (s x) (s z)) W ->
  exists (r : double) (W' : world T),
    doubleCG3UpdateNorm tp a b x y z W = Ok (r, W')
    /\ Forall2 (fun s s' =>
                  data (s' y) = data (s x)
                  /\ data (s' x)
                     = zip_with3
                         (fun xi yi zi =>
                            vplus (vscale b (vminus xi (vscale a zi)))
                                  (vscale (1 - b)%Qc yi))
                         (data (s x)) (data (s y)) (data (s z))
                  /\ forall h, h <> x -> h <> y -> s' h = s h)
               (processes W) (processes W')
    /\ norm2 tp' x W' = Ok (r, W').
Proof.
  intros Hv Hv' Hxy Hc.
  pose proof (everywhere_impl _ _ W (operands_compatible_xyzzz x y z) Hc)
    as Hc'.
  eexists _, _. split; [|split].
  - unfold doubleCG3UpdateNorm.
    eapply reduceCuda_additive_on;
      [exact Hv|apply doubleCG3UpdateNorm_additive|split; reflexivity
      |exact Hc'].
  - apply (world_store_Forall2 _ _ _ _ _ _ _ _ _ _ Hc'). intros s Hs.
    destruct (load_operands_slots x y z z z s Hs) as (Hx & Hy & Hz & _).
    split; [|split].
    + store_lookup Hs. done.
    + store_lookup Hs. rewrite <- Hx, <- Hy, <- Hz, <- map_slots3. done.
    + intros h Hhx Hhy. store_lookup Hs. done.
  - rewrite norm2_global by done.
    do 2 f_equal. symmetry.
    apply (global_world_store _ _ _ _ _ _ _ _ _ _ _ Hc').
    intros s Hs. unfold field_norm2. store_lookup Hs.
    unfold local_sum. rewrite map_map. done.
Qed.

Lemma quadrupleCG3UpdateNorm_additive a b :
  element_additive_on (R := double) (T := T)
    (fun f : quadrupleCG3UpdateNorm_.t T =>
       quadrupleCG3UpdateNorm_.a f = a /\ quadrupleCG3UpdateNorm_.b f = b)
    (fun o => norm2_ 0
                (vplus (vscale (double2.x b)
                          (vminus (oy o) (vscale (double2.x a) (ov o))))
                       (vscale (double2.y b) (ow o))))
    (fun o => mkOps (vplus (vscale (double2.x b)
                              (vplus (ox o) (vscale (double2.x a) (oy o))))
                           (vscale (double2.y b) (oz o)))
                    (vplus (vscale (double2.x b)
                              (vminus (oy o) (vscale (double2.x a) (ov o))))
                           (vscale (double2.y b) (ow o)))
                    (ox o) (oy o) (ov o)).
Proof.
  split; [done|]. split; [done|].
  intros f s o [Ha Hb]. eexists. split.
  - simpl. rewrite Ha, Hb, norm2_plus. reflexivity.
  - split; reflexivity.
Qed.

(** X25.  After [quadrupleCG3UpdateNorm(a, b, x, y, z, w, v)] on four
    different fields [x], [y], [z], [w], on every process [z] holds the
    elements [x] had and [w] those [y] had, [x] holds
    [b*(x[i] + a*y[i]) + (1-b)*z[i]] and [y] holds
    [b*(y[i] - a*v[i]) + (1-b)*w[i]] (line 761 subtracts [a*v]), and
    every other field is as before; the value returned is what
    [norm2(y)] returns on the new [y]. *)
Theorem quadrupleCG3UpdateNorm_correct tp tp' (a b : double)
    (x y z w v : handle) (W : world T) :
  valid_geometry tp = true -> valid_geometry tp' = true ->
  x <> y -> x <> z -> x <> w -> y <> z -> y <> w -> z <> w ->
  everywhere (fun s => compatible (s x) (s y) /\ compatible (s x) (s z)
                       /\ compatible (s x) (s w) /\ compatible (s x) (s v))
             W ->
  exists (r : double) (W' : world T),
    quadrupleCG3UpdateNorm tp a b x y z w v W = Ok (r, W')
    /\ Forall2 (fun s s' =>
                  data (s' z) = data (s x)
                  /\ data (s' w) = data (s y)
                  /\ data (s' x)
                     = zip_with3
                         (fun xi yi zi =>
                            vplus (vscale b (vplus xi (vscale a yi)))
                                  (vscale (1 - b)%Qc zi))
                         (data (s x)) (data (s y)) (data (s z))
                  /\ data (s' y)
                     = zip_with3
                         (fun yi vi wi =>
                            vplus (vscale b (vminus yi (vscale a vi)))
                                  (vscale (1 - b)%Qc wi))
                         (data (s y)) (data (s v)) (data (s w))
                  /\ forall h, h <> x -> h <> y -> h <> z -> h <> w ->
                               s' h = s h)
               (processes W) (processes W')
    /\ norm2 tp' y W' = Ok (r, W').
Proof.
  intros Hv Hv' Hxy Hxz Hxw Hyz Hyw Hzw Hc.
  pose proof (everywhere_impl _ _ W (operands_compatible_all x y z w v) Hc)
    as Hc'.
  eexists _, _. split; [|split].
  - unfold quadrupleCG3UpdateNorm.
    eapply reduceCuda_additive_on;
      [exact Hv|apply quadrupleCG3UpdateNorm_additive|split; reflexivity
      |exact Hc'].
  - apply (world_store_Forall2 _ _ _ _ _ _ _ _ _ _ Hc'). intros s Hs.
    destruct (load_operands_slots x y z w v s Hs)
      as (Hx & Hy & Hz & Hw & Hvv).
    split; [|split; [|split; [|split]]].
    + store_lookup Hs. done.
    + store_lookup Hs. done.
    + store_lookup Hs. rewrite <- Hx, <- Hy, <- Hz, <- map_slots3. done.
    + store_lookup Hs. rewrite <- Hy, <- Hvv, <- Hw, <- map_slots3. done.
    + intros h Hhx Hhy Hhz Hhw. store_lookup Hs. done.
  - rewrite norm2_global by done.
    do 2 f_equal. symmetry.
    apply (global_world_store _ _ _ _ _ _ _ _ _ _ _ Hc').
    intros s Hs. unfold field_norm2. store_lookup Hs.
    unfold local_sum. rewrite map_map. done.
Qed.

End FusedUpdates3.

Section Congruence.
Context {R T : Type} `{ReduceType R}.

Lemma local_sum_ext (c c' : operands T -> R) x y z w v (s : store T) :
  (forall o, c o = c' o) ->
  local_sum c x y z w v s = local_sum c' x y z w v s.
Proof. intros Hc. unfold local_sum. f_equal. apply map_ext. done. Qed.

Lemma local_store_ext wr (u u' : operands T -> operands T) x y z w v
    (s : store T) :
  (forall o, u o = u' o) ->
  local_store wr u x y z w v s = local_store wr u' x y z w v s.
Proof.
  intros Hu. unfold local_store. f_equal. apply map_ext. done.
Qed.

Lemma world_update_ext wr (c c' : operands T -> R)
    (u u' : operands T -> operands T) x y z w v (W : world T) :
  (forall o, c o = c' o) -> (forall o, u o = u' o) ->
  (Ok (global (local_sum c x y z w v) W, world_store wr u x y z w v W)
   : outcome (R * world T))
  = Ok (global (local_sum c' x y z w v) W, world_store wr u' x y z w v W).
Proof.
  intros Hc Hu. do 2 f_equal.
  - unfold global. f_equal. apply map_ext. intros s.
    apply local_sum_ext. done.
  - unfold world_store. f_equal; [apply local_store_ext; done|].
    apply map_ext. intros s. apply local_store_ext. done.
Qed.

End Congruence.

Section UnitWeight.
Context {T : Type} `{FloatNLaws T} `{!FloatNZero T} `{!FloatNAlgebra T}.

Lemma unit_weight (p q : T) :
  vplus (vscale 1 p) (vscale (1 - 1)%Qc q) = p.
Proof.
  replace (1 - 1)%Qc with 0%Qc by ring.
  rewrite vscale_one, vplus_vscale_zero. done.
Qed.

(** X26.  With the weight [b = 1] the update steps of CG3 are its
    initial steps: [doubleCG3UpdateNorm(a, 1, x, y, z)] returns the
    value and leaves the memory of [doubleCG3InitNorm(a, x, y, z)], and
    [quadrupleCG3UpdateNorm(a, 1, x, y, z, w, v)] those of
    [quadrupleCG3InitNorm(a, x, y, z, w, v)], whatever fields are bound
    to the operands and whatever the launch geometries. *)
Theorem CG3_update_with_unit_weight tp tp' (a : double)
    (x y z w v : handle) (W : world T) :
  valid_geometry tp = true -> valid_geometry tp' = true ->
  (everywhere (fun s => compatible (s x) (s y) /\ compatible (s x) (s z))
              W ->
   doubleCG3UpdateNorm tp a 1 x y z W = doubleCG3InitNorm tp' a x y z W)
  /\ (everywhere
        (fun s => compatible (s x) (s y) /\ compatible (s x) (s z)
                  /\ compatible (s x) (s w) /\ compatible (s x) (s v)) W ->
      quadrupleCG3UpdateNorm tp a 1 x y z w v W
      = quadrupleCG3InitNorm tp' a x y z w v W).
Proof.
  intros Hv Hv'. split; intros Hc.
  - pose proof (everywhere_impl _ _ W (operands_compatible_xyzzz x y z) Hc)
      as Hc'.
    unfold doubleCG3UpdateNorm, doubleCG3InitNorm.
    rewrite (reduceCuda_additive _ tp' _ _ _ _ x y z z z W Hv'
               (doubleCG3InitNorm_additive _ _) Hc').
    erewrite reduceCuda_additive_on;
      [|exact Hv|apply doubleCG3UpdateNorm_additive|split; reflexivity
       |exact Hc'].
    apply world_update_ext; intros o; cbn [double2.x double2.y];
      rewrite unit_weight; done.
  - pose proof (everywhere_impl _ _ W (operands_compatible_all x y z w v) Hc)
      as Hc'.
    unfold quadrupleCG3UpdateNorm, quadrupleCG3InitNorm.
    rewrite (reduceCuda_additive _ tp' _ _ _ _ x y z w v W Hv'
               (quadrupleCG3InitNorm_additive _ _) Hc').
    erewrite reduceCuda_additive_on;
      [|exact Hv|apply quadrupleCG3UpdateNorm_additive|split; reflexivity
       |exact Hc'].
    apply world_update_ext; intros o; cbn [double2.x double2.y];
      rewrite !unit_weight; done.
Qed.

End UnitWeight.

(** ** More on the heavy-quark residual norm *)

Lemma sites_of_cover {A} (M n : nat) (l : list A) :
  (length l <= M * n)%nat -> concat (sites_of M n l) = l.
Proof.
  revert l. induction n as [|n IH]; intros l Hl; simpl.
  - destruct l; simpl in *; [done|lia].
  - rewrite IH; [apply take_drop|]. rewrite length_drop. lia.
Qed.

Lemma sites_of_map {A B} (g : A -> B) (M n : nat) (l : list A) :
  sites_of M n (map g l) = map (map g) (sites_of M n l).
Proof.
  revert l. induction n as [|n IH]; intros l; simpl; [done|].
  rewrite <- fmap_take, <- fmap_drop, IH. done.
Qed.

Lemma sites_of_length {A} (M n : nat) (l : list A) :
  length (sites_of M n l) = n.
Proof. revert l. induction n as [|n IH]; intros l; simpl; auto. Qed.

Lemma sites_of_Forall {A} (P : A -> Prop) (M n : nat) (l : list A) :
  Forall P l -> Forall (Forall P) (sites_of M n l).
Proof.
  revert l. induction n as [|n IH]; intros l Hl; simpl; constructor.
  - apply Forall_take. done.
  - apply IH, Forall_drop. done.
Qed.

Section HeavyQuarkMore.
Context {T : Type} `{FloatNLaws T} `{!FloatNZero T} `{!FloatNAlgebra T}.

Lemma hq_sites_norm (sol : operands T -> T) (sites : list (list (operands T))) :
  sum_partials
    (map (fun site => sum_partials (map (fun o => norm2_ 0 (sol o)) site))
         sites)
  = sum_partials (map (fun o => norm2_ 0 (sol o)) (concat sites)).
Proof.
  induction sites as [|l ls IH]; simpl; [done|].
  rewrite map_app, sum_partials_app. f_equal. exact IH.
Qed.

Lemma kernel_sites_cover x y z w v (s : store T) :
  operands_compatible x y z w v s -> whole_sites (s x) ->
  concat (kernel_sites true x y z w v s) = load_operands x y z w v s.
Proof.
  intros Hc Hw. unfold kernel_sites. apply sites_of_cover.
  rewrite (load_operands_length x y z w v s Hc). unfold whole_sites in Hw.
  lia.
Qed.

Lemma hq_local_norms (sol res : operands T -> T) x y z w v (s : store T) :
  operands_compatible x y z w v s -> whole_sites (s x) ->
  double3.x (hq_local sol res x y z w v s)
  = local_sum (fun o => norm2_ 0 (sol o)) x y z w v s
  /\ double3.y (hq_local sol res x y z w v s)
     = local_sum (fun o => norm2_ 0 (res o)) x y z w v s.
Proof.
  intros Hc Hw. unfold hq_local, local_sum.
  rewrite <- (kernel_sites_cover x y z w v s Hc Hw).
  rewrite (sum_partials_hom double3.x), (sum_partials_hom double3.y) by done.
  rewrite !map_map. cbn [hq_site double3.x double3.y].
  rewrite <- !hq_sites_norm. done.
Qed.

Lemma HeavyQuarkResidualNorm_global tp x r (W : world T) :
  Ncolor (self W x) = 3 -> valid_geometry tp = true ->
  everywhere (fun s => compatible (s x) (s r)) W ->
  HeavyQuarkResidualNorm tp x r W
  = Ok (let rtn := global (hq_local ox oy x r r r r) W in
        make_double3 (double3.x rtn) (double3.y rtn)
          (double3.z rtn
           / of_int (int_mul (Volume (self W x)) (comm_size W))),
        W).
Proof.
  intros Hn Hv Hc.
  exact (proj2 (HeavyQuarkResidualNorm_over_locals comm_allreduce tp x r W
                  Hn Hv Hc)).
Qed.

Lemma xpyHeavyQuarkResidualNorm_global tp x y r (W : world T) :
  Ncolor (self W x) = 3 -> valid_geometry tp = true ->
  everywhere (fun s => compatible (s x) (s y) /\ compatible (s x) (s r)) W ->
  xpyHeavyQuarkResidualNorm tp x y r W
  = Ok (let rtn := global (hq_local (fun o => vplus (ox o) (oy o)) oz
                             x y r r r) W in
        make_double3 (double3.x rtn) (double3.y rtn)
          (double3.z rtn
           / of_int (int_mul (Volume (self W x)) (comm_size W))),
        W).
Proof.
  intros Hn Hv Hc.
  exact (proj2 (xpyHeavyQuarkResidualNorm_over_locals comm_allreduce tp
                  x y r W Hn Hv Hc)).
Qed.

Lemma HeavyQuarkResidualNorm_components tp x r (W : world T) :
  Ncolor (self W x) = 3 -> valid_geometry tp = true ->
  everywhere (fun s => compatible (s x) (s r) /\ whole_sites (s x)) W ->
  HeavyQuarkResidualNorm tp x r W
  = Ok (make_double3
          (global (fun s => field_norm2 (s x)) W)
          (global (fun s => field_norm2 (s r)) W)
          (double3.z (global (hq_local ox oy x r r r r) W)
           / of_int (int_mul (Volume (self W x)) (comm_size W))), W).
Proof.
  intros Hn Hv Hc.
  assert (Hc1 : everywhere (fun s => compatible (s x) (s r)) W).
  { eapply everywhere_impl; [|exact Hc]. intros s [Hs _]. done. }
  rewrite HeavyQuarkResidualNorm_global by done. cbv zeta.
  rewrite (global_hom double3.x), (global_hom double3.y) by done.
  do 2 f_equal. f_equal.
  - apply (global_ext _ _ _ _ Hc). intros s [Hs Hw].
    assert (Hs' : operands_compatible x r r r r s) by (repeat split; apply Hs).
    destruct (hq_local_norms ox oy x r r r r s Hs' Hw) as [-> _].
    destruct (load_operands_slots x r r r r s Hs') as (Hx & _).
    unfold local_sum, field_norm2. rewrite <- Hx, map_map. done.
  - apply (global_ext _ _ _ _ Hc). intros s [Hs Hw].
    assert (Hs' : operands_compatible x r r r r s) by (repeat split; apply Hs).
    destruct (hq_local_norms ox oy x r r r r s Hs' Hw) as [_ ->].
    destruct (load_operands_slots x r r r r s Hs') as (_ & Hy & _).
    unfold local_sum, field_norm2. rewrite <- Hy, map_map. done.
Qed.

(** X27.  The first two components of the heavy-quark residual norm are
    the squared norms of the solution and of the residual: on fields of
    three colours whose elements are those of their sites,
    [HeavyQuarkResidualNorm(x, r)] returns in them what [norm2(x)] and
    [norm2(r)] return, and writes nothing. *)
Theorem HeavyQuarkResidualNorm_norms tp tp1 tp2 (x r : handle) (W : world T) :
  Ncolor (self W x) = 3 ->
  valid_geometry tp = true -> valid_geometry tp1 = true ->
  valid_geometry tp2 = true ->
  everywhere (fun s => compatible (s x) (s r) /\ whole_sites (s x)) W ->
  exists nx nr hq : double,
    norm2 tp1 x W = Ok (nx, W)
    /\ norm2 tp2 r W = Ok (nr, W)
    /\ HeavyQuarkResidualNorm tp x r W = Ok (make_double3 nx nr hq, W).
Proof.
  intros Hn Hv Hv1 Hv2 Hc. eexists _, _, _.
  split; [apply norm2_global; done|].
  split; [apply norm2_global; done|].
  apply HeavyQuarkResidualNorm_components; done.
Qed.

Lemma zip_operands_sum (dx dy dr : list T) :
  zip_operands (zip_with vplus dx dy) dr dr dr dr
  = map (fun o => mkOps (vplus (ox o) (oy o)) (oz o) (oz o) (oz o) (oz o))
        (zip_operands dx dy dr dr dr).
Proof.
  revert dy dr. induction dx as [|ex dx IH]; intros [|ey dy] [|er dr];
    simpl; try done.
  rewrite IH. done.
Qed.

(** X28.  The three-operand variant is the two-operand one on the sum:
    when a field [h] of the shape of [x] holds [x[i] + y[i]] on every
    process, [xpyHeavyQuarkResidualNorm(x, y, r)] returns what
    [HeavyQuarkResidualNorm(h, r)] returns, the zero triple of the
    degenerate case included. *)
Theorem xpyHeavyQuarkResidualNorm_of_sum tp tp' (x y r h : handle)
    (W : world T) :
  valid_geometry tp = true -> valid_geometry tp' = true ->
  everywhere (fun s => compatible (s x) (s y) /\ compatible (s x) (s r)
                       /\ same_shape (s x) (s h)
                       /\ data (s h) = zip_with vplus (data (s x)) (data (s y)))
             W ->
  xpyHeavyQuarkResidualNorm tp x y r W = HeavyQuarkResidualNorm tp' h r W.
Proof.
  intros Hv Hv' Hc.
  destruct (proj1 Hc) as (_ & _ & (_ & _ & Hnc & Hvol & _) & _).
  destruct (decide (Ncolor (self W x) = 3)) as [Hn|Hn].
  - rewrite xpyHeavyQuarkResidualNorm_global; [|done|done|].
    2:{ eapply everywhere_impl; [|exact Hc]. intros s (? & ? & _). done. }
    rewrite HeavyQuarkResidualNorm_global; [|congruence|done|].
    2:{ eapply everywhere_impl; [|exact Hc].
        intros s (_ & (Hp & Hl & Hs) & (Hp' & Hs' & _ & _ & Hl') & _).
        repeat split; congruence. }
    rewrite Hvol.
    rewrite (global_ext _ (hq_local ox oy h r r r r)
               (hq_local (fun o => vplus (ox o) (oy o)) oz x y r r r) W Hc);
      [done|].
    intros s (_ & _ & (_ & _ & _ & Hvs & Hls) & Hd).
    unfold hq_local, kernel_sites, load_operands, site_size.
    unfold Length in Hls. apply Nat2Z.inj in Hls.
    rewrite Hvs, Hls, Hd, zip_operands_sum, sites_of_map, map_map.
    f_equal. apply map_ext. intros site.
    unfold hq_site. rewrite !map_map. done.
  - unfold xpyHeavyQuarkResidualNorm, HeavyQuarkResidualNorm,
      xpyHeavyQuarkResidualNorm_over, HeavyQuarkResidualNorm_over.
    rewrite !decide_True by congruence. done.
Qed.

Lemma sum_partials_const {A} (c : double) (l : list A) :
  sum_partials (map (fun _ => c) l) = (c * of_int (Z.of_nat (length l)))%Qc.
Proof.
  unfold of_int, sum_partials.
  induction l as [|e l IH]; cbn [map foldr length].
  - change (Z.of_nat 0) with 0. rewrite Z2Qc_inj_0. simpl. ring.
  - rewrite IH, Nat2Z.inj_succ, <- Z.add_1_r, Z2Qc_inj_add, Z2Qc_inj_1.
    simpl. ring.
Qed.

Lemma zip_operands_diag (d : list T) :
  Forall (fun o => ox o = oy o) (zip_operands d d d d d).
Proof. induction d as [|e d IH]; simpl; constructor; done. Qed.

Lemma hq_site_self (site : list (operands T)) :
  Forall (fun o => ox o = oy o) site ->
  double3.z (hq_site ox oy site) = 1%Qc.
Proof.
  intros Hs. unfold hq_site. cbn [double3.z].
  rewrite <- (Forall_fmap_ext_1 (fun o => norm2_ 0 (ox o))
                (fun o => norm2_ 0 (oy o)) site).
  - unfold gt0. case_bool_decide as Hpos; [|done].
    apply Qcmult_inv_r. intros Hz. apply (Qclt_not_eq _ _ Hpos). done.
  - eapply Forall_impl; [|exact Hs]. intros o Ho. simpl in Ho.
    rewrite Ho. done.
Qed.

(** X29.  The heavy-quark norm of a field against itself is one: on a
    field of three colours whose elements are those of its sites, with
    the same positive number of sites on every process and a product
    [x.Volume() * comm_size()] that fits an [int],
    [HeavyQuarkResidualNorm(x, x)] returns [norm2(x)] twice and the
    ratio 1, also where [x] vanishes on a site, since then the site
    counts 1. *)
Theorem HeavyQuarkResidualNorm_of_itself tp tp' (x : handle) (W : world T) :
  Ncolor (self W x) = 3 ->
  valid_geometry tp = true -> valid_geometry tp' = true ->
  0 < Volume (self W x) ->
  Volume (self W x) * comm_size W < 2 ^ 31 ->
  everywhere (fun s => whole_sites (s x)
                       /\ Volume (s x) = Volume (self W x)) W ->
  exists n : double,
    norm2 tp' x W = Ok (n, W)
    /\ HeavyQuarkResidualNorm tp x x W = Ok (make_double3 n n 1, W).
Proof.
  intros Hn Hv Hv' Hpos Hint Hc. eexists.
  split; [apply norm2_global; done|].
  rewrite HeavyQuarkResidualNorm_components; [|done|done|].
  2:{ eapply everywhere_impl; [|exact Hc]. intros s [Hw _].
      split; [apply compatible_refl|done]. }
  assert (Hcs : 0 < comm_size W) by (unfold comm_size; lia).
  rewrite int_mul_small by nia.
  do 2 f_equal. f_equal.
  rewrite (global_hom double3.z) by done.
  rewrite (global_ext _ _ (fun _ => of_int (Volume (self W x))) W Hc).
  - unfold global, comm_allreduce. rewrite sum_partials_const.
    unfold comm_size, processes. cbn [length].
    unfold of_int. rewrite <- Z2Qc_inj_mul.
    apply Qcmult_inv_r. intros Hz.
    rewrite <- Z2Qc_inj_0 in Hz. apply Z2Qc_inj in Hz. lia.
  - intros s [_ Hvol]. unfold hq_local.
    rewrite (sum_partials_hom double3.z), map_map by done.
    rewrite (Forall_fmap_ext_1 _ (fun _ => 1%Qc)).
    + rewrite sum_partials_const. unfold kernel_sites.
      rewrite sites_of_length, Z2Nat.id by lia.
      rewrite Hvol. apply Qcmult_1_l.
    + unfold kernel_sites, load_operands.
      eapply Forall_impl; [|apply sites_of_Forall, zip_operands_diag].
      intros site. apply hq_site_self.
Qed.

End HeavyQuarkMore.

(** ** More concrete runs *)

(** [cabxpyzAxNorm(3, 2+i, x, y, z)] on the job of two processes: the
    value returned, 928, is the squared norm of the new [z]; that of the
    new [x] is 144; and [y] is as before. *)
Example cabxpyzAxNorm_of_job :
  match cabxpyzAxNorm Examples.tp22 (Qc_of_Z 3)
          (mkComplex (Qc_of_Z 2) (Qc_of_Z 1)) 0%nat 1%nat 2%nat Inputs.job
  with
  | Ok (r, W') =>
      Some (this r,
            option_map this (Examples.returned (norm2 Examples.tp13 2%nat W')),
            option_map this (Examples.returned (norm2 Examples.tp13 0%nat W')),
            map (fun e => (this (double2.x e), this (double2.y e)))
                (data (self W' 1%nat)))
  | Fatal _ => None
  end
  = Some ((928 # 1)%Q, Some (928 # 1)%Q, Some (144 # 1)%Q,
          [((1 # 1)%Q, (1 # 1)%Q); ((2 # 1)%Q, (1 # 1)%Q)]).
Proof. vm_compute. reflexivity. Qed.

(** ** The further properties at concrete inputs *)

Module MoreRuns.
Import ReduceBuffer.

Lemma reduce_buffer_bytes_formula_witness :
  reduce_buffer_bytes Examples.device = 128 * (4 * 4) * 2.
Proof.
  apply (ReduceBufferMore.reduce_buffer_bytes_formula Examples.device).
  - vm_compute. discriminate.
  - vm_compute. discriminate.
  - reflexivity.
Defined.

(** The first initialisation finds QUDA_ENABLE_FAST_REDUCE=1, the second
    one, after a teardown, finds it unset. *)
Lemma fast_reduce_latch_witness :
  exists st1 st2 : state,
    initReduce Inputs.fast_device Examples.fresh = Ok st1
    /\ initReduce Examples.device (endReduce st1) = Ok st2
    /\ getFastReduce Examples.fresh = false
    /\ getFastReduce st1 = true
    /\ getFastReduce (endReduce st1) = true
    /\ getFastReduce st2 = true.
Proof.
  set (st1 := match initReduce Inputs.fast_device Examples.fresh with
              | Ok st => st
              | Fatal _ => Examples.fresh
              end).
  set (st2 := match initReduce Examples.device (endReduce st1) with
              | Ok st => st
              | Fatal _ => Examples.fresh
              end).
  assert (H1 : initReduce Inputs.fast_device Examples.fresh = Ok st1)
    by (vm_compute; reflexivity).
  assert (H2 : initReduce Examples.device (endReduce st1) = Ok st2)
    by (vm_compute; reflexivity).
  exists st1, st2.
  destruct (ReduceBufferMore.fast_reduce_latch _ _ _ _ _ H1 H2)
    as (Ha & Hb & Hc).
  split; [exact H1|]. split; [exact H2|]. split; [reflexivity|].
  split; [exact Ha|]. split; [rewrite Hb; exact Ha|]. exact (Hc Ha).
Defined.

Lemma initReduce_twice_leaks_event_witness :
  exists st1 st2 : state,
    initReduce Examples.device Examples.fresh = Ok st1
    /\ initReduce Examples.device st1 = Ok st2
    /\ events Examples.fresh.2 = []
    /\ events (endReduce st2).2 = [getReduceEvent st1].
Proof.
  set (st1 := match initReduce Examples.device Examples.fresh with
              | Ok st => st
              | Fatal _ => Examples.fresh
              end).
  set (st2 := match initReduce Examples.device st1 with
              | Ok st => st
              | Fatal _ => Examples.fresh
              end).
  assert (H1 : initReduce Examples.device Examples.fresh = Ok st1)
    by (vm_compute; reflexivity).
  assert (H2 : initReduce Examples.device st1 = Ok st2)
    by (vm_compute; reflexivity).
  exists st1, st2.
  destruct (ReduceBufferMore.initReduce_twice_leaks_event _ _ _ _ _ H1 H2)
    as (_ & _ & Hc).
  split; [exact H1|]. split; [exact H2|]. split; [reflexivity|]. exact Hc.
Defined.

Lemma initReduce_allocates_witness :
  exists st' : state,
    initReduce Inputs.fast_device Examples.fresh = Ok st'
    /\ getDeviceReduceBuffer st' <> 0 /\ getHostReduceBuffer st' <> 0
    /\ getHostReduceBuffer st' <> getDeviceReduceBuffer st'
    /\ getMappedHostReduceBuffer st' = getDeviceReduceBuffer st'
    /\ allocations st'.2
       = [mkAlloc (getHostReduceBuffer st') 4096 pinned_mem true;
          mkAlloc (getDeviceReduceBuffer st') 4096 device_mem false]
    /\ device_bytes_free st'.2 = 2 ^ 20 - 4096
    /\ host_bytes_free st'.2 = 2 ^ 20 - 4096.
Proof.
  apply (ReduceBufferMore.initReduce_allocates Inputs.fast_device
           Examples.fresh).
  - reflexivity.
  - reflexivity.
  - reflexivity.
  - vm_compute. discriminate.
  - vm_compute. discriminate.
Defined.

End MoreRuns.

Lemma reDotProduct_symmetric_witness :
  reDotProduct Examples.tp22 0%nat 1%nat Examples.two
  = reDotProduct Examples.tp13 1%nat 0%nat Examples.two.
Proof.
  apply (reDotProduct_symmetric (T := double2)).
  - reflexivity.
  - reflexivity.
  - repeat constructor.
Defined.

Lemma cDotProduct_real_part_witness :
  exists c : Complex,
    cDotProduct Examples.tp22 0%nat 1%nat Examples.two = Ok (c, Examples.two)
    /\ reDotProduct Examples.tp13 0%nat 1%nat Examples.two
       = Ok (REAL c, Examples.two).
Proof.
  apply (cDotProduct_real_part (T := double2)).
  - reflexivity.
  - reflexivity.
  - repeat constructor.
Defined.

Lemma cDotProduct_diagonal_witness :
  exists n : double,
    norm2 Examples.tp13 0%nat Examples.two = Ok (n, Examples.two)
    /\ cDotProduct Examples.tp22 0%nat 0%nat Examples.two
       = Ok (mkComplex n 0, Examples.two).
Proof.
  apply (cDotProduct_diagonal (T := double2)); reflexivity.
Defined.

Lemma norms_positive_definite_witness :
  exists n1 n2 : double,
    norm1 Examples.tp22 0%nat Examples.two = Ok (n1, Examples.two)
    /\ norm2 Examples.tp22 0%nat Examples.two = Ok (n2, Examples.two)
    /\ (0 <= n1)%Qc /\ (0 <= n2)%Qc
    /\ (n2 = 0%Qc ->
        Forall (fun s => Forall (fun e => e = vzero) (data (s 0%nat)))
               (processes Examples.two)).
Proof.
  apply (norms_positive_definite (T := double2)). reflexivity.
Defined.

Lemma tripleCGReduction_components_witness :
  exists nx ny dyz : double,
    norm2 Examples.tp13 0%nat Examples.two = Ok (nx, Examples.two)
    /\ norm2 Examples.tp22 1%nat Examples.two = Ok (ny, Examples.two)
    /\ reDotProduct Examples.tp13 1%nat 2%nat Examples.two
       = Ok (dyz, Examples.two)
    /\ tripleCGReduction Examples.tp22 0%nat 1%nat 2%nat Examples.two
       = Ok (make_double3 nx ny dyz, Examples.two)
    /\ quadrupleCGReduction Examples.tp13 0%nat 1%nat 2%nat Examples.two
       = Ok (make_double4 nx ny dyz nx, Examples.two).
Proof.
  apply (tripleCGReduction_components (T := double2)).
  - reflexivity.
  - reflexivity.
  - reflexivity.
  - reflexivity.
  - reflexivity.
  - repeat constructor.
Defined.

Lemma cDotProductNormA_components_witness :
  exists (c : Complex) (n : double),
    cDotProduct Examples.tp13 0%nat 1%nat Examples.two = Ok (c, Examples.two)
    /\ norm2 Examples.tp22 0%nat Examples.two = Ok (n, Examples.two)
    /\ cDotProductNormA Examples.tp22 0%nat 1%nat Examples.two
       = Ok (make_double3 (REAL c) (IMAG c) n, Examples.two).
Proof.
  apply (cDotProductNormA_components (T := double2)).
  - reflexivity.
  - reflexivity.
  - reflexivity.
  - repeat constructor.
Defined.

(** Once on two different fields, once with [y] bound to [x]
    itself. *)
Lemma axpyReDot_correct_witness :
  (exists (r : double) (W' : world double2),
     axpyReDot Examples.tp22 (Qc_of_Z 2) 0%nat 1%nat Inputs.job = Ok (r, W')
     /\ Forall2 (fun s s' =>
                   data (s' 1%nat)
                   = zip_with (fun xi yi => vplus yi (vscale (Qc_of_Z 2) xi))
                              (data (s 0%nat)) (data (s 1%nat))
                   /\ forall h, h <> 1%nat -> s' h = s h)
                (processes Inputs.job) (processes W')
     /\ reDotProduct Examples.tp13 0%nat 1%nat W' = Ok (r, W'))
  /\ (exists (r : double) (W' : world double2),
        axpyReDot Examples.tp22 (Qc_of_Z 2) 0%nat 0%nat Inputs.job
        = Ok (r, W')
        /\ Forall2 (fun s s' =>
                      data (s' 0%nat)
                      = zip_with
                          (fun xi yi => vplus yi (vscale (Qc_of_Z 2) xi))
                          (data (s 0%nat)) (data (s 0%nat))
                      /\ forall h, h <> 0%nat -> s' h = s h)
                   (processes Inputs.job) (processes W')).
Proof.
  split.
  - destruct (axpyReDot_correct (T := double2) Examples.tp22 Examples.tp13
                (Qc_of_Z 2) 0%nat 1%nat Inputs.job eq_refl eq_refl)
      as (r & W' & Hr & Hs & Hd).
    { repeat constructor. }
    exists r, W'. split; [exact Hr|]. split; [exact Hs|].
    apply Hd. discriminate.
  - destruct (axpyReDot_correct (T := double2) Examples.tp22 Examples.tp13
                (Qc_of_Z 2) 0%nat 0%nat Inputs.job eq_refl eq_refl)
      as (r & W' & Hr & Hs & _).
    { repeat constructor. }
    exists r, W'. split; [exact Hr|exact Hs].
Defined.

Lemma caxpyNorm_correct_witness :
  exists (r : double) (W' : world double2),
    caxpyNorm Examples.tp22 (mkComplex (Qc_of_Z 2) (Qc_of_Z 1)) 0%nat 1%nat
      Inputs.job = Ok (r, W')
    /\ Forall2 (fun s s' =>
                  data (s' 1%nat)
                  = zip_with (Caxpy_ (make_double2 (Qc_of_Z 2) (Qc_of_Z 1)))
                             (data (s 0%nat)) (data (s 1%nat))
                  /\ forall h, h <> 1%nat -> s' h = s h)
               (processes Inputs.job) (processes W')
    /\ norm2 Examples.tp13 1%nat W' = Ok (r, W').
Proof.
  apply (caxpyNorm_correct (T := double2) Examples.tp22 Examples.tp13
           (mkComplex (Qc_of_Z 2) (Qc_of_Z 1))).
  - reflexivity.
  - reflexivity.
  - repeat constructor.
Defined.

Lemma caxpyXmazNormX_correct_witness :
  exists (r : double) (W' : world double2),
    caxpyXmazNormX Examples.tp22 (mkComplex (Qc_of_Z 2) (Qc_of_Z 1))
      0%nat 1%nat 2%nat Inputs.job = Ok (r, W')
    /\ Forall2 (fun s s' =>
                  data (s' 1%nat)
                  = zip_with (Caxpy_ (make_double2 (Qc_of_Z 2) (Qc_of_Z 1)))
                             (data (s 0%nat)) (data (s 1%nat))
                  /\ data (s' 0%nat)
                     = zip_with
                         (Caxpy_ (neg2 (make_double2 (Qc_of_Z 2)
                                                     (Qc_of_Z 1))))
                         (data (s 2%nat)) (data (s 0%nat))
                  /\ forall h, h <> 0%nat -> h <> 1%nat -> s' h = s h)
               (processes Inputs.job) (processes W')
    /\ norm2 Examples.tp13 0%nat W' = Ok (r, W').
Proof.
  apply (caxpyXmazNormX_correct (T := double2) Examples.tp22 Examples.tp13
           (mkComplex (Qc_of_Z 2) (Qc_of_Z 1))).
  - reflexivity.
  - reflexivity.
  - discriminate.
  - repeat constructor.
Defined.

Lemma cabxpyzAxNorm_correct_witness :
  exists (r : double) (W' : world double2),
    cabxpyzAxNorm Examples.tp22 (Qc_of_Z 3)
      (mkComplex (Qc_of_Z 2) (Qc_of_Z 1)) 0%nat 1%nat 2%nat Inputs.job
    = Ok (r, W')
    /\ Forall2 (fun s s' =>
                  data (s' 0%nat) = map (vscale (Qc_of_Z 3)) (data (s 0%nat))
                  /\ data (s' 2%nat)
                     = zip_with
                         (fun xi yi =>
                            Caxpy_ (make_double2 (Qc_of_Z 2) (Qc_of_Z 1))
                                   (vscale (Qc_of_Z 3) xi) yi)
                         (data (s 0%nat)) (data (s 1%nat))
                  /\ forall h, h <> 0%nat -> h <> 2%nat -> s' h = s h)
               (processes Inputs.job) (processes W')
    /\ norm2 Examples.tp13 2%nat W' = Ok (r, W').
Proof.
  apply (cabxpyzAxNorm_correct (T := double2) Examples.tp22 Examples.tp13
           (Qc_of_Z 3) (mkComplex (Qc_of_Z 2) (Qc_of_Z 1))).
  - reflexivity.
  - reflexivity.
  - discriminate.
  - repeat constructor.
Defined.

Lemma caxpyDotzy_correct_witness :
  exists (c : Complex) (W' : world double2),
    caxpyDotzy Examples.tp22 (mkComplex (Qc_of_Z 2) (Qc_of_Z 1))
      0%nat 1%nat 2%nat Inputs.job = Ok (c, W')
    /\ Forall2 (fun s s' =>
                  data (s' 1%nat)
                  = zip_with (Caxpy_ (make_double2 (Qc_of_Z 2) (Qc_of_Z 1)))
                             (data (s 0%nat)) (data (s 1%nat))
                  /\ forall h, h <> 1%nat -> s' h = s h)
               (processes Inputs.job) (processes W')
    /\ cDotProduct Examples.tp13 2%nat 1%nat W' = Ok (c, W').
Proof.
  apply (caxpyDotzy_correct (T := double2) Examples.tp22 Examples.tp13
           (mkComplex (Qc_of_Z 2) (Qc_of_Z 1))).
  - reflexivity.
  - reflexivity.
  - discriminate.
  - repeat constructor.
Defined.

Lemma axpyCGNorm_correct_witness :
  exists (n d : double) (W' : world double2),
    axpyCGNorm Examples.tp22 (Qc_of_Z 2) 0%nat 1%nat Inputs.job
    = Ok (mkComplex n (Qc_of_Z 2 * d)%Qc, W')
    /\ Forall2 (fun s s' =>
                  data (s' 1%nat)
                  = zip_with (fun xi yi => vplus yi (vscale (Qc_of_Z 2) xi))
                             (data (s 0%nat)) (data (s 1%nat))
                  /\ forall h, h <> 1%nat -> s' h = s h)
               (processes Inputs.job) (processes W')
    /\ norm2 Examples.tp13 1%nat W' = Ok (n, W')
    /\ reDotProduct Examples.tp13 1%nat 0%nat W' = Ok (d, W').
Proof.
  apply (axpyCGNorm_correct (T := double2)).
  - reflexivity.
  - reflexivity.
  - reflexivity.
  - discriminate.
  - repeat constructor.
Defined.

Lemma caxpbypzYmbwcDotProductUYNormY_correct_witness :
  exists (c : Complex) (n : double) (W' : world double2),
    caxpbypzYmbwcDotProductUYNormY Examples.tp22
      (mkComplex (Qc_of_Z 2) (Qc_of_Z 1)) 0%nat
      (mkComplex (Qc_of_Z 0) (Qc_of_Z 3)) 1%nat 2%nat 3%nat 4%nat Inputs.job
    = Ok (make_double3 (REAL c) (IMAG c) n, W')
    /\ Forall2 (fun s s' =>
                  data (s' 2%nat)
                  = zip_with3
                      (fun xi yi zi =>
                         Caxpy_ (make_double2 (Qc_of_Z 0) (Qc_of_Z 3)) yi
                           (Caxpy_ (make_double2 (Qc_of_Z 2) (Qc_of_Z 1))
                                   xi zi))
                      (data (s 0%nat)) (data (s 1%nat)) (data (s 2%nat))
                  /\ data (s' 1%nat)
                     = zip_with
                         (Caxpy_ (neg2 (make_double2 (Qc_of_Z 0)
                                                     (Qc_of_Z 3))))
                         (data (s 3%nat)) (data (s 1%nat))
                  /\ forall h, h <> 1%nat -> h <> 2%nat -> s' h = s h)
               (processes Inputs.job) (processes W')
    /\ cDotProduct Examples.tp13 4%nat 1%nat W' = Ok (c, W')
    /\ norm2 Examples.tp13 1%nat W' = Ok (n, W').
Proof.
  apply (caxpbypzYmbwcDotProductUYNormY_correct (T := double2)
           Examples.tp22 Examples.tp13 Examples.tp13
           (mkComplex (Qc_of_Z 2) (Qc_of_Z 1))
           (mkComplex (Qc_of_Z 0) (Qc_of_Z 3))).
  - reflexivity.
  - reflexivity.
  - reflexivity.
  - discriminate.
  - discriminate.
  - discriminate.
  - repeat constructor.
Defined.

Lemma quadrupleCG3InitNorm_correct_witness :
  exists (r : double) (W' : world double2),
    quadrupleCG3InitNorm Examples.tp22 (Qc_of_Z 2)
      0%nat 1%nat 2%nat 3%nat 4%nat Inputs.job = Ok (r, W')
    /\ Forall2 (fun s s' =>
                  data (s' 2%nat) = data (s 0%nat)
                  /\ data (s' 3%nat) = data (s 1%nat)
                  /\ data (s' 0%nat)
                     = zip_with
                         (fun xi yi => vplus xi (vscale (Qc_of_Z 2) yi))
                         (data (s 0%nat)) (data (s 1%nat))
                  /\ data (s' 1%nat)
                     = zip_with
                         (fun yi vi => vminus yi (vscale (Qc_of_Z 2) vi))
                         (data (s 1%nat)) (data (s 4%nat))
                  /\ forall h, h <> 0%nat -> h <> 1%nat -> h <> 2%nat ->
                               h <> 3%nat -> s' h = s h)
               (processes Inputs.job) (processes W')
    /\ norm2 Examples.tp13 1%nat W' = Ok (r, W').
Proof.
  apply (quadrupleCG3InitNorm_correct (T := double2)).
  - reflexivity.
  - reflexivity.
  - discriminate.
  - discriminate.
  - discriminate.
  - discriminate.
  - discriminate.
  - discriminate.
  - repeat constructor.
Defined.

Lemma doubleCG3InitNorm_correct_witness :
  exists (r : double) (W' : world double2),
    doubleCG3InitNorm Examples.tp22 (Qc_of_Z 2) 0%nat 1%nat 2%nat Inputs.job
    = Ok (r, W')
    /\ Forall2 (fun s s' =>
                  data (s' 1%nat) = data (s 0%nat)
                  /\ data (s' 0%nat)
                     = zip_with
                         (fun xi zi => vminus xi (vscale (Qc_of_Z 2) zi))
                         (data (s 0%nat)) (data (s 2%nat))
                  /\ forall h, h <> 0%nat -> h <> 1%nat -> s' h = s h)
               (processes Inputs.job) (processes W')
    /\ norm2 Examples.tp13 0%nat W' = Ok (r, W').
Proof.
  apply (doubleCG3InitNorm_correct (T := double2)).
  - reflexivity.
  - reflexivity.
  - discriminate.
  - repeat constructor.
Defined.

Lemma doubleCG3UpdateNorm_correct_witness :
  exists (r : double) (W' : world double2),
    doubleCG3UpdateNorm Examples.tp22 (Qc_of_Z 2) (Qc_of_Z 3)
      0%nat 1%nat 2%nat Inputs.job = Ok (r, W')
    /\ Forall2 (fun s s' =>
                  data (s' 1%nat) = data (s 0%nat)
                  /\ data (s' 0%nat)
                     = zip_with3
                         (fun xi yi zi =>
                            vplus (vscale (Qc_of_Z 3)
                                     (vminus xi (vscale (Qc_of_Z 2) zi)))
                                  (vscale (1 - Qc_of_Z 3)%Qc yi))
                         (data (s 0%nat)) (data (s 1%nat)) (data (s 2%nat))
                  /\ forall h, h <> 0%nat -> h <> 1%nat -> s' h = s h)
               (processes Inputs.job) (processes W')
    /\ norm2 Examples.tp13 0%nat W' = Ok (r, W').
Proof.
  apply (doubleCG3UpdateNorm_correct (T := double2)).
  - reflexivity.
  - reflexivity.
  - discriminate.
  - repeat constructor.
Defined.

Lemma quadrupleCG3UpdateNorm_correct_witness :
  exists (r : double) (W' : world double2),
    quadrupleCG3UpdateNorm Examples.tp22 (Qc_of_Z 2) (Qc_of_Z 3)
      0%nat 1%nat 2%nat 3%nat 4%nat Inputs.job = Ok (r, W')
    /\ Forall2 (fun s s' =>
                  data (s' 2%nat) = data (s 0%nat)
                  /\ data (s' 3%nat) = data (s 1%nat)
                  /\ data (s' 0%nat)
                     = zip_with3
                         (fun xi yi zi =>
                            vplus (vscale (Qc_of_Z 3)
                                     (vplus xi (vscale (Qc_of_Z 2) yi)))
                                  (vscale (1 - Qc_of_Z 3)%Qc zi))
                         (data (s 0%nat)) (data (s 1%nat)) (data (s 2%nat))
                  /\ data (s' 1%nat)
                     = zip_with3
                         (fun yi vi wi =>
                            vplus (vscale (Qc_of_Z 3)
                                     (vminus yi (vscale (Qc_of_Z 2) vi)))
                                  (vscale (1 - Qc_of_Z 3)%Qc wi))
                         (data (s 1%nat)) (data (s 4%nat)) (data (s 3%nat))
                  /\ forall h, h <> 0%nat -> h <> 1%nat -> h <> 2%nat ->
                               h <> 3%nat -> s' h = s h)
               (processes Inputs.job) (processes W')
    /\ norm2 Examples.tp13 1%nat W' = Ok (r, W').
Proof.
  apply (quadrupleCG3UpdateNorm_correct (T := double2)).
  - reflexivity.
  - reflexivity.
  - discriminate.
  - discriminate.
  - discriminate.
  - discriminate.
  - discriminate.
  - discriminate.
  - repeat constructor.
Defined.

Lemma CG3_update_with_unit_weight_witness :
  doubleCG3UpdateNorm Examples.tp22 (Qc_of_Z 2) 1 0%nat 1%nat 2%nat
    Inputs.job
  = doubleCG3InitNorm Examples.tp13 (Qc_of_Z 2) 0%nat 1%nat 2%nat Inputs.job
  /\ quadrupleCG3UpdateNorm Examples.tp22 (Qc_of_Z 2) 1
       0%nat 1%nat 2%nat 3%nat 4%nat Inputs.job
     = quadrupleCG3InitNorm Examples.tp13 (Qc_of_Z 2)
         0%nat 1%nat 2%nat 3%nat 4%nat Inputs.job.
Proof.
  pose proof (CG3_update_with_unit_weight (T := double2)
                Examples.tp22 Examples.tp13 (Qc_of_Z 2)
                0%nat 1%nat 2%nat 3%nat 4%nat Inputs.job
                eq_refl eq_refl) as [Hd Hq].
  split; [apply Hd|apply Hq]; repeat constructor.
Defined.

Lemma HeavyQuarkResidualNorm_norms_witness :
  exists nx nr hq : double,
    norm2 Examples.tp13 0%nat Inputs.job = Ok (nx, Inputs.job)
    /\ norm2 Examples.tp13 1%nat Inputs.job = Ok (nr, Inputs.job)
    /\ HeavyQuarkResidualNorm Examples.tp22 0%nat 1%nat Inputs.job
       = Ok (make_double3 nx nr hq, Inputs.job).
Proof.
  apply (HeavyQuarkResidualNorm_norms (T := double2)).
  - reflexivity.
  - reflexivity.
  - reflexivity.
  - reflexivity.
  - repeat constructor.
Defined.

Lemma xpyHeavyQuarkResidualNorm_of_sum_witness :
  xpyHeavyQuarkResidualNorm Examples.tp22 0%nat 1%nat 3%nat Inputs.summed
  = HeavyQuarkResidualNorm Examples.tp13 2%nat 3%nat Inputs.summed.
Proof.
  apply (xpyHeavyQuarkResidualNorm_of_sum (T := double2)).
  - reflexivity.
  - reflexivity.
  - repeat constructor.
Defined.

Lemma HeavyQuarkResidualNorm_of_itself_witness :
  exists n : double,
    norm2 Examples.tp13 0%nat Inputs.job = Ok (n, Inputs.job)
    /\ HeavyQuarkResidualNorm Examples.tp22 0%nat 0%nat Inputs.job
       = Ok (make_double3 n n 1, Inputs.job).
Proof.
  apply (HeavyQuarkResidualNorm_of_itself (T := double2)).
  - reflexivity.
  - reflexivity.
  - reflexivity.
  - reflexivity.
  - reflexivity.
  - repeat constructor.
Defined.
